(** * LumixEngine scene components: animation controllers and ragdolls

    A shallow embedding of the parts of
    [src/animation/animation_scene.cpp] and [src/physics/physics_scene.cpp]
    that carry the controller runtime, the event-stream drain, the animable
    jobs and the script-facing controller API, the ragdoll bone tree and
    its serialization, the SDK byte streams, the collision layers, the
    character controllers and the queued forces, together with the
    properties established about them.

    Conventions.  A C++ pointer is an [option]: [None] is [nullptr].  Code
    that can dereference a null pointer, index outside an array or hit an
    [ASSERT] returns in an error monad whose failures name what went wrong.
    A [float] is carried as its 32-bit pattern and never computed on. *)

From stdpp Require Import gmap list.
From Stdlib Require Import ZArith Lia.
From Stdlib.Strings Require Import Byte.

Local Open Scope Z_scope.

(** ** Faults and the result type *)

Inductive Fault : Type :=
  | NullDeref        (* [p->f] with [p == nullptr] *)
  | OutOfBounds      (* indexing outside a C array or an [Array<T>] *)
  | AssertFailed     (* [ASSERT(false)] and failed [ASSERT]s *)
  | BlobOverrun      (* reading an [InputBlob] past its size *)
  | NoSuchComponent  (* [AssociativeArray::get] on an absent key *)
  | OutOfFuel.       (* the model's recursion bound was too small *)

Inductive Res (A : Type) : Type :=
  | Ok (a : A)
  | Err (f : Fault).
Arguments Ok {A} a.
Arguments Err {A} f.

#[global] Instance Res_ret : MRet Res := fun _ a => Ok a.
#[global] Instance Res_bind : MBind Res := fun _ _ k m =>
  match m with
  | Ok a => k a
  | Err f => Err f
  end.

Definition of_option {A} (f : Fault) (o : option A) : Res A :=
  match o with
  | Some a => Ok a
  | None => Err f
  end.

(** ** Raw bytes, as [OutputBlob::write] lays values out (little endian) *)

Definition byte_of_Z (z : Z) : byte :=
  match Byte.of_N (Z.to_N (z mod 256)) with
  | Some b => b
  | None => x00
  end.

Definition Z_of_byte (b : byte) : Z := Z.of_N (Byte.to_N b).

Fixpoint le_bytes (n : nat) (z : Z) : list byte :=
  match n with
  | O => []
  | S n' => byte_of_Z z :: le_bytes n' (z / 256)
  end.

Fixpoint le_value (bs : list byte) : Z :=
  match bs with
  | [] => 0
  | b :: bs' => Z_of_byte b + 256 * le_value bs'
  end.

Definition encode_u32 (z : Z) : list byte := le_bytes 4 z.
Definition encode_u8 (z : Z) : list byte := le_bytes 1 z.
(** [int] is two's complement on 32 bits. *)
Definition encode_i32 (z : Z) : list byte := le_bytes 4 (z mod 2 ^ 32).
Definition decode_i32 (bs : list byte) : Z :=
  let u := le_value bs in if u <? 2 ^ 31 then u else u - 2 ^ 32.

(** [InputBlob::read] of [n] bytes on the unread suffix of the blob. *)
Definition blob_read (n : nat) (blob : list byte) : Res (list byte * list byte) :=
  if decide (n ≤ length blob)%nat then Ok (take n blob, drop n blob)
  else Err BlobOverrun.

(** [InputBlob::skip]: the position moves on by [n], possibly past the end. *)
Definition blob_skip (n : nat) (blob : list byte) : list byte := drop n blob.

(** [*(T* )&array[offset] = value] for a value of [length bs] bytes. *)
Definition write_bytes (buf : list byte) (offset : Z) (bs : list byte) : Res (list byte) :=
  if decide (0 ≤ offset ∧ offset + Z.of_nat (length bs) ≤ Z.of_nat (length buf)) then
    Ok (take (Z.to_nat offset) buf ++ bs ++ drop (Z.to_nat offset + length bs) buf)
  else Err OutOfBounds.

(** [array[i]] on a C array or [Array<T>] with an [int] index. *)
Definition array_get {A} (l : list A) (i : Z) : Res A :=
  if decide (0 ≤ i) then of_option OutOfBounds (l !! Z.to_nat i) else Err OutOfBounds.

(** * The animation scene ([animation_scene.cpp]) *)

Module Animation.

Definition float := Z.
Definition float_bytes (f : float) : list byte := le_bytes 4 f.

(** [Anim::InputDecl] (declared in [animation/controller.h]): the slots the
    scene reads are [type], [name] and [offset]; [getSize()] is carried as
    the field [decl_size]. *)
Inductive InputType : Type := FLOAT | INT | BOOL | EMPTY.

#[global] Instance InputType_eq_dec : EqDecision InputType.
Proof. solve_decision. Defined.

Record Input : Type := mkInput {
  in_type : InputType;
  in_name : nat;
  in_offset : Z
}.

(** [Anim::InputDecl]: [inputs] is a C array of fixed length, the unused
    slots being [EMPTY]; its length is the length of the list. *)
Record InputDecl : Type := mkInputDecl {
  inputs : list Input;
  decl_size : nat
}.

Record AnimationSetEntry : Type := mkEntry {
  entry_set : Z;
  entry_hash : Z;
  entry_animation : nat
}.

Record ControllerResource : Type := mkResource {
  isReady : bool;
  m_input_decl : InputDecl;
  m_sets_names : list Z;            (* crc32 of each set name *)
  m_animation_set : list AnimationSetEntry
}.

(** [Anim::SetInputEvent] (declared in [animation/events.h]): an index and
    a union of the three value types, each kept as the bytes it occupies. *)
Record SetInputEvent : Type := mkSetInputEvent {
  input_idx : Z;
  b_value : list byte;
  i_value : list byte;
  f_value : list byte
}.

(** What the drain takes from headers that are not part of the sources:
    the hash [crc32("set_input")], [sizeof(Anim::SetInputEvent)] and the
    layout [InputBlob::read] fills the event from. *)
Class EventLayout : Type := {
  set_input_type : Z;
  sizeof_SetInputEvent : nat;
  read_SetInputEvent : list byte -> SetInputEvent
}.

Section Scene.

(** The polymorphic node ([Anim::ComponentInstance]) is outside the
    sources: its identity is all the scene looks at. *)
Context {Node : Type}.

Record IK : Type := mkIK {
  weight_is_zero : bool
}.

Record Controller : Type := mkController {
  entity : Z;
  resource : option nat;
  root : option Node;
  default_set : Z;
  input : list byte;
  animations : list (Z * nat);
  inverse_kinematics : list IK
}.

(** [Anim::RunningContext] as the scene fills it in. *)
Record RunningContext : Type := mkRC {
  rc_time_delta : float;
  rc_current : option Node;
  rc_input : list byte;
  rc_anim_set : list (Z * nat);
  rc_controller : Z
}.

(** What the scene calls on a node and on the solver, in call order.
    [LUMIX_DELETE] of the node a controller owns shows as the cleared
    [root]: nothing else refers to the node. *)
Inductive Call : Type :=
  | CallEnter (n : Node)
  | CallUpdate (n : Node) (time_delta : float)
  | CallFillPose (n : Node)
  | CallUpdateIK (chain : nat).

Inductive Warning : Type :=
  | WarnInputBeforeReady (input_idx : Z)
  | WarnSetFloatTo (name : nat)
  | WarnSetIntTo (name : nat)
  | WarnSetBoolTo (name : nat).

Record RenderScene : Type := mkRender {
  has_model_instance : Z -> bool;   (* getModelInstanceComponent != INVALID_COMPONENT *)
  lockPose : Z -> bool              (* lockPose returned a pose *)
}.

Record Scene : Type := mkScene {
  m_controllers : gmap Z Controller;
  resources : gmap nat ControllerResource;
  m_render_scene : RenderScene;
  m_event_stream : list byte;
  m_log : list Warning;
  m_calls : list Call
}.

(** The virtual calls of a node and of the resource. *)
Variable node_update : Node -> RunningContext -> Node * list byte.
Variable createInstance : ControllerResource -> Node.

(** State and failure monad of the scene's methods. *)
Definition M (A : Type) : Type := Scene -> Res (A * Scene).

#[global] Instance M_ret : MRet M := fun _ a s => Ok (a, s).
#[global] Instance M_bind : MBind M := fun _ _ k m s =>
  match m s with
  | Ok (a, s') => k a s'
  | Err f => Err f
  end.

Definition fail {A} (f : Fault) : M A := fun _ => Err f.
Definition lift {A} (r : Res A) : M A := fun s =>
  match r with
  | Ok a => Ok (a, s)
  | Err f => Err f
  end.
Definition gets {A} (f : Scene -> A) : M A := fun s => Ok (f s, s).
Definition modify (f : Scene -> Scene) : M unit := fun s => Ok (tt, f s).

Definition set_controllers (f : gmap Z Controller -> gmap Z Controller) (s : Scene) : Scene :=
  mkScene (f (m_controllers s)) (resources s) (m_render_scene s)
          (m_event_stream s) (m_log s) (m_calls s).
Definition set_event_stream (f : list byte -> list byte) (s : Scene) : Scene :=
  mkScene (m_controllers s) (resources s) (m_render_scene s)
          (f (m_event_stream s)) (m_log s) (m_calls s).
Definition add_log (w : Warning) (s : Scene) : Scene :=
  mkScene (m_controllers s) (resources s) (m_render_scene s)
          (m_event_stream s) (m_log s ++ [w]) (m_calls s).
Definition add_call (c : Call) (s : Scene) : Scene :=
  mkScene (m_controllers s) (resources s) (m_render_scene s)
          (m_event_stream s) (m_log s) (m_calls s ++ [c]).

Definition log_warning (w : Warning) : M unit := modify (add_log w).
Definition call (c : Call) : M unit := modify (add_call c).

(** [m_controllers.get({cmp.index})] *)
Definition get_controller (cmp : Z) : M Controller := fun s =>
  match m_controllers s !! cmp with
  | Some c => Ok (c, s)
  | None => Err NoSuchComponent
  end.
(** Writing through a [Controller&] obtained for [cmp]. *)
Definition put_controller (cmp : Z) (c : Controller) : M unit :=
  modify (set_controllers (insert cmp c)).

(** [controller.resource->...] *)
Definition deref_resource (c : Controller) : M ControllerResource := fun s =>
  match resource c with
  | Some p => match resources s !! p with
              | Some r => Ok (r, s)
              | None => Err NullDeref
              end
  | None => Err NullDeref
  end.

Definition with_root (c : Controller) (r : option Node) : Controller :=
  mkController (entity c) (resource c) r (default_set c) (input c)
               (animations c) (inverse_kinematics c).
Definition with_input (c : Controller) (i : list byte) : Controller :=
  mkController (entity c) (resource c) (root c) (default_set c) i
               (animations c) (inverse_kinematics c).
Definition with_animations (c : Controller) (a : list (Z * nat)) : Controller :=
  mkController (entity c) (resource c) (root c) (default_set c) (input c)
               a (inverse_kinematics c).

(** *** Lazy initialisation and the per-tick update *)

(** The set the controller starts in: the first name whose hash is
    [default_set], set 0 when there is none. *)
Fixpoint find_default_set (names : list Z) (default : Z) (i : Z) : Z :=
  match names with
  | [] => 0
  | h :: t => if decide (default = h) then i else find_default_set t default (i + 1)
  end.

Definition entries_of_set (es : list AnimationSetEntry) (set_idx : Z) : list (Z * nat) :=
  map (fun e => (entry_hash e, entry_animation e))
      (filter (fun e => entry_set e = set_idx) es).

Definition initControllerRuntime (c : Controller) : M (bool * Controller) :=
  res ← deref_resource c;
  if negb (isReady res) then mret (false, c)
  else if decide (decl_size (m_input_decl res) = 0%nat) then mret (false, c)
  else
    let n := createInstance res in
    let c := with_root c (Some n) in
    let size := decl_size (m_input_decl res) in
    let c := with_input c (take size (input c) ++ replicate (size - length (input c)) x00) in
    let set_idx := find_default_set (m_sets_names res) (default_set c) 0 in
    let c := with_animations c (animations c ++ entries_of_set (m_animation_set res) set_idx) in
    _ ← lift (array_get (input c) 0);
    let c := with_input c (replicate (length (input c)) x00) in
    call (CallEnter n);;
    mret (true, c).

(** The chains are solved until the first one of weight zero. *)
Fixpoint updateIK_chains (iks : list IK) (i : nat) : M unit :=
  match iks with
  | [] => mret tt
  | ik :: rest =>
      if weight_is_zero ik then mret tt
      else call (CallUpdateIK i);; updateIK_chains rest (S i)
  end.

Definition updateController (c : Controller) (time_delta : float) : M Controller :=
  res ← deref_resource c;
  if negb (isReady res) then mret (with_root c None)
  else
    '(ok, c) ← match root c with
                | Some _ => mret (true, c)
                | None => initControllerRuntime c
                end;
    if negb ok then mret c
    else
      n ← lift (of_option NullDeref (root c));
      _ ← lift (array_get (input c) 0);
      let rc := mkRC time_delta (root c) (input c) (animations c) (entity c) in
      call (CallUpdate n time_delta);;
      let '(n', events) := node_update n rc in
      modify (set_event_stream (fun es => es ++ events));;
      let c := with_root c (Some n') in
      rs ← gets m_render_scene;
      if negb (has_model_instance rs (entity c)) then mret c
      else if negb (lockPose rs (entity c)) then mret c
      else
        r ← lift (of_option NullDeref (root c));
        call (CallFillPose r);;
        updateIK_chains (inverse_kinematics c) 0;;
        mret c.

(** [updateController] on the controller stored for an entity, the result
    written back where the reference points. *)
Definition updateControllerOf (e : Z) (time_delta : float) : M unit :=
  c ← get_controller e;
  c' ← updateController c time_delta;
  put_controller e c'.

Fixpoint ticks (n : nat) (e : Z) (time_delta : float) : M unit :=
  match n with
  | O => mret tt
  | S n' => updateControllerOf e time_delta;; ticks n' e time_delta
  end.

(** *** Teardown on a resource change *)

Definition teardown (c : Controller) : Controller :=
  mkController (entity c) (resource c) None 0 [] [] (inverse_kinematics c).

Definition onControllerResourceChanged (new_state_ready : bool) (res : nat) : M unit :=
  modify (set_controllers (fmap (fun c =>
    if bool_decide (resource c = Some res) && bool_decide (is_Some (root c))
       && negb new_state_ready
    then teardown c else c))).

(** *** The input setters exposed to scripts *)

Definition store_input (cmp : Z) (c : Controller) (offset : Z) (bs : list byte) : M unit :=
  buf ← lift (write_bytes (input c) offset bs);
  put_controller cmp (with_input c buf).

Definition setControllerFloatInput (cmp : Z) (input_idx : Z) (value : float) : M unit :=
  controller ← get_controller cmp;
  match root controller with
  | None => log_warning (WarnInputBeforeReady input_idx)
  | Some _ =>
      res ← deref_resource controller;
      let decl := m_input_decl res in
      if bool_decide (input_idx < 0 ∨ Z.of_nat (length (inputs decl)) ≤ input_idx) then mret tt
      else
        slot ← lift (array_get (inputs decl) input_idx);
        match in_type slot with
        | FLOAT => store_input cmp controller (in_offset slot) (float_bytes value)
        | _ => log_warning (WarnSetFloatTo (in_name slot))
        end
  end.

Definition setControllerIntInput (cmp : Z) (input_idx : Z) (value : Z) : M unit :=
  controller ← get_controller cmp;
  match root controller with
  | None => log_warning (WarnInputBeforeReady input_idx)
  | Some _ =>
      res ← deref_resource controller;
      let decl := m_input_decl res in
      slot ← lift (array_get (inputs decl) input_idx);
      match in_type slot with
      | INT => store_input cmp controller (in_offset slot) (encode_i32 value)
      | _ => log_warning (WarnSetIntTo (in_name slot))
      end
  end.

Definition setControllerBoolInput (cmp : Z) (input_idx : Z) (value : bool) : M unit :=
  controller ← get_controller cmp;
  match root controller with
  | None => log_warning (WarnInputBeforeReady input_idx)
  | Some _ =>
      res ← deref_resource controller;
      let decl := m_input_decl res in
      slot ← lift (array_get (inputs decl) input_idx);
      match in_type slot with
      | BOOL => store_input cmp controller (in_offset slot) [if value then x01 else x00]
      | _ => log_warning (WarnSetBoolTo (in_name slot))
      end
  end.


(** A misused call as the specification words it: one warning is logged
    and nothing else changes. *)
Definition logged_noop (before : Scene) (r : Res (unit * Scene)) : Prop :=
  ∃ w, r = Ok (tt, add_log w before).

(** *** The event-stream drain *)

Context `{EventLayout}.

(** The body of the [set_input] branch once the event has been read. *)
Definition apply_set_input (cmp : Z) (event : SetInputEvent) : M unit :=
  ctrl ← get_controller cmp;
  res ← deref_resource ctrl;
  if isReady res then
    let decl := m_input_decl res in
    slot ← lift (array_get (inputs decl) (input_idx event));
    match in_type slot with
    | BOOL => store_input cmp ctrl (in_offset slot) (b_value event)
    | INT => store_input cmp ctrl (in_offset slot) (i_value event)
    | FLOAT => store_input cmp ctrl (in_offset slot) (f_value event)
    | EMPTY => fail AssertFailed
    end
  else mret tt.

(** The [while] loop over the unread part of the blob; every turn reads
    at least the nine header bytes, so [fuel] bounds the turns. *)
Fixpoint drain (fuel : nat) (blob : list byte) : M unit :=
  match fuel with
  | O => fail OutOfFuel
  | S fuel' =>
      match blob with
      | [] => mret tt
      | _ :: _ =>
          '(type, blob) ← lift (blob_read 4 blob);
          '(cmp, blob) ← lift (blob_read 4 blob);
          '(size, blob) ← lift (blob_read 1 blob);
          if decide (le_value type = set_input_type) then
            '(ev, blob) ← lift (blob_read sizeof_SetInputEvent blob);
            apply_set_input (decode_i32 cmp) (read_SetInputEvent ev);;
            drain fuel' blob
          else drain fuel' (blob_skip (Z.to_nat (le_value size)) blob)
      end
  end.

Definition processEventStream : M unit :=
  es ← gets m_event_stream;
  drain (S (length es)) es.

(** *** Records as the controllers append them *)

Record EventRecord : Type := mkRecord {
  type_hash : Z;
  owner_component : Z;
  payload : list byte
}.

Definition encode_record (r : EventRecord) : list byte :=
  encode_u32 (type_hash r) ++ encode_i32 (owner_component r)
    ++ encode_u8 (Z.of_nat (length (payload r))) ++ payload r.

Definition encode_stream (rs : list EventRecord) : list byte :=
  concat (map encode_record rs).

Definition well_formed (r : EventRecord) : Prop :=
  0 ≤ type_hash r < 2 ^ 32 ∧
  - 2 ^ 31 ≤ owner_component r < 2 ^ 31 ∧
  (length (payload r) < 256)%nat ∧
  (type_hash r = set_input_type → length (payload r) = sizeof_SetInputEvent).

(** What draining one record amounts to. *)
Definition dispatch (r : EventRecord) : M unit :=
  if decide (type_hash r = set_input_type)
  then apply_set_input (owner_component r) (read_SetInputEvent (payload r))
  else mret tt.

Fixpoint dispatch_all (rs : list EventRecord) : M unit :=
  match rs with
  | [] => mret tt
  | r :: rest => dispatch r;; dispatch_all rest
  end.

(** *** The drain as the specification words it *)

(** [buf'] is [buf] with the bytes [v] written at [offset], every other
    byte as it was. *)
Definition stored_at (buf : list byte) (offset : Z) (v : list byte) (buf' : list byte)
  : Prop :=
  0 ≤ offset ∧ offset + Z.of_nat (length v) ≤ Z.of_nat (length buf) ∧
  length buf' = length buf ∧
  ∀ i : nat,
    buf' !! i =
    if decide (Z.to_nat offset ≤ i < Z.to_nat offset + length v)%nat
    then v !! (i - Z.to_nat offset)%nat
    else buf !! i.

(** The value a [set_input] event carries for a slot of each type. *)
Definition event_value (t : InputType) (e : SetInputEvent) : option (list byte) :=
  match t with
  | BOOL => Some (b_value e)
  | INT => Some (i_value e)
  | FLOAT => Some (f_value e)
  | EMPTY => None
  end.

(** The scene with the input buffer of the controller [cmp] replaced. *)
Definition with_input_of (cmp : Z) (c : Controller) (buf : list byte) (s : Scene) : Scene :=
  mkScene (<[cmp := mkController (entity c) (resource c) (root c) (default_set c) buf
                                 (animations c) (inverse_kinematics c)]> (m_controllers s))
          (resources s) (m_render_scene s) (m_event_stream s) (m_log s) (m_calls s).

(** Draining the records [rs] in append order takes the scene [s] to
    [s']: a record of another type changes nothing; a [set_input] record
    whose owner's resource is not ready changes nothing; a [set_input]
    record whose owner's resource is ready stores the value the event
    carries for the type of the slot it names at that slot's offset in the
    owner's input, and changes nothing else. *)
Inductive drains_to : list EventRecord → Scene → Scene → Prop :=
  | drains_nil (s : Scene) :
      drains_to [] s s
  | drains_unknown (r : EventRecord) (rest : list EventRecord) (s s' : Scene) :
      type_hash r ≠ set_input_type →
      drains_to rest s s' →
      drains_to (r :: rest) s s'
  | drains_not_ready (r : EventRecord) (rest : list EventRecord) (s s' : Scene)
        (c : Controller) (p : nat) (res : ControllerResource) :
      type_hash r = set_input_type →
      m_controllers s !! owner_component r = Some c →
      resource c = Some p → resources s !! p = Some res →
      isReady res = false →
      drains_to rest s s' →
      drains_to (r :: rest) s s'
  | drains_set_input (r : EventRecord) (rest : list EventRecord) (s s' : Scene)
        (c : Controller) (p : nat) (res : ControllerResource)
        (slot : Input) (v buf' : list byte) :
      type_hash r = set_input_type →
      m_controllers s !! owner_component r = Some c →
      resource c = Some p → resources s !! p = Some res →
      isReady res = true →
      0 ≤ input_idx (read_SetInputEvent (payload r)) →
      inputs (m_input_decl res) !! Z.to_nat (input_idx (read_SetInputEvent (payload r)))
        = Some slot →
      event_value (in_type slot) (read_SetInputEvent (payload r)) = Some v →
      stored_at (input c) (in_offset slot) v buf' →
      drains_to rest (with_input_of (owner_component r) c buf' s) s' →
      drains_to (r :: rest) s s'.

End Scene.
End Animation.

(** ** Concrete scenes *)

Module AnimationExamples.
Import Animation.

(** Nodes are numbered; an update hands over to the next node and emits
    nothing. *)
Definition next_node (n : nat) (rc : @RunningContext nat) : nat * list byte := (S n, []).
Definition first_node (r : ControllerResource) : nat := 0%nat.

(** [decl.inputs] is an array of fixed length whose unused slots are
    [EMPTY] and carry the empty name; the length is taken to be 32. *)
Definition inputs_capacity : nat := 32.
Definition empty_name : nat := 3.
Definition empty_slot : Input := mkInput EMPTY empty_name 0.

(** A declaration of a float, an int and a bool slot, the rest of the
    array being unused. *)
Definition three_slots (size : nat) : InputDecl :=
  mkInputDecl ([mkInput FLOAT 0 0; mkInput INT 1 4; mkInput BOOL 2 8]
                 ++ replicate (inputs_capacity - 3) empty_slot) size.
Definition a_resource (ready : bool) (size : nat) : ControllerResource :=
  mkResource ready (three_slots size) [] [].

Definition a_controller (r : option nat) (buf : list byte) : @Controller nat :=
  mkController 1 (Some 0%nat) r 0 buf [] [mkIK false; mkIK true].

Definition a_scene (res : ControllerResource) (c : @Controller nat) (es : list byte)
    : @Scene nat :=
  mkScene {[ 1 := c ]} {[ 0%nat := res ]} (mkRender (λ _, true) (λ _, true)) es [] [].

Definition zeros : list byte := replicate 9 x00.
Definition stale_input : list byte := [x01; x02; x03; x04].

(** The layout of [Anim::SetInputEvent] on the usual 32-bit [int]: the
    index, then the union; the hash is the CRC-32 of ["set_input"]. *)
#[global] Instance usual_layout : EventLayout := {|
  set_input_type := 1289342641;
  sizeof_SetInputEvent := 8;
  read_SetInputEvent bs :=
    mkSetInputEvent (decode_i32 (take 4 bs)) (take 1 (drop 4 bs))
                    (take 4 (drop 4 bs)) (take 4 (drop 4 bs))
|}.

(** A record of an unknown type, then a [set_input] of 7 to slot 1. *)
Definition two_records : list EventRecord :=
  [ mkRecord 12345 1 [x0a; x0b; x0c];
    mkRecord 1289342641 1 (encode_i32 1 ++ encode_i32 7) ].

End AnimationExamples.

(** * The ragdoll bone tree ([physics_scene.cpp]) *)

Module Ragdoll.

(** Values of the math and SDK types are kept as the bytes they occupy:
    [Transform] and [physx::PxTransform] are seven floats, [PxVec3] three,
    [PxJointAngularLimitPair] seven. *)
Definition Transform := list byte.
Definition sizeof_Transform : nat := 28.
Definition sizeof_PxVec3 : nat := 12.
Definition sizeof_float : nat := 4.
Definition sizeof_limit : nat := 28.

(** [RagdollBone::Type], written as an [int]. *)
Definition BOX : Z := 0.
Definition CAPSULE : Z := 1.

Inductive Geometry : Type :=
  | BoxGeometry (halfExtents : list byte)
  | CapsuleGeometry (halfHeight radius : list byte).

(** The rigid actor a bone owns: what the scene reads back from it. *)
Record Actor : Type := mkActor {
  global_pose : Transform;
  geometry : Geometry
}.

(** [physx::PxJointConcreteType::Enum], with the values of the SDK header. *)
Inductive JointType : Type :=
  | eSPHERICAL | eREVOLUTE | ePRISMATIC | eFIXED | eDISTANCE | eD6.

#[global] Instance JointType_eq_dec : EqDecision JointType.
Proof. solve_decision. Defined.

Definition joint_type_code (t : JointType) : Z :=
  match t with
  | eSPHERICAL => 256
  | eREVOLUTE => 257
  | ePRISMATIC => 258
  | eFIXED => 259
  | eDISTANCE => 260
  | eD6 => 261
  end.

Definition joint_type_of_code (z : Z) : option JointType :=
  if decide (z = 256) then Some eSPHERICAL
  else if decide (z = 257) then Some eREVOLUTE
  else if decide (z = 258) then Some ePRISMATIC
  else if decide (z = 259) then Some eFIXED
  else if decide (z = 260) then Some eDISTANCE
  else if decide (z = 261) then Some eD6
  else None.

(** What a joint of each type carries besides its two local poses. *)
Inductive JointParams : Type :=
  | FixedParams
  | RevoluteParams (limit : list byte) (flags : Z)
  | SphericalParams (limit_cone : list byte) (flags : Z)
  | DistanceParams (min_distance max_distance tolerance stiffness damping : list byte)
                   (flags : Z).

Definition params_type (p : JointParams) : JointType :=
  match p with
  | FixedParams => eFIXED
  | RevoluteParams _ _ => eREVOLUTE
  | SphericalParams _ _ => eSPHERICAL
  | DistanceParams _ _ _ _ _ _ => eDISTANCE
  end.

(** A joint between the actors of two bones; a bone owns its actor, so the
    bone's address stands for the actor's. *)
Record Joint : Type := mkJoint {
  actor0 : nat;
  actor1 : nat;
  local_pose0 : Transform;
  local_pose1 : Transform;
  params : JointParams
}.

Definition getConcreteType (j : Joint) : JointType := params_type (params j).

Record RagdollBone : Type := mkBone {
  pose_bone_idx : Z;
  actor : Actor;
  parent_joint : option Joint;
  child : option nat;
  next : option nat;
  prev : option nat;
  parent : option nat;
  bind_transform : Transform
}.

(** The bones allocated so far, the ragdoll's [root] and the allocator. *)
Record State : Type := mkState {
  bones : gmap nat RagdollBone;
  root : option nat;
  next_free : nat
}.

Definition H (A : Type) : Type := State -> Res (A * State).

#[global] Instance H_ret : MRet H := fun _ a s => Ok (a, s).
#[global] Instance H_bind : MBind H := fun _ _ k m s =>
  match m s with
  | Ok (a, s') => k a s'
  | Err f => Err f
  end.

Definition fail {A} (f : Fault) : H A := fun _ => Err f.
Definition lift {A} (r : Res A) : H A := fun s =>
  match r with
  | Ok a => Ok (a, s)
  | Err f => Err f
  end.

(** [*bone] *)
Definition get_bone (p : nat) : H RagdollBone := fun s =>
  match bones s !! p with
  | Some b => Ok (b, s)
  | None => Err NullDeref
  end.
Definition get_root : H (option nat) := fun s => Ok (root s, s).
Definition set_root (r : option nat) : H unit := fun s =>
  Ok (tt, mkState (bones s) r (next_free s)).

(** [bone->field = v] *)
Definition update_bone (p : nat) (f : RagdollBone -> RagdollBone) : H unit := fun s =>
  match bones s !! p with
  | Some b => Ok (tt, mkState (<[p := f b]> (bones s)) (root s) (next_free s))
  | None => Err NullDeref
  end.

Definition with_child (v : option nat) (b : RagdollBone) : RagdollBone :=
  mkBone (pose_bone_idx b) (actor b) (parent_joint b) v (next b) (prev b)
         (parent b) (bind_transform b).
Definition with_next (v : option nat) (b : RagdollBone) : RagdollBone :=
  mkBone (pose_bone_idx b) (actor b) (parent_joint b) (child b) v (prev b)
         (parent b) (bind_transform b).
Definition with_prev (v : option nat) (b : RagdollBone) : RagdollBone :=
  mkBone (pose_bone_idx b) (actor b) (parent_joint b) (child b) (next b) v
         (parent b) (bind_transform b).
Definition with_parent (v : option nat) (b : RagdollBone) : RagdollBone :=
  mkBone (pose_bone_idx b) (actor b) (parent_joint b) (child b) (next b) (prev b)
         v (bind_transform b).
Definition with_parent_joint (v : option Joint) (b : RagdollBone) : RagdollBone :=
  mkBone (pose_bone_idx b) (actor b) v (child b) (next b) (prev b)
         (parent b) (bind_transform b).

Definition set_child (p : nat) (v : option nat) : H unit := update_bone p (with_child v).
Definition set_next (p : nat) (v : option nat) : H unit := update_bone p (with_next v).
Definition set_prev (p : nat) (v : option nat) : H unit := update_bone p (with_prev v).
Definition set_parent (p : nat) (v : option nat) : H unit := update_bone p (with_parent v).
Definition set_parent_joint (p : nat) (v : option Joint) : H unit :=
  update_bone p (with_parent_joint v).

(** [if (q) q->prev = v] and [if (q) q->next = v] *)
Definition set_prev_of (q : option nat) (v : option nat) : H unit :=
  match q with
  | Some q' => set_prev q' v
  | None => mret tt
  end.
Definition set_next_of (q : option nat) (v : option nat) : H unit :=
  match q with
  | Some q' => set_next q' v
  | None => mret tt
  end.

(** [getBone]: depth-first search by skeleton index, the child list before
    the sibling list.  [fuel] bounds the depth of the recursion. *)
Fixpoint getBone (fuel : nat) (h : gmap nat RagdollBone) (bone : option nat)
    (idx : Z) : Res (option nat) :=
  match fuel with
  | O => Err OutOfFuel
  | S fuel' =>
      match bone with
      | None => Ok None
      | Some p =>
          b ← of_option NullDeref (h !! p);
          if decide (pose_bone_idx b = idx) then Ok (Some p)
          else
            handle ← getBone fuel' h (child b) idx;
            match handle with
            | Some _ => Ok handle
            | None => getBone fuel' h (next b) idx
            end
      end
  end.

Section Operations.

(** The skeleton of the model the ragdoll belongs to: the [parent_idx] of
    each bone.  Bone names are taken to have distinct hashes, so that
    [getBoneIndex(crc32(name))] of bone [i] is [i]. *)
Variable model : list Z.

(** What the SDK and the float arithmetic decide: the actor and bind
    transform made for a skeleton bone, the frames of a new joint between
    a parent's and a child's actor, and the parameters a new joint has. *)
Variable new_actor : Z -> Actor.
Variable new_bind_transform : Z -> Transform.
Variable joint_frames : Actor -> Actor -> Transform * Transform.
Variable new_joint_params : JointType -> JointParams.

Definition getRagdollBoneByName (idx : Z) : H (option nat) := fun s =>
  _ ← array_get model idx;
  r ← getBone (S (size (bones s))) (bones s) (root s) idx;
  Ok (r, s).

(** The [do ... while] of [getPhyParent], [bone] being skeleton bone [j]. *)
Fixpoint getPhyParent_loop (fuel : nat) (j : Z) : H (option nat) :=
  match fuel with
  | O => fail OutOfFuel
  | S fuel' =>
      parent_idx ← lift (array_get model j);
      phy_bone ← getRagdollBoneByName parent_idx;
      grand_idx ← lift (array_get model parent_idx);
      match phy_bone with
      | None => if decide (0 ≤ grand_idx) then getPhyParent_loop fuel' parent_idx
                else mret None
      | Some _ => mret phy_bone
      end
  end.

Definition getPhyParent (bone_index : Z) : H (option nat) :=
  parent_idx ← lift (array_get model bone_index);
  if decide (parent_idx < 0) then mret None
  else getPhyParent_loop (S (length model)) bone_index.

Definition changeRagdollBoneJoint (child_bone : nat) (type : Z) : H unit :=
  cb ← get_bone child_bone;
  p ← lift (of_option NullDeref (parent cb));
  pb ← get_bone p;
  let '(tr0, tr1) := joint_frames (actor pb) (actor cb) in
  match joint_type_of_code type with
  | Some eFIXED =>
      set_parent_joint child_bone (Some (mkJoint p child_bone tr0 tr1 (new_joint_params eFIXED)))
  | Some eREVOLUTE =>
      set_parent_joint child_bone (Some (mkJoint p child_bone tr0 tr1 (new_joint_params eREVOLUTE)))
  | Some eSPHERICAL =>
      set_parent_joint child_bone (Some (mkJoint p child_bone tr0 tr1 (new_joint_params eSPHERICAL)))
  | _ => fail AssertFailed
  end.

(** The [while (child)] loop of [disconnect]. *)
Fixpoint disconnect_children (fuel : nat) (ch : option nat) (par : option nat) : H unit :=
  match ch with
  | None => mret tt
  | Some c =>
      match fuel with
      | O => fail OutOfFuel
      | S fuel' =>
          cb ← get_bone c;
          let nxt := next cb in
          set_parent_joint c None;;
          match par with
          | Some p =>
              pb ← get_bone p;
              set_next c (child pb);;
              set_prev c None;;
              cb ← get_bone c;
              set_prev_of (next cb) (Some c);;
              set_child p (Some c);;
              set_parent c (Some p);;
              changeRagdollBoneJoint c (joint_type_code eREVOLUTE)
          | None =>
              set_parent c None;;
              r ← get_root;
              set_next c r;;
              set_prev c None;;
              cb ← get_bone c;
              set_prev_of (next cb) (Some c);;
              set_root (Some c)
          end;;
          disconnect_children fuel' nxt par
      end
  end.

Definition disconnect (bone : nat) : H unit :=
  b ← get_bone bone;
  let ch := child b in
  let par := parent b in
  match par with
  | Some p =>
      pb ← get_bone p;
      if decide (child pb = Some bone) then set_child p (next b) else mret tt
  | None => mret tt
  end;;
  r ← get_root;
  (if decide (r = Some bone) then b ← get_bone bone; set_root (next b) else mret tt);;
  b ← get_bone bone;
  set_next_of (prev b) (next b);;
  b ← get_bone bone;
  set_prev_of (next b) (prev b);;
  sz ← (fun s => Ok (size (bones s), s));
  disconnect_children sz ch par;;
  set_parent_joint bone None;;
  set_parent bone None;;
  set_child bone None;;
  set_prev bone None;;
  r ← get_root;
  set_next bone r;;
  b ← get_bone bone;
  set_prev_of (next b) (Some bone).

Definition connect (child_bone : nat) (parent_bone : nat) : H unit :=
  cb ← get_bone child_bone;
  if decide (is_Some (parent cb)) then fail AssertFailed
  else if decide (is_Some (child cb)) then fail AssertFailed
  else
    set_prev_of (next cb) (prev cb);;
    cb ← get_bone child_bone;
    set_next_of (prev cb) (next cb);;
    r ← get_root;
    cb ← get_bone child_bone;
    (if decide (r = Some child_bone) then set_root (next cb) else mret tt);;
    pb ← get_bone parent_bone;
    set_next child_bone (child pb);;
    cb ← get_bone child_bone;
    set_prev_of (next cb) (Some child_bone);;
    set_child parent_bone (Some child_bone);;
    set_parent child_bone (Some parent_bone);;
    changeRagdollBoneJoint child_bone (joint_type_code eREVOLUTE).

(** First loop of [findCloserChildren]: over the root list, until the first
    bone that is moved. *)
Fixpoint findCloserChildren_roots (fuel : nat) (cur : option nat) (bone : nat) : H unit :=
  match cur with
  | None => mret tt
  | Some r =>
      match fuel with
      | O => fail OutOfFuel
      | S fuel' =>
          rb ← get_bone r;
          if decide (r = bone) then findCloserChildren_roots fuel' (next rb) bone
          else
            tmp ← getPhyParent (pose_bone_idx rb);
            if decide (tmp = Some bone) then disconnect r;; connect r bone
            else findCloserChildren_roots fuel' (next rb) bone
      end
  end.

(** Second loop: over the children of [bone]'s parent. *)
Fixpoint findCloserChildren_siblings (fuel : nat) (cur : option nat) (bone : nat) : H unit :=
  match cur with
  | None => mret tt
  | Some c =>
      match fuel with
      | O => fail OutOfFuel
      | S fuel' =>
          if decide (c = bone) then
            cb ← get_bone c;
            findCloserChildren_siblings fuel' (next cb) bone
          else
            b ← get_bone bone;
            tmp ← getPhyParent (pose_bone_idx b);
            (if decide (tmp = Some bone) then disconnect c;; connect c bone
             else mret tt);;
            cb ← get_bone c;
            findCloserChildren_siblings fuel' (next cb) bone
      end
  end.

Definition findCloserChildren (bone : nat) : H unit :=
  r ← get_root;
  sz ← (fun s => Ok (size (bones s), s));
  findCloserChildren_roots sz r bone;;
  b ← get_bone bone;
  match parent b with
  | None => mret tt
  | Some p =>
      pb ← get_bone p;
      findCloserChildren_siblings sz (child pb) bone
  end.

(** [LUMIX_NEW(m_allocator, RagdollBone)] *)
Definition new_bone (b : RagdollBone) : H nat := fun s =>
  Ok (next_free s, mkState (<[next_free s := b]> (bones s)) (root s) (S (next_free s))).

Definition createRagdollBone (idx : Z) : H nat :=
  _ ← lift (array_get model idx);
  nb ← new_bone (mkBone idx (new_actor idx) None None None None None
                        (new_bind_transform idx));
  r ← get_root;
  set_next nb r;;
  b ← get_bone nb;
  set_prev_of (next b) (Some nb);;
  set_root (Some nb);;
  par ← getPhyParent idx;
  match par with
  | Some p => connect nb p
  | None => mret tt
  end;;
  findCloserChildren nb;;
  mret nb.

End Operations.

(** *** What the tree is meant to look like *)

(** The bones met from [start] along [next]. *)
Fixpoint chain (fuel : nat) (h : gmap nat RagdollBone) (start : option nat) : Res (list nat) :=
  match start with
  | None => Ok []
  | Some p =>
      match fuel with
      | O => Err OutOfFuel
      | S fuel' =>
          b ← of_option NullDeref (h !! p);
          rest ← chain fuel' h (next b);
          Ok (p :: rest)
      end
  end.

Definition root_list (s : State) : Res (list nat) :=
  chain (size (bones s)) (bones s) (root s).

Definition children_list (s : State) (p : nat) : Res (list nat) :=
  b ← of_option NullDeref (bones s !! p);
  chain (size (bones s)) (bones s) (child b).

(** [prev->next == this] and [next->prev == this] whenever non-null. *)
Definition back_links (s : State) : Prop :=
  ∀ p b, bones s !! p = Some b →
    (∀ q, prev b = Some q → ∃ qb, bones s !! q = Some qb ∧ next qb = Some p) ∧
    (∀ q, next b = Some q → ∃ qb, bones s !! q = Some qb ∧ prev qb = Some p).

(** Every bone without a parent is on the list that starts at [root]. *)
Definition parentless_on_root_list (s : State) : Prop :=
  ∀ p b, bones s !! p = Some b → parent b = None →
    ∃ l, root_list s = Ok l ∧ p ∈ l.

Definition tree_consistent (s : State) : Prop :=
  back_links s ∧ (∃ l, root_list s = Ok l ∧ NoDup l) ∧ parentless_on_root_list s.

Definition empty_ragdoll : State := mkState ∅ None 0.

(** *** Serialization of a ragdoll *)

Definition write_bool (b : bool) : list byte := [if b then x01 else x00].

Definition serializeRagdollJoint (b : RagdollBone) : Res (list byte) :=
  match parent_joint b with
  | None => Ok (write_bool false)
  | Some j =>
      let head := write_bool true ++ encode_i32 (joint_type_code (getConcreteType j))
                    ++ local_pose0 j ++ local_pose1 j in
      match params j with
      | FixedParams => Ok head
      | DistanceParams mn mx tol st dm fl =>
          Ok (head ++ mn ++ mx ++ tol ++ st ++ dm ++ encode_u32 fl)
      | RevoluteParams limit fl => Ok (head ++ limit ++ encode_u32 fl)
      | SphericalParams _ _ => Err AssertFailed
      end
  end.

Definition serialize_geometry (g : Geometry) : list byte :=
  match g with
  | BoxGeometry halfExtents => encode_i32 BOX ++ halfExtents
  | CapsuleGeometry halfHeight radius => encode_i32 CAPSULE ++ halfHeight ++ radius
  end.

(** [fuel] bounds the depth of the recursion over [child] and [next]. *)
Fixpoint serializeRagdollBone (fuel : nat) (h : gmap nat RagdollBone) (bone : option nat)
    : Res (list byte) :=
  match bone with
  | None => Ok (encode_i32 (-1))
  | Some p =>
      match fuel with
      | O => Err OutOfFuel
      | S fuel' =>
          b ← of_option NullDeref (h !! p);
          let head := encode_i32 (pose_bone_idx b) ++ global_pose (actor b)
                        ++ bind_transform b ++ serialize_geometry (geometry (actor b)) in
          c ← serializeRagdollBone fuel' h (child b);
          n ← serializeRagdollBone fuel' h (next b);
          j ← serializeRagdollJoint b;
          Ok (head ++ c ++ n ++ j)
      end
  end.

Definition serializeRagdoll (s : State) : Res (list byte) :=
  serializeRagdollBone (size (bones s)) (bones s) (root s).

Section Deserialization.

Variable joint_frames : Actor -> Actor -> Transform * Transform.
Variable new_joint_params : JointType -> JointParams.

(** The scene's state together with the unread part of the blob. *)
Definition D (A : Type) : Type := State * list byte -> Res (A * (State * list byte)).

#[global] Instance D_ret : MRet D := fun _ a s => Ok (a, s).
#[global] Instance D_bind : MBind D := fun _ _ k m s =>
  match m s with
  | Ok (a, s') => k a s'
  | Err f => Err f
  end.

Definition on_state {A} (m : H A) : D A := fun '(s, blob) =>
  match m s with
  | Ok (a, s') => Ok (a, (s', blob))
  | Err f => Err f
  end.
Definition read (n : nat) : D (list byte) := fun '(s, blob) =>
  match blob_read n blob with
  | Ok (bs, rest) => Ok (bs, (s, rest))
  | Err f => Err f
  end.
Definition read_int : D Z := bs ← read 4; mret (decode_i32 bs).
Definition read_u32 : D Z := bs ← read 4; mret (le_value bs).
Definition read_bool : D bool := bs ← read 1; mret (negb (bool_decide (le_value bs = 0))).
Definition failD {A} (f : Fault) : D A := fun _ => Err f.

(** [bone->parent_joint->set...]: the joint has to be there. *)
Definition update_joint (bone : nat) (f : Joint -> Joint) : H unit :=
  b ← get_bone bone;
  j ← lift (of_option NullDeref (parent_joint b));
  set_parent_joint bone (Some (f j)).

Definition with_local_poses (p0 p1 : Transform) (j : Joint) : Joint :=
  mkJoint (actor0 j) (actor1 j) p0 p1 (params j).
Definition with_params (ps : JointParams) (j : Joint) : Joint :=
  mkJoint (actor0 j) (actor1 j) (local_pose0 j) (local_pose1 j) ps.

(** [joint->is<T>()] is null on a joint of another type. *)
Definition joint_is (bone : nat) (t : JointType) : H unit :=
  b ← get_bone bone;
  j ← lift (of_option NullDeref (parent_joint b));
  if decide (getConcreteType j = t) then mret tt else fail NullDeref.

Definition deserializeRagdollJoint (bone : nat) : D unit :=
  has_joint ← read_bool;
  if negb has_joint then mret tt
  else
    type ← read_int;
    on_state (changeRagdollBoneJoint joint_frames new_joint_params bone type);;
    p0 ← read sizeof_Transform;
    p1 ← read sizeof_Transform;
    on_state (update_joint bone (with_local_poses p0 p1));;
    match joint_type_of_code type with
    | Some eFIXED => mret tt
    | Some eDISTANCE =>
        on_state (joint_is bone eDISTANCE);;
        mn ← read sizeof_float;
        mx ← read sizeof_float;
        tol ← read sizeof_float;
        st ← read sizeof_float;
        dm ← read sizeof_float;
        fl ← read_u32;
        on_state (update_joint bone (with_params (DistanceParams mn mx tol st dm fl)))
    | Some eREVOLUTE =>
        on_state (joint_is bone eREVOLUTE);;
        limit ← read sizeof_limit;
        fl ← read_u32;
        on_state (update_joint bone (with_params (RevoluteParams limit fl)))
    | _ => failD AssertFailed
    end.

Definition read_geometry : D Geometry :=
  type ← read_int;
  if decide (type = CAPSULE) then
    halfHeight ← read sizeof_float;
    radius ← read sizeof_float;
    mret (CapsuleGeometry halfHeight radius)
  else if decide (type = BOX) then
    halfExtents ← read sizeof_PxVec3;
    mret (BoxGeometry halfExtents)
  else failD AssertFailed.

Fixpoint deserializeRagdollBone (fuel : nat) (par : option nat) : D (option nat) :=
  match fuel with
  | O => failD OutOfFuel
  | S fuel' =>
      idx ← read_int;
      if decide (idx < 0) then mret None
      else
        transform ← read sizeof_Transform;
        bind ← read sizeof_Transform;
        geom ← read_geometry;
        bone ← on_state (new_bone (mkBone idx (mkActor transform geom) None None None None
                                         par bind));
        c ← deserializeRagdollBone fuel' (Some bone);
        on_state (set_child bone c);;
        n ← deserializeRagdollBone fuel' par;
        on_state (set_next bone n);;
        on_state (set_prev_of n (Some bone));;
        deserializeRagdollJoint bone;;
        mret (Some bone)
  end.

(** [ragdoll.root = deserializeRagdollBone(nullptr, serializer)] into a
    scene without bones. *)
Definition deserializeRagdoll (blob : list byte) : Res (State * list byte) :=
  '(r, (s, rest)) ← deserializeRagdollBone (S (length blob)) None (empty_ragdoll, blob);
  Ok (mkState (bones s) r (next_free s), rest).

End Deserialization.

(** *** The tree a ragdoll stands for *)

(** A bone with what is stored for it: skeleton index, actor, bind
    transform, the joint to its parent (local poses and parameters), its
    children and its later siblings. *)
Inductive Tree : Type :=
  | Leaf
  | Bone (idx : Z) (a : Actor) (bind : Transform)
         (joint : option (Transform * Transform * JointParams))
         (children siblings : Tree).

Definition joint_at (pj : option Joint) (par : option nat) (a : nat)
    (j : option (Transform * Transform * JointParams)) : Prop :=
  match pj, j with
  | None, None => True
  | Some x, Some (p0, p1, ps) =>
      par = Some (actor0 x) ∧ actor1 x = a ∧
      local_pose0 x = p0 ∧ local_pose1 x = p1 ∧ params x = ps
  | _, _ => False
  end.

(** The heap holds [t] at [p]: the bones carry [t]'s data, [child] and
    [next] follow [t]'s shape, every bone's [parent] is the bone above and
    its [prev] the sibling before it, and a bone has a joint exactly where
    [t] has one, between its parent's actor and its own. *)
Fixpoint tree_at (h : gmap nat RagdollBone) (p par prv : option nat) (t : Tree) : Prop :=
  match t with
  | Leaf => p = None
  | Bone idx act bind j c n =>
      ∃ a b, p = Some a ∧ h !! a = Some b ∧
        pose_bone_idx b = idx ∧ actor b = act ∧ bind_transform b = bind ∧
        parent b = par ∧ prev b = prv ∧
        joint_at (parent_joint b) par a j ∧
        tree_at h (child b) (Some a) None c ∧
        tree_at h (next b) par (Some a) n
  end.

Fixpoint depth (t : Tree) : nat :=
  match t with
  | Leaf => 0
  | Bone _ _ _ _ c n => S (depth c `max` depth n)
  end.

Fixpoint bone_count (t : Tree) : nat :=
  match t with
  | Leaf => 0
  | Bone _ _ _ _ c n => S (bone_count c + bone_count n)
  end.

(** What the two serializers agree on: fixed and revolute joints, on bones
    that have a parent, and values of the sizes their types have. *)
Definition joint_supported (has_parent : bool)
    (j : option (Transform * Transform * JointParams)) : Prop :=
  match j with
  | None => True
  | Some (p0, p1, ps) =>
      has_parent = true ∧
      length p0 = sizeof_Transform ∧ length p1 = sizeof_Transform ∧
      match ps with
      | FixedParams => True
      | RevoluteParams limit flags => length limit = sizeof_limit ∧ 0 ≤ flags < 2 ^ 32
      | _ => False
      end
  end.

Definition geometry_sized (g : Geometry) : Prop :=
  match g with
  | BoxGeometry halfExtents => length halfExtents = sizeof_PxVec3
  | CapsuleGeometry halfHeight radius =>
      length halfHeight = sizeof_float ∧ length radius = sizeof_float
  end.

Fixpoint supported (has_parent : bool) (t : Tree) : Prop :=
  match t with
  | Leaf => True
  | Bone idx act bind j c n =>
      0 ≤ idx < 2 ^ 31 ∧
      length (global_pose act) = sizeof_Transform ∧
      length bind = sizeof_Transform ∧
      geometry_sized (geometry act) ∧
      joint_supported has_parent j ∧
      supported true c ∧ supported has_parent n
  end.

(** The bytes of a tree, read off the tree itself. *)
Definition tree_joint_bytes (j : option (Transform * Transform * JointParams)) : list byte :=
  match j with
  | None => write_bool false
  | Some (p0, p1, ps) =>
      write_bool true ++ encode_i32 (joint_type_code (params_type ps)) ++ p0 ++ p1 ++
      match ps with
      | FixedParams => []
      | RevoluteParams limit flags => limit ++ encode_u32 flags
      | DistanceParams mn mx tol st dm fl => mn ++ mx ++ tol ++ st ++ dm ++ encode_u32 fl
      | SphericalParams _ _ => []
      end
  end.

Fixpoint tree_bytes (t : Tree) : list byte :=
  match t with
  | Leaf => encode_i32 (-1)
  | Bone idx act bind j c n =>
      encode_i32 idx ++ global_pose act ++ bind ++ serialize_geometry (geometry act)
        ++ tree_bytes c ++ tree_bytes n ++ tree_joint_bytes j
  end.

(** Addresses as [deserializeRagdollBone] hands them out from [lo] on: a
    bone, then its children, then its later siblings. *)
Definition ptr_of (lo : nat) (t : Tree) : option nat :=
  match t with
  | Leaf => None
  | Bone _ _ _ _ _ _ => Some lo
  end.

Fixpoint laid_out (h : gmap nat RagdollBone) (lo : nat) (par prv : option nat) (t : Tree) : Prop :=
  match t with
  | Leaf => True
  | Bone idx act bind j c n =>
      ∃ b, h !! lo = Some b ∧
        pose_bone_idx b = idx ∧ actor b = act ∧ bind_transform b = bind ∧
        parent b = par ∧ prev b = prv ∧
        child b = ptr_of (S lo) c ∧ next b = ptr_of (S lo + bone_count c) n ∧
        joint_at (parent_joint b) par lo j ∧
        laid_out h (S lo) (Some lo) None c ∧
        laid_out h (S lo + bone_count c) par (Some lo) n
  end.

End Ragdoll.

(** ** Concrete ragdolls *)

Module RagdollExamples.
Import Ragdoll.

(** Stand-ins for the SDK's results, enough to tell the values apart. *)
Definition an_actor (idx : Z) : Actor :=
  mkActor (le_bytes sizeof_Transform idx)
          (CapsuleGeometry (le_bytes sizeof_float 1) (le_bytes sizeof_float 2)).
Definition a_bind_transform (idx : Z) : Transform := le_bytes sizeof_Transform (idx + 100).
Definition frames (a b : Actor) : Transform * Transform := (global_pose a, global_pose b).
Definition fresh_params (t : JointType) : JointParams :=
  match t with
  | eREVOLUTE => RevoluteParams (le_bytes sizeof_limit 0) 0
  | eSPHERICAL => SphericalParams (le_bytes sizeof_limit 0) 0
  | _ => FixedParams
  end.

Definition create (model : list Z) (idx : Z) : H nat :=
  createRagdollBone model an_actor a_bind_transform frames fresh_params idx.
Definition disconnect_bone : nat -> H unit := disconnect frames fresh_params.
Definition connect_bones : nat -> nat -> H unit := connect frames fresh_params.
Definition phy_parent (model : list Z) (idx : Z) : H (option nat) := getPhyParent model idx.

(** A chain of three bones, a root with two children, and a root whose only
    child has two children. *)
Definition spine : list Z := [-1; 0; 1].
Definition fork : list Z := [-1; 0; 0].
Definition limb : list Z := [-1; 0; 1; 1].

(** The links and the joint of the bone at an address. *)
Record Links : Type := mkLinks {
  l_parent : option nat;
  l_child : option nat;
  l_next : option nat;
  l_prev : option nat;
  l_joint : option (nat * nat * JointType)
}.

Definition links (s : State) (p : nat) : option Links :=
  b ← bones s !! p;
  Some (mkLinks (parent b) (child b) (next b) (prev b)
          ((λ j, (actor0 j, actor1 j, getConcreteType j)) <$> parent_joint b)).

End RagdollExamples.

(** ** [int] arithmetic *)

(** The value an [int] computation or the conversion [(int)x] leaves: two's
    complement on 32 bits. *)
Definition to_int (z : Z) : Z := (z + 2 ^ 31) mod 2 ^ 32 - 2 ^ 31.

(** * The byte streams handed to the physics SDK ([physics_scene.cpp]) *)

Module PhysxStream.

(** [copyMemory(dest, buf + at, n)]: the [n] bytes of [buf] from [at] on. *)
Definition read_bytes (buf : list byte) (at_ n : Z) : Res (list byte) :=
  if decide (0 ≤ at_ ∧ 0 ≤ n ∧ at_ + n ≤ Z.of_nat (length buf)) then
    Ok (take (Z.to_nat n) (drop (Z.to_nat at_) buf))
  else Err OutOfBounds.

Record OutputStream : Type := mkOutputStream {
  data : list byte;
  capacity : Z;
  size : Z
}.

Record InputStream : Type := mkInputStream {
  in_data : list byte;
  in_size : Z;
  in_pos : Z
}.

Section Streams.

(** [allocator.allocate(n)]: a block of [n] bytes, its content whatever the
    allocator leaves there. *)
Variable allocate : nat -> list byte.

(** The constructor. *)
Definition OutputStream_new : OutputStream :=
  mkOutputStream (allocate 4096) 4096 0.

(** [OutputStream::write(src, count)], [src] being the [count] bytes given;
    the result is the stream and the count returned. *)
Definition write (s : OutputStream) (src : list byte) : Res (OutputStream * Z) :=
  let count := Z.of_nat (length src) in
  s ← (if decide (to_int (size s + to_int count) > capacity s) then
         let new_capacity :=
           Z.max (to_int (size s + to_int count)) (to_int (capacity s + 4096)) in
         let new_data := allocate (Z.to_nat new_capacity) in
         old ← read_bytes (data s) 0 (size s);
         new_data ← write_bytes new_data 0 old;
         Ok (mkOutputStream new_data new_capacity (size s))
       else Ok s);
  d ← write_bytes (data s) (size s) src;
  Ok (mkOutputStream d (capacity s) (to_int (size s + count)), count).

(** A run of writes, one after the other. *)
Fixpoint write_all (s : OutputStream) (chunks : list (list byte)) : Res OutputStream :=
  match chunks with
  | [] => Ok s
  | c :: rest => '(s', _) ← write s c; write_all s' rest
  end.

End Streams.

(** The constructor [InputStream(data, size)]. *)
Definition InputStream_new (buf : list byte) (sz : Z) : InputStream :=
  mkInputStream buf sz 0.

(** [InputStream::read(dest, count)]: the bytes copied to [dest], the
    stream and the count returned. *)
Definition read (s : InputStream) (count : Z) : Res (list byte * InputStream * Z) :=
  if decide (to_int (in_pos s + to_int count) ≤ in_size s) then
    bs ← read_bytes (in_data s) (in_pos s) count;
    Ok (bs, mkInputStream (in_data s) (in_size s) (to_int (in_pos s + count)), count)
  else
    let real_count := to_int (in_size s - in_pos s) in
    bs ← read_bytes (in_data s) (in_pos s) real_count;
    Ok (bs, mkInputStream (in_data s) (in_size s) (in_size s), real_count).

(** A run of reads with the given counts: the blocks read. *)
Fixpoint read_all (s : InputStream) (counts : list Z) : Res (list (list byte) * InputStream) :=
  match counts with
  | [] => Ok ([], s)
  | c :: rest =>
      '(bs, s', _) ← read s c;
      '(more, s'') ← read_all s' rest;
      Ok (bs :: more, s'')
  end.

(** What a stream holds: the first [size] bytes of its buffer. *)
Definition written (s : OutputStream) : list byte := take (Z.to_nat (size s)) (data s).

(** The buffer is [capacity] long, holds [size] bytes and never has more
    than 4096 bytes to spare. *)
Definition stream_ok (s : OutputStream) : Prop :=
  0 ≤ size s ≤ capacity s ∧ Z.of_nat (length (data s)) = capacity s ∧
  4096 ≤ capacity s ≤ size s + 4096.

Definition input_ok (s : InputStream) : Prop :=
  0 ≤ in_pos s ≤ in_size s ∧ in_size s ≤ Z.of_nat (length (in_data s)) ∧
  in_size s < 2 ^ 31.

(** An allocator that hands out blocks filled with [xcd], and a run of
    three writes of which the second outgrows the first block. *)
Definition allocate_cd (n : nat) : list byte := replicate n xcd.
Definition three_chunks : list (list byte) :=
  [[x01; x02; x03]; replicate 5000 x07; [x0a]].

End PhysxStream.

(** * The physics scene: collision layers, controllers, queued forces
    ([physics_scene.cpp]) *)

Module Physics.

(** [physx::PxFilterData]: four 32-bit words, all zero when default
    constructed. *)
Record FilterData : Type := mkFilterData {
  word0 : Z;
  word1 : Z;
  word2 : Z;
  word3 : Z
}.

#[global] Instance FilterData_eq_dec : EqDecision FilterData.
Proof. solve_decision. Defined.

(** What the scene reads and writes of a [physx::PxRigidActor]: the
    simulation filter data of its shapes, in [getShapes] order. *)
Definition PxActor := list FilterData.

Definition Vec3 : Type := Z * Z * Z.

(** [PhysicsSceneImpl::RigidActor], without its resource and shape type. *)
Record RigidActor : Type := mkRigidActor {
  entity : Z;
  layer : Z;
  is_dynamic : bool;
  physx_actor : option PxActor
}.

(** [PhysicsSceneImpl::Controller]; [m_controller] stands for
    [m_controller->getActor()], which a [PxController] always has. *)
Record Controller : Type := mkController {
  m_controller : PxActor;
  m_entity : Z;
  m_frame_change : Vec3;
  m_radius : Z;
  m_height : Z;
  m_is_free : bool;
  m_layer : Z
}.

Module Heightfield.
Record t : Type := mk {
  m_entity : Z;
  m_actor : option PxActor;
  m_layer : Z
}.
End Heightfield.

Record QueuedForce : Type := mkQueuedForce {
  cmp : Z;
  force : Vec3
}.

Inductive Message : Type :=
  | ForceOnStatic.   (* "Trying to apply force to static object" *)

(** The members of [PhysicsSceneImpl] the functions below use.  [m_actors]
    is the [AssociativeArray] in [at(i)] order, one pair per key;
    [m_dynamic_actors] holds the keys of the actors it points to;
    [px_forces] records the [addForce] calls PhysX received, oldest first,
    each with the entity of the actor it was made on. *)
Record Scene : Type := mkScene {
  m_actors : list (Z * RigidActor);
  m_dynamic_actors : list Z;
  m_queued_forces : list QueuedForce;
  m_controllers : list Controller;
  m_terrains : list (option Heightfield.t);
  m_collision_filter : list Z;
  m_layers_count : Z;
  m_log : list Message;
  px_forces : list (Z * Vec3)
}.

Definition with_actors (l : list (Z * RigidActor)) (s : Scene) : Scene :=
  mkScene l (m_dynamic_actors s) (m_queued_forces s) (m_controllers s) (m_terrains s)
          (m_collision_filter s) (m_layers_count s) (m_log s) (px_forces s).
Definition with_controllers (l : list Controller) (s : Scene) : Scene :=
  mkScene (m_actors s) (m_dynamic_actors s) (m_queued_forces s) l (m_terrains s)
          (m_collision_filter s) (m_layers_count s) (m_log s) (px_forces s).
Definition with_terrains (l : list (option Heightfield.t)) (s : Scene) : Scene :=
  mkScene (m_actors s) (m_dynamic_actors s) (m_queued_forces s) (m_controllers s) l
          (m_collision_filter s) (m_layers_count s) (m_log s) (px_forces s).
Definition with_collision_filter (l : list Z) (s : Scene) : Scene :=
  mkScene (m_actors s) (m_dynamic_actors s) (m_queued_forces s) (m_controllers s)
          (m_terrains s) l (m_layers_count s) (m_log s) (px_forces s).
Definition with_layers_count (n : Z) (s : Scene) : Scene :=
  mkScene (m_actors s) (m_dynamic_actors s) (m_queued_forces s) (m_controllers s)
          (m_terrains s) (m_collision_filter s) n (m_log s) (px_forces s).
Definition with_queued_forces (l : list QueuedForce) (s : Scene) : Scene :=
  mkScene (m_actors s) (m_dynamic_actors s) l (m_controllers s)
          (m_terrains s) (m_collision_filter s) (m_layers_count s) (m_log s) (px_forces s).

Definition set_layer (l : Z) (a : RigidActor) : RigidActor :=
  mkRigidActor (entity a) l (is_dynamic a) (physx_actor a).
Definition set_physx_actor (p : option PxActor) (a : RigidActor) : RigidActor :=
  mkRigidActor (entity a) (layer a) (is_dynamic a) p.
Definition set_m_controller (p : PxActor) (c : Controller) : Controller :=
  mkController p (m_entity c) (m_frame_change c) (m_radius c) (m_height c)
               (m_is_free c) (m_layer c).
Definition set_m_layer (l : Z) (c : Controller) : Controller :=
  mkController (m_controller c) (m_entity c) (m_frame_change c) (m_radius c) (m_height c)
               (m_is_free c) l.
Definition set_m_is_free (b : bool) (c : Controller) : Controller :=
  mkController (m_controller c) (m_entity c) (m_frame_change c) (m_radius c) (m_height c)
               b (m_layer c).

(** The layer names are a [char[32][30]], the filter a [uint32[32]]. *)
Definition layers_capacity : Z := 32.

(** [1 << layer] on an [int], converted to [uint32].  A shift count outside
    0..31 is undefined; every use sits next to [m_collision_filter[layer]],
    so it is reported as that out-of-range index. *)
Definition bit (l : Z) : Res Z :=
  if decide (0 ≤ l < 32) then Ok (Z.shiftl 1 l) else Err OutOfBounds.

(** [~x] on 32 bits. *)
Definition u32_not (x : Z) : Z := Z.lnot x mod 2 ^ 32.

(** [array[i] = v] on a C array. *)
Definition array_set {A} (l : list A) (i : Z) (v : A) : Res (list A) :=
  if decide (0 ≤ i < Z.of_nat (length l)) then Ok (<[Z.to_nat i := v]> l)
  else Err OutOfBounds.

(** [m_actors[key]]. *)
Fixpoint find_actor (key : Z) (l : list (Z * RigidActor)) : Res RigidActor :=
  match l with
  | [] => Err NoSuchComponent
  | (k, a) :: rest => if decide (k = key) then Ok a else find_actor key rest
  end.

(** Writing through the pointer [m_actors[key]] returned. *)
Fixpoint store_actor (key : Z) (a : RigidActor) (l : list (Z * RigidActor))
  : list (Z * RigidActor) :=
  match l with
  | [] => []
  | (k, b) :: rest =>
      if decide (k = key) then (k, a) :: rest else (k, b) :: store_actor key a rest
  end.

Fixpoint traverse {A B} (f : A → Res B) (l : list A) : Res (list B) :=
  match l with
  | [] => Ok []
  | x :: rest => y ← f x; ys ← traverse f rest; Ok (y :: ys)
  end.

(** The [data] the scene builds for an object on [layer]. *)
Definition filter_data (filter : list Z) (l : Z) : Res FilterData :=
  w0 ← bit l;
  w1 ← array_get filter l;
  Ok (mkFilterData w0 w1 0 0).

(** [getShapes(shapes, 8)] followed by [setSimulationFilterData] on each
    shape returned: at most the first eight. *)
Definition set_shapes (data : FilterData) (a : PxActor) : PxActor :=
  ((λ _, data) <$> take 8 a) ++ drop 8 a.

(** [updateFilterData(actor, layer)]. *)
Definition updateFilterData_actor (s : Scene) (actor : option PxActor) (l : Z)
  : Res PxActor :=
  data ← filter_data (m_collision_filter s) l;
  shapes ← of_option NullDeref actor;
  Ok (set_shapes data shapes).

Definition sync_actor (filter : list Z) (ka : Z * RigidActor) : Res (Z * RigidActor) :=
  data ← filter_data filter (layer ka.2);
  shapes ← of_option NullDeref (physx_actor ka.2);
  Ok (ka.1, set_physx_actor (Some (set_shapes data shapes)) ka.2).

Definition sync_controller (filter : list Z) (c : Controller) : Res Controller :=
  if m_is_free c then Ok c
  else
    data ← filter_data filter (m_layer c);
    Ok (set_m_controller (set_shapes data (m_controller c)) c).

Definition sync_terrain (filter : list Z) (t : option Heightfield.t)
  : Res (option Heightfield.t) :=
  match t with
  | None => Ok None
  | Some t =>
      match Heightfield.m_actor t with
      | None => Ok (Some t)
      | Some a =>
          data ← filter_data filter (Heightfield.m_layer t);
          Ok (Some (Heightfield.mk (Heightfield.m_entity t)
                                   (Some (set_shapes data a)) (Heightfield.m_layer t)))
      end
  end.

(** [updateFilterData()]. *)
Definition updateFilterData (s : Scene) : Res Scene :=
  actors ← traverse (sync_actor (m_collision_filter s)) (m_actors s);
  controllers ← traverse (sync_controller (m_collision_filter s)) (m_controllers s);
  terrains ← traverse (sync_terrain (m_collision_filter s)) (m_terrains s);
  Ok (with_terrains terrains (with_controllers controllers (with_actors actors s))).

Definition canLayersCollide (layer1 layer2 : Z) (s : Scene) : Res bool :=
  f ← array_get (m_collision_filter s) layer1;
  b ← bit layer2;
  Ok (negb (Z.land f b =? 0)).

Definition setLayersCanCollide (layer1 layer2 : Z) (can_collide : bool) (s : Scene)
  : Res Scene :=
  let op (f b : Z) := if can_collide then Z.lor f b else Z.land f (u32_not b) in
  f1 ← array_get (m_collision_filter s) layer1;
  b2 ← bit layer2;
  filter1 ← array_set (m_collision_filter s) layer1 (op f1 b2);
  f2 ← array_get filter1 layer2;
  b1 ← bit layer1;
  filter2 ← array_set filter1 layer2 (op f2 b1);
  updateFilterData (with_collision_filter filter2 s).

Definition addCollisionLayer (s : Scene) : Scene :=
  with_layers_count (Z.min layers_capacity (m_layers_count s + 1)) s.

Definition removeCollisionLayer (s : Scene) : Res Scene :=
  let count := Z.max 0 (m_layers_count s - 1) in
  let actors :=
    (λ ka : Z * RigidActor, (ka.1, set_layer (Z.min (count - 1) (layer ka.2)) ka.2))
      <$> m_actors s in
  let controllers :=
    (λ c, if m_is_free c then c else set_m_layer (Z.min (count - 1) (m_layer c)) c)
      <$> m_controllers s in
  let terrains :=
    (λ t : option Heightfield.t,
       match t with
       | None => None
       | Some t =>
           match Heightfield.m_actor t with
           | None => Some t
           | Some _ =>
               Some (Heightfield.mk (Heightfield.m_entity t) (Heightfield.m_actor t)
                                    (Z.min (count - 1) (Heightfield.m_layer t)))
           end
       end) <$> m_terrains s in
  updateFilterData
    (with_terrains terrains
       (with_controllers controllers (with_actors actors (with_layers_count count s)))).

Definition getCollisionsLayersCount (s : Scene) : Z := m_layers_count s.

Definition assert (b : bool) : Res unit := if b then Ok () else Err AssertFailed.

Definition getActorLayer (cmp : Z) (s : Scene) : Res Z :=
  actor ← find_actor cmp (m_actors s); Ok (layer actor).

Definition setActorLayer (cmp l : Z) (s : Scene) : Res Scene :=
  _ ← assert (bool_decide (l < layers_capacity));
  actor ← find_actor cmp (m_actors s);
  shapes ← updateFilterData_actor s (physx_actor actor) l;
  Ok (with_actors
        (store_actor cmp (set_physx_actor (Some shapes) (set_layer l actor)) (m_actors s)) s).

Definition getControllerLayer (cmp : Z) (s : Scene) : Res Z :=
  c ← array_get (m_controllers s) cmp; Ok (m_layer c).

Definition setControllerLayer (cmp l : Z) (s : Scene) : Res Scene :=
  _ ← assert (bool_decide (l < layers_capacity));
  c ← array_get (m_controllers s) cmp;
  data ← filter_data (m_collision_filter s) l;
  controllers ← array_set (m_controllers s) cmp
    (set_m_controller (set_shapes data (m_controller c)) (set_m_layer l c));
  Ok (with_controllers controllers s).

Definition getHeightfieldLayer (cmp : Z) (s : Scene) : Res Z :=
  t ← array_get (m_terrains s) cmp;
  t ← of_option NullDeref t;
  Ok (Heightfield.m_layer t).

Definition setHeightfieldLayer (cmp l : Z) (s : Scene) : Res Scene :=
  _ ← assert (bool_decide (l < layers_capacity));
  t ← array_get (m_terrains s) cmp;
  t ← of_option NullDeref t;
  actor ← match Heightfield.m_actor t with
          | None => Ok None
          | Some a =>
              data ← filter_data (m_collision_filter s) l;
              Ok (Some (set_shapes data a))
          end;
  terrains ← array_set (m_terrains s) cmp
    (Some (Heightfield.mk (Heightfield.m_entity t) actor l));
  Ok (with_terrains terrains s).

(** ** The simulation filter *)

Inductive FilterFlag : Type := eDEFAULT | eKILL.

Inductive PairFlags : Type :=
  | eTRIGGER_DEFAULT
  | eCONTACT_NOTIFY.  (* eCONTACT_DEFAULT | eNOTIFY_TOUCH_FOUND | eNOTIFY_CONTACT_POINTS *)

(** [filterShader]; [trigger0] and [trigger1] stand for
    [PxFilterObjectIsTrigger] of the two attributes, [pairFlags] is the
    in-out parameter. *)
Definition filterShader (trigger0 : bool) (filterData0 : FilterData)
    (trigger1 : bool) (filterData1 : FilterData) (pairFlags : PairFlags)
  : FilterFlag * PairFlags :=
  if trigger0 || trigger1 then (eDEFAULT, eTRIGGER_DEFAULT)
  else if (Z.land (word0 filterData0) (word1 filterData1) =? 0)
          || (Z.land (word0 filterData1) (word1 filterData0) =? 0)
  then (eKILL, pairFlags)
  else (eDEFAULT, eCONTACT_NOTIFY).

(** ** Character controllers *)

(** [INVALID_COMPONENT] and [INVALID_ENTITY] are the handles of index -1. *)
Definition INVALID_COMPONENT : Z := -1.

Section Controllers.

(** The actor of the controller [m_controller_manager->createController]
    returns for an entity; the creation is taken to succeed. *)
Variable new_controller : Z → PxActor.

(** 0.25f and 1.8f *)
Definition default_radius : Z := 1048576000.
Definition default_height : Z := 1072064102.


End Controllers.

Definition createHeightfield (e : Z) (s : Scene) : Z * Scene :=
  let terrains := m_terrains s ++ [Some (Heightfield.mk e None 0)] in
  (Z.of_nat (length terrains) - 1, with_terrains terrains s).

(** [destroyComponent(cmp, CONTROLLER_TYPE)]. *)
Definition destroyController (cmp : Z) (s : Scene) : Res Scene :=
  c ← array_get (m_controllers s) cmp;
  controllers ← array_set (m_controllers s) cmp (set_m_is_free true c);
  Ok (with_controllers controllers s).

(** [destroyComponent(cmp, HEIGHTFIELD_TYPE)]. *)
Definition destroyHeightfield (cmp : Z) (s : Scene) : Res Scene :=
  t ← array_get (m_terrains s) cmp;
  _ ← of_option NullDeref t;
  terrains ← array_set (m_terrains s) cmp None;
  Ok (with_terrains terrains s).

(** The loop of [getComponent(entity, CONTROLLER_TYPE)], from index [i]. *)
Fixpoint getComponent_controller_from (i : Z) (e : Z) (l : list Controller) : Z :=
  match l with
  | [] => INVALID_COMPONENT
  | c :: rest =>
      if negb (m_is_free c) && bool_decide (m_entity c = e) then i
      else getComponent_controller_from (i + 1) e rest
  end.

Definition getComponent_controller (e : Z) (s : Scene) : Z :=
  getComponent_controller_from 0 e (m_controllers s).

(** The loop of [getComponent(entity, HEIGHTFIELD_TYPE)]. *)
Fixpoint getComponent_heightfield_from (i : Z) (e : Z) (l : list (option Heightfield.t)) : Z :=
  match l with
  | [] => INVALID_COMPONENT
  | t :: rest =>
      match t with
      | Some t' =>
          if bool_decide (Heightfield.m_entity t' = e) then i
          else getComponent_heightfield_from (i + 1) e rest
      | None => getComponent_heightfield_from (i + 1) e rest
      end
  end.

Definition getComponent_heightfield (e : Z) (s : Scene) : Z :=
  getComponent_heightfield_from 0 e (m_terrains s).

(** The loop of [getController(entity)]. *)
Fixpoint getController_from (i : Z) (e : Z) (l : list Controller) : Z :=
  match l with
  | [] => INVALID_COMPONENT
  | c :: rest =>
      if bool_decide (m_entity c = e) then i else getController_from (i + 1) e rest
  end.

Definition getController (e : Z) (s : Scene) : Z :=
  getController_from 0 e (m_controllers s).

(** ** Rigid actors *)

Definition INVALID_ENTITY : Z := -1.

Definition set_entity (e : Z) (a : RigidActor) : RigidActor :=
  mkRigidActor e (layer a) (is_dynamic a) (physx_actor a).

(** [RigidActor::setPhysxActor] on the actor [a]: the PhysX actor is
    replaced, and the shapes of a new one get the filter data of the
    actor's layer. *)
Definition setPhysxActor (s : Scene) (actor : option PxActor) (a : RigidActor)
  : Res RigidActor :=
  match actor with
  | None => Ok (set_physx_actor None a)
  | Some _ =>
      shapes ← updateFilterData_actor s actor (layer a);
      Ok (set_physx_actor (Some shapes) a)
  end.

Section Actors.

(** [AssociativeArray::insert] is declared in [core/associative_array.h],
    outside the sources; the scene only relies on what the hypotheses of
    the theorems about it say. *)
Variable insert : Z → RigidActor → list (Z * RigidActor) → list (Z * RigidActor).

(** What [PxCreateStatic] returns for the unit box of an entity: an actor,
    or null. *)
Variable new_static_actor : Z → option PxActor.

(** [m_actors] holds the pointer the function allocated, so the array
    shows the actor as the writes through that pointer leave it, wherever
    [insert] put it: the model builds the actor first and inserts it
    then. *)
Definition createBoxRigidActor (e : Z) (s : Scene) : Res (Z * Scene) :=
  let actor := mkRigidActor INVALID_ENTITY 0 false None in
  let actor := set_entity e actor in
  actor ← setPhysxActor s (new_static_actor e) actor;
  let s := with_actors (insert e actor (m_actors s)) s in
  Ok (Z.of_nat (length (m_actors s)) - 1, s).

End Actors.

(** ** Queued forces *)

Definition applyForceToActor (c : Z) (f : Vec3) (s : Scene) : Scene :=
  with_queued_forces (m_queued_forces s ++ [mkQueuedForce c f]) s.

Definition log_message (m : Message) (s : Scene) : Scene :=
  mkScene (m_actors s) (m_dynamic_actors s) (m_queued_forces s) (m_controllers s)
          (m_terrains s) (m_collision_filter s) (m_layers_count s) (m_log s ++ [m])
          (px_forces s).

Definition addForce (e : Z) (f : Vec3) (s : Scene) : Scene :=
  mkScene (m_actors s) (m_dynamic_actors s) (m_queued_forces s) (m_controllers s)
          (m_terrains s) (m_collision_filter s) (m_layers_count s) (m_log s)
          (px_forces s ++ [(e, f)]).

(** The loop of [applyQueuedForces] over the entries still to visit; [true]
    when the loop ran to its end, [false] when it left through a [return]. *)
Fixpoint applyQueuedForces_loop (q : list QueuedForce) (s : Scene) : Res (bool * Scene) :=
  match q with
  | [] => Ok (true, s)
  | i :: rest =>
      actor ← find_actor (cmp i) (m_actors s);
      if negb (is_dynamic actor) then Ok (false, log_message ForceOnStatic s)
      else
        match physx_actor actor with
        | None => Ok (false, s)
        | Some _ => applyQueuedForces_loop rest (addForce (entity actor) (force i) s)
        end
  end.

Definition applyQueuedForces (s : Scene) : Res Scene :=
  '(finished, s') ← applyQueuedForces_loop (m_queued_forces s) s;
  Ok (if finished : bool then with_queued_forces [] s' else s').

(** ** Well-formed scenes *)

Definition layer_ok (l : Z) : Prop := 0 ≤ l < layers_capacity.

Definition actor_ok (ka : Z * RigidActor) : Prop :=
  layer_ok (layer ka.2) ∧ is_Some (physx_actor ka.2).

Definition controller_ok (c : Controller) : Prop :=
  m_is_free c = false → layer_ok (m_layer c).

Definition terrain_ok (t : option Heightfield.t) : Prop :=
  ∀ t', t = Some t' → is_Some (Heightfield.m_actor t') → layer_ok (Heightfield.m_layer t').

Definition scene_ok (s : Scene) : Prop :=
  length (m_collision_filter s) = 32%nat ∧
  Forall actor_ok (m_actors s) ∧
  Forall controller_ok (m_controllers s) ∧
  Forall terrain_ok (m_terrains s).

(** The first eight shapes of [a] carry the filter data of [l]. *)
Definition shapes_in_sync (filter : list Z) (l : Z) (a : PxActor) : Prop :=
  ∃ data, filter_data filter l = Ok data ∧ Forall (λ d, d = data) (take 8 a).

Definition actor_in_sync (filter : list Z) (ka : Z * RigidActor) : Prop :=
  ∃ a, physx_actor ka.2 = Some a ∧ shapes_in_sync filter (layer ka.2) a.

Definition controller_in_sync (filter : list Z) (c : Controller) : Prop :=
  m_is_free c = false → shapes_in_sync filter (m_layer c) (m_controller c).

Definition terrain_in_sync (filter : list Z) (t : option Heightfield.t) : Prop :=
  ∀ t' a, t = Some t' → Heightfield.m_actor t' = Some a →
    shapes_in_sync filter (Heightfield.m_layer t') a.

Definition in_sync (s : Scene) : Prop :=
  Forall (actor_in_sync (m_collision_filter s)) (m_actors s) ∧
  Forall (controller_in_sync (m_collision_filter s)) (m_controllers s) ∧
  Forall (terrain_in_sync (m_collision_filter s)) (m_terrains s).

(** The filter read as a relation: bit [b] of word [a]. *)
Definition collide (filter : list Z) (a b : Z) : bool :=
  Z.testbit (default 0 (filter !! Z.to_nat a)) b.

(** The queue entry [q] addresses a dynamic actor of entity [e] that has a
    PhysX actor. *)
Definition dynamic_target (s : Scene) (q : QueuedForce) (e : Z) : Prop :=
  ∃ a, find_actor (cmp q) (m_actors s) = Ok a ∧ is_dynamic a = true ∧
       is_Some (physx_actor a) ∧ entity a = e.

Definition add_forces (fs : list (Z * Vec3)) (s : Scene) : Scene :=
  mkScene (m_actors s) (m_dynamic_actors s) (m_queued_forces s) (m_controllers s)
          (m_terrains s) (m_collision_filter s) (m_layers_count s) (m_log s)
          (px_forces s ++ fs).

(** The filter as a relation on layers, and its symmetry. *)
Definition symmetric (s : Scene) : Prop :=
  ∀ a b, layer_ok a → layer_ok b → canLayersCollide a b s = canLayersCollide b a s.

(** The members the constructor sets: two layers, every pair colliding. *)
Definition new_scene : Scene :=
  mkScene [] [] [] [] [] (replicate 32 (2 ^ 32 - 1)) 2 [] [].

End Physics.

Module PhysicsExamples.
Import Physics.

Definition one_shape : PxActor := [mkFilterData 0 0 0 0].
Definition nine_shapes : PxActor := replicate 9 (mkFilterData 0 0 0 0).

(** A scene with a static box on layer 0, a dynamic box on layer 1, a
    controller and a terrain, all of them in step with the filter. *)
Definition box0 : RigidActor := mkRigidActor 10 0 false (Some one_shape).
Definition box1 : RigidActor := mkRigidActor 11 1 true (Some nine_shapes).
Definition a_scene : Scene :=
  mkScene [(10, box0); (11, box1)] [11] []
          [mkController one_shape 20 (0, 0, 0) default_radius default_height false 1]
          [Some (Heightfield.mk 30 (Some one_shape) 0); None]
          (replicate 32 (2 ^ 32 - 1)) 2 [] [].

(** A mesh actor whose geometry has not loaded has no PhysX actor yet. *)
Definition mesh : RigidActor := mkRigidActor 12 0 false None.

Definition up : Vec3 := (0, 1065353216, 0).
Definition down : Vec3 := (0, 3212836864, 0).

Definition or_else (r : Res Scene) (s : Scene) : Scene :=
  match r with Ok s' => s' | Err _ => s end.

(** [a_scene] after layers 0 and 1 were set apart, and after a refresh of
    the filter data. *)
Definition apart : Scene :=
  Eval vm_compute in or_else (setLayersCanCollide 0 1 false a_scene) a_scene.
Definition refreshed : Scene :=
  Eval vm_compute in or_else (updateFilterData a_scene) a_scene.

Definition one_layer : Scene := with_layers_count 1 a_scene.

(** An [insert] that appends, and a unit box of one shape. *)
Definition insert_last (k : Z) (a : RigidActor) (l : list (Z * RigidActor))
  : list (Z * RigidActor) := l ++ [(k, a)].
Definition unit_box (e : Z) : option PxActor := Some one_shape.
Definition with_mesh : Scene := with_actors [(10, box0); (12, mesh)] a_scene.

(** A force on the dynamic box followed by one on the static box. *)
Definition queued : Scene :=
  applyForceToActor 10 down (applyForceToActor 11 up a_scene).
(** Forces on the dynamic box only. *)
Definition queued_dynamic : Scene :=
  applyForceToActor 11 down (applyForceToActor 11 up a_scene).
(** A force on the dynamic box, then one on a dynamic mesh actor that is
    still loading. *)
Definition queued_loading : Scene :=
  applyForceToActor 12 down
    (applyForceToActor 11 up
       (with_actors [(11, box1); (12, mkRigidActor 12 0 true None)] a_scene)).

End PhysicsExamples.

(** * The animable jobs and the script-facing controller API
    ([animation_scene.cpp]) *)

Module Animables.

(** [lengthOf(jobs)] *)
Definition jobs_capacity : Z := 16.

(** The indices the job [i] of [job_count] passes to [m_animables.at]: the
    body of the lambda.  [int] division truncates, products and sums
    wrap. *)
Definition job_indices (all_count job_count i : Z) : list Z :=
  let batch_count := all_count ÷ job_count in
  let batch_count :=
    if decide (i = job_count - 1)
    then to_int (all_count - to_int ((job_count - 1) * batch_count))
    else batch_count in
  (λ j, to_int (j + to_int (i * all_count) ÷ job_count)) <$> seqZ 0 batch_count.

Section Jobs.

Context {Animable : Type}.

(** [updateAnimable(animable, time_delta)] for the frame's [time_delta] and
    render scene: it writes to the animable it is given only. *)
Variable updateAnimable : Animable → Animable.

(** [updateAnimable(m_animables.at(idx), time_delta)] *)
Definition update_at (animables : list Animable) (idx : Z) : Res (list Animable) :=
  a ← array_get animables idx;
  Ok (<[Z.to_nat idx := updateAnimable a]> animables).

Fixpoint run_job (indices : list Z) (animables : list Animable) : Res (list Animable) :=
  match indices with
  | [] => Ok animables
  | idx :: rest => animables ← update_at animables idx; run_job rest animables
  end.

Fixpoint run_jobs (jobs : list (list Z)) (animables : list Animable) : Res (list Animable) :=
  match jobs with
  | [] => Ok animables
  | job :: rest => animables ← run_job job animables; run_jobs rest animables
  end.

(** [updateAnimables].  The source hands the jobs to the job system and
    waits for all of them; they are run here in the order of their
    index. *)
Definition updateAnimables (animables : list Animable) : Res (list Animable) :=
  let all_count := to_int (Z.of_nat (length animables)) in
  if decide (all_count = 0) then Ok animables
  else
    let job_count := Z.min jobs_capacity all_count in
    if decide (job_count > 0) then
      run_jobs (job_indices all_count job_count <$> seqZ 0 job_count) animables
    else Err AssertFailed.

End Jobs.

End Animables.

Module AnimationApi.
Import Animation.

Section Api.

Context {Node : Type}.

Definition with_default_set (c : @Controller Node) (d : Z) : Controller :=
  mkController (entity c) (resource c) (root c) d (input c)
               (animations c) (inverse_kinematics c).

(** The loop of [getControllerInputIndex], from slot [i] on. *)
Fixpoint input_index_from (i : Z) (name : nat) (slots : list Input) : Z :=
  match slots with
  | [] => -1
  | slot :: rest =>
      if bool_decide (in_type slot ≠ EMPTY) && bool_decide (in_name slot = name) then i
      else input_index_from (i + 1) name rest
  end.

Definition getControllerInputIndex (cmp : Z) (name : nat) : @M Node Z :=
  controller ← get_controller cmp;
  res ← deref_resource controller;
  mret (input_index_from 0 name (inputs (m_input_decl res))).

(** The three overloads of [setControllerInput]. *)
Definition setControllerInput_float (cmp : Z) (input_idx : Z) (value : float) : @M Node unit :=
  ctrl ← get_controller cmp;
  match root ctrl with
  | None => mret tt
  | Some _ =>
      res ← deref_resource ctrl;
      let decl := m_input_decl res in
      if bool_decide (Z.of_nat (length (inputs decl)) ≤ input_idx) then mret tt
      else
        slot ← lift (array_get (inputs decl) input_idx);
        if bool_decide (in_type slot ≠ FLOAT) then mret tt
        else store_input cmp ctrl (in_offset slot) (float_bytes value)
  end.

Definition setControllerInput_bool (cmp : Z) (input_idx : Z) (value : bool) : @M Node unit :=
  ctrl ← get_controller cmp;
  match root ctrl with
  | None => mret tt
  | Some _ =>
      res ← deref_resource ctrl;
      let decl := m_input_decl res in
      if bool_decide (Z.of_nat (length (inputs decl)) ≤ input_idx) then mret tt
      else
        slot ← lift (array_get (inputs decl) input_idx);
        if bool_decide (in_type slot ≠ BOOL) then mret tt
        else store_input cmp ctrl (in_offset slot) [if value then x01 else x00]
  end.

Definition setControllerInput_int (cmp : Z) (input_idx : Z) (value : Z) : @M Node unit :=
  ctrl ← get_controller cmp;
  match root ctrl with
  | None => mret tt
  | Some _ =>
      res ← deref_resource ctrl;
      let decl := m_input_decl res in
      if bool_decide (Z.of_nat (length (inputs decl)) ≤ input_idx) then mret tt
      else
        slot ← lift (array_get (inputs decl) input_idx);
        if bool_decide (in_type slot ≠ INT) then mret tt
        else store_input cmp ctrl (in_offset slot) (encode_i32 value)
  end.

(** [m_sets_names.find(pred)] with the predicate [crc32(val) == hash]: the
    first index whose name has the hash, -1 when there is none. *)
Fixpoint find_set_from (i : Z) (hash : Z) (names : list Z) : Z :=
  match names with
  | [] => -1
  | h :: rest => if decide (h = hash) then i else find_set_from (i + 1) hash rest
  end.

Definition setControllerDefaultSet (cmp : Z) (set : Z) : @M Node unit :=
  ctrl ← get_controller cmp;
  match resource ctrl with
  | Some _ =>
      res ← deref_resource ctrl;
      h ← lift (array_get (m_sets_names res) set);
      put_controller cmp (with_default_set ctrl h)
  | None => put_controller cmp (with_default_set ctrl 0)
  end.

Definition getControllerDefaultSet (cmp : Z) : @M Node Z :=
  ctrl ← get_controller cmp;
  idx ← match resource ctrl with
        | Some _ =>
            res ← deref_resource ctrl;
            mret (find_set_from 0 (default_set ctrl) (m_sets_names res))
        | None => mret 0
        end;
  mret (if idx <? 0 then 0 else idx).

End Api.

End AnimationApi.

Module AnimationApiExamples.
Import Animation AnimationExamples.

Definition tick (t : Z) : Z := t + 1.

(** A resource with three animation sets and the slots of [three_slots]. *)
Definition three_sets : ControllerResource :=
  mkResource true (three_slots 9) [111; 222; 333] [].

Definition a_set_scene : @Scene nat :=
  mkScene {[ 1 := a_controller (Some 4%nat) zeros ]} {[ 0%nat := three_sets ]}
          (mkRender (λ _, true) (λ _, true)) [] [] [].

End AnimationApiExamples.

(** * Ragdoll trees: what a search and the writer meet *)

Module RagdollTrees.
Import Ragdoll.

(** The skeleton indices of a tree in the order [getBone] visits them. *)
Fixpoint tree_indices (t : Tree) : list Z :=
  match t with
  | Leaf => []
  | Bone idx _ _ _ c n => idx :: tree_indices c ++ tree_indices n
  end.

Definition spherical (j : option (Transform * Transform * JointParams)) : bool :=
  match j with
  | Some (_, _, SphericalParams _ _) => true
  | _ => false
  end.

Fixpoint has_spherical (t : Tree) : bool :=
  match t with
  | Leaf => false
  | Bone _ _ _ j c n => spherical j || has_spherical c || has_spherical n
  end.

(** [k] is a proper ancestor of the skeleton bone [j] in [model]. *)
Inductive ancestor (model : list Z) : Z → Z → Prop :=
  | ancestor_parent j p :
      array_get model j = Ok p → 0 ≤ p → ancestor model j p
  | ancestor_step j p k :
      array_get model j = Ok p → 0 ≤ p → ancestor model p k → ancestor model j k.

End RagdollTrees.

Module RagdollTreeExamples.
Import Ragdoll RagdollExamples.

(** The ragdoll of the first two bones of [spine], as a heap and as a
    tree. *)
Definition chain_state : State :=
  mkState
    {[ 0%nat := mkBone 0 (an_actor 0) None (Some 1%nat) None None None (a_bind_transform 0);
       1%nat := mkBone 1 (an_actor 1)
                  (Some (mkJoint 0 1 (global_pose (an_actor 0)) (global_pose (an_actor 1))
                                 (fresh_params eREVOLUTE)))
                  None None None (Some 0%nat) (a_bind_transform 1) ]}
    (Some 0%nat) 2.

Definition chain_tree : Tree :=
  Bone 0 (an_actor 0) (a_bind_transform 0) None
    (Bone 1 (an_actor 1) (a_bind_transform 1)
       (Some (global_pose (an_actor 0), global_pose (an_actor 1), fresh_params eREVOLUTE))
       Leaf Leaf)
    Leaf.

End RagdollTreeExamples.

(** * Properties *)

(** ** Byte layout *)

Lemma Z_of_byte_of_Z (z : Z) : Z_of_byte (byte_of_Z z) = z mod 256.
Proof.
  unfold Z_of_byte, byte_of_Z.
  assert (Hr : 0 ≤ z mod 256 < 256) by (apply Z.mod_pos_bound; lia).
  destruct (Byte.of_N (Z.to_N (z mod 256))) as [b|] eqn:E.
  - apply Byte.to_of_N in E. rewrite E. lia.
  - apply Byte.of_N_None_iff in E. lia.
Qed.

Lemma length_le_bytes (n : nat) (z : Z) : length (le_bytes n z) = n.
Proof. revert z. induction n as [|n IH]; intros z; simpl; [done | by rewrite IH]. Qed.

Lemma le_value_le_bytes (n : nat) (z : Z) :
  le_value (le_bytes n z) = z mod 256 ^ Z.of_nat n.
Proof.
  revert z. induction n as [|n IH]; intros z.
  - simpl. by rewrite Z.mod_1_r.
  - cbn [le_bytes le_value]. rewrite Z_of_byte_of_Z, IH.
    replace (Z.of_nat (S n)) with (1 + Z.of_nat n) by lia.
    rewrite Z.pow_add_r by lia. change (256 ^ 1) with 256.
    rewrite (Z.rem_mul_r z 256 (256 ^ Z.of_nat n)); lia.
Qed.

Lemma le_value_encode_u32 (z : Z) : 0 ≤ z < 2 ^ 32 → le_value (encode_u32 z) = z.
Proof.
  intros Hz. unfold encode_u32. rewrite le_value_le_bytes.
  change (256 ^ Z.of_nat 4) with (2 ^ 32). by apply Z.mod_small.
Qed.

Lemma le_value_encode_u8 (z : Z) : 0 ≤ z < 256 → le_value (encode_u8 z) = z.
Proof.
  intros Hz. unfold encode_u8. rewrite le_value_le_bytes.
  change (256 ^ Z.of_nat 1) with 256. by apply Z.mod_small.
Qed.

Lemma decode_encode_i32 (z : Z) : - 2 ^ 31 ≤ z < 2 ^ 31 → decode_i32 (encode_i32 z) = z.
Proof.
  intros Hz. unfold decode_i32, encode_i32. rewrite le_value_le_bytes.
  change (256 ^ Z.of_nat 4) with (2 ^ 32). rewrite Z.mod_mod by lia.
  destruct (Z.ltb_spec (z mod 2 ^ 32) (2 ^ 31)) as [Hlt|Hge].
  - destruct (Z.lt_ge_cases z 0) as [Hneg|Hpos].
    + rewrite <- (Z.mod_add z 1 (2 ^ 32)) in Hlt by lia.
      rewrite Z.mod_small in Hlt by lia. lia.
    + apply Z.mod_small. lia.
  - destruct (Z.lt_ge_cases z 0) as [Hneg|Hpos].
    + rewrite <- (Z.mod_add z 1 (2 ^ 32)) by lia.
      rewrite Z.mod_small by lia. lia.
    + rewrite Z.mod_small in Hge by lia. lia.
Qed.

Lemma blob_read_app (bs rest : list byte) :
  blob_read (length bs) (bs ++ rest) = Ok (bs, rest).
Proof.
  unfold blob_read. rewrite decide_True by (rewrite length_app; lia).
  by rewrite take_app_length, drop_app_length.
Qed.

(** ** The controller runtime *)

Module AnimationFacts.
Import Animation.

Section Facts.

Context {Node : Type}.
Variable node_update : Node -> @RunningContext Node -> Node * list byte.
Variable createInstance : ControllerResource -> Node.

Abbreviation updateController := (updateController node_update createInstance).
Abbreviation updateControllerOf := (updateControllerOf node_update createInstance).
Abbreviation initControllerRuntime := (@initControllerRuntime Node createInstance).
Abbreviation ticks := (ticks node_update createInstance).

Ltac run := unfold mbind, mret, M_bind, M_ret, lift, gets, modify, call, log_warning; simpl.

Lemma deref_resource_ok (c : @Controller Node) (s : Scene) p res :
  resource c = Some p → resources s !! p = Some res →
  deref_resource c s = Ok (res, s).
Proof. intros Hp Hr. unfold deref_resource. by rewrite Hp, Hr. Qed.

Lemma updateIK_chains_calls (iks : list IK) (i : nat) (s : @Scene Node) :
  ∃ s' js, updateIK_chains iks i s = Ok (tt, s') ∧
    m_calls s' = m_calls s ++ map CallUpdateIK js ∧
    m_controllers s' = m_controllers s ∧ resources s' = resources s ∧
    m_event_stream s' = m_event_stream s ∧ m_log s' = m_log s.
Proof.
  revert i s. induction iks as [|ik rest IH]; intros i s; simpl.
  - exists s, []. simpl. by rewrite app_nil_r.
  - destruct (weight_is_zero ik).
    + exists s, []. simpl. by rewrite app_nil_r.
    + run. destruct (IH (S i) (add_call (CallUpdateIK i) s)) as (s' & js & -> & Hc & ? & ? & ? & ?).
      exists s', (i :: js). simpl in *. rewrite Hc, <- app_assoc. done.
Qed.

(** A controller that has a root has the input buffer its runtime was
    created with, which is not empty: [initControllerRuntime] only creates
    a root together with a buffer of the declaration's non-zero size, and
    [updateController] never shrinks it. *)
Definition has_runtime_input (c : @Controller Node) : Prop :=
  is_Some (root c) → input c ≠ [].

Lemma initControllerRuntime_input (c c' : Controller) (s s' : Scene) :
  initControllerRuntime c s = Ok ((true, c'), s') →
  is_Some (root c') ∧ input c' ≠ [].
Proof.
  unfold Animation.initControllerRuntime. unfold mbind at 1, M_bind at 1.
  destruct (deref_resource c s) as [[res s0]|f]; [|done].
  destruct (isReady res); cbn [negb]; [|by intros [=]].
  destruct (decide (decl_size (m_input_decl res) = 0%nat)) as [Hz|Hnz]; [by intros [=]|].
  unfold mbind, M_bind, lift, call, modify, mret, M_ret. cbn [input with_input with_animations with_root].
  destruct (array_get _ 0) as [b0|f]; [|done].
  intros [= <- <-]. split; [by eexists|]. cbn [input root].
  intros Hnil. simpl in Hnil. apply (f_equal length) in Hnil.
  rewrite length_replicate, length_app, length_take, length_replicate in Hnil.
  simpl in Hnil. lia.
Qed.

Lemma initControllerRuntime_refused (c c' : Controller) (s s' : Scene) :
  initControllerRuntime c s = Ok ((false, c'), s') → c' = c.
Proof.
  unfold Animation.initControllerRuntime. unfold mbind at 1, M_bind at 1.
  destruct (deref_resource c s) as [[res s0]|f]; [|done].
  destruct (isReady res); cbn [negb]; [|by intros [=]].
  destruct (decide (decl_size (m_input_decl res) = 0%nat)) as [Hz|Hnz]; [by intros [=]|].
  unfold mbind, M_bind, lift, call, modify, mret, M_ret.
  by destruct (array_get _ 0).
Qed.

(** What follows the lazy initialisation in [updateController] keeps the
    controller's input. *)
Lemma updateController_tail_input (c c' : Controller) (time_delta : float) (s s' : Scene) :
  (n ← lift (of_option NullDeref (root c));
   _ ← lift (array_get (input c) 0);
   let rc := mkRC time_delta (root c) (input c) (animations c) (entity c) in
   call (CallUpdate n time_delta);;
   let '(n', events) := node_update n rc in
   modify (set_event_stream (fun es => es ++ events));;
   let c := with_root c (Some n') in
   rs ← gets m_render_scene;
   if negb (has_model_instance rs (entity c)) then mret c
   else if negb (lockPose rs (entity c)) then mret c
   else
     r ← lift (of_option NullDeref (root c));
     call (CallFillPose r);;
     updateIK_chains (inverse_kinematics c) 0;;
     mret c) s = Ok (c', s') →
  input c' = input c.
Proof.
  unfold mbind, M_bind, lift, call, modify, gets, mret, M_ret.
  destruct (of_option NullDeref (root c)) as [n|f]; [|done].
  destruct (array_get (input c) 0) as [b0|f]; [|done].
  destruct (node_update n _) as [n' events]. simpl.
  destruct (has_model_instance _ _); simpl; [|by intros [= <- <-]].
  destruct (lockPose _ _); simpl; [|by intros [= <- <-]].
  destruct (updateIK_chains _ _ _) as [[[] s1]|f]; [|done].
  by intros [= <- <-].
Qed.

Lemma updateController_keeps_runtime_input
    (c c' : Controller) (time_delta : float) (s s' : Scene) :
  has_runtime_input c →
  updateController c time_delta s = Ok (c', s') →
  has_runtime_input c'.
Proof.
  intros Hc. unfold Animation.updateController. unfold mbind at 1, M_bind at 1.
  destruct (deref_resource c s) as [[res s0]|f]; [|done].
  destruct (isReady res); cbn [negb].
  2:{ intros [= <- <-] [x Hx]. discriminate Hx. }
  unfold mbind at 1, M_bind at 1.
  destruct (root c) as [n|] eqn:Hroot.
  - unfold mret at 1, M_ret at 1. cbn [negb].
    intros Hrun%updateController_tail_input _. rewrite Hrun. apply Hc. by eexists.
  - destruct (initControllerRuntime c s0) as [[[ok c1] s1]|f] eqn:Hinit; [|done].
    destruct ok; cbn [negb].
    + apply initControllerRuntime_input in Hinit as [_ Hin].
      intros Hrun%updateController_tail_input _. by rewrite Hrun.
    + apply initControllerRuntime_refused in Hinit as ->.
      intros [= <- <-] [x Hx]. rewrite Hroot in Hx. discriminate Hx.
Qed.

(** C1.  With a ready resource and a root [n] (and the input buffer that
    comes with a root), [updateController] stores the node that [n]'s
    update returned as the new root, calls update exactly on [n], and every
    [fillPose] of the tick goes to the returned node; when the entity has a
    model instance whose pose locks, that [fillPose] call is made right
    after the update. *)
Theorem updateController_fillPose_on_returned_node
    (s : Scene) (c : Controller) (p : nat) (res : ControllerResource)
    (n : Node) (time_delta : float) :
  resource c = Some p →
  resources s !! p = Some res →
  isReady res = true →
  root c = Some n →
  input c ≠ [] →
  let rc := mkRC time_delta (Some n) (input c) (animations c) (entity c) in
  let n' := (node_update n rc).1 in
  ∃ s' tail,
    updateController c time_delta s = Ok (with_root c (Some n'), s') ∧
    m_calls s' = m_calls s ++ CallUpdate n time_delta :: tail ∧
    (∀ m, CallFillPose m ∈ tail → m = n') ∧
    (∀ m dt, CallUpdate m dt ∉ tail) ∧
    (has_model_instance (m_render_scene s) (entity c) = true →
     lockPose (m_render_scene s) (entity c) = true →
     ∃ iks, tail = CallFillPose n' :: map CallUpdateIK iks).
Proof.
  intros Hp Hr Hready Hroot Hinput rc n'.
  unfold updateController. unfold mbind at 1, M_bind at 1.
  rewrite (deref_resource_ok _ _ _ _ Hp Hr), Hready. simpl negb. cbv iota.
  assert (Hget : ∃ b0, array_get (input c) 0 = Ok b0).
  { destruct (input c); [done|]. by eexists. }
  destruct Hget as [b0 Hget].
  rewrite Hroot. unfold mbind, mret, M_bind, M_ret, lift, gets, modify, call.
  rewrite !Hroot. cbn [of_option]. rewrite Hget. simpl. fold rc.
  destruct (node_update n rc) as [n1 events] eqn:Hup. subst n'. simpl.
  destruct (has_model_instance (m_render_scene s) (entity c)) eqn:Hm; simpl.
  2:{ eexists _, []. split; [done|]. simpl. split; [done|].
      split; [intros m Hin; by apply elem_of_nil in Hin|].
      split; [intros m dt Hin; by apply elem_of_nil in Hin|]. done. }
  destruct (lockPose (m_render_scene s) (entity c)) eqn:Hl; simpl.
  2:{ eexists _, []. split; [done|]. simpl. split; [done|].
      split; [intros m Hin; by apply elem_of_nil in Hin|].
      split; [intros m dt Hin; by apply elem_of_nil in Hin|]. done. }
  match goal with |- context [updateIK_chains ?iks ?i ?s0] =>
    destruct (updateIK_chains_calls iks i s0) as (s' & js & -> & Hc & _) end.
  exists s', (CallFillPose n1 :: map CallUpdateIK js).
  split; [done|]. split.
  { rewrite Hc. simpl. by rewrite <- !app_assoc. }
  split.
  { intros m [Heq|Hin]%elem_of_cons; [by inversion Heq|].
    apply list_elem_of_fmap in Hin as (j & Hj & _). discriminate. }
  split.
  { intros m dt [Heq|Hin]%elem_of_cons; [discriminate|].
    apply list_elem_of_fmap in Hin as (j & Hj & _). discriminate. }
  intros _ _. by exists js.
Qed.


Lemma put_controller_same (s : @Scene Node) (cmp : Z) (c : Controller) :
  m_controllers s !! cmp = Some c →
  put_controller cmp c s = Ok (tt, s).
Proof.
  intros Hc. unfold put_controller, modify, set_controllers.
  rewrite (insert_id _ _ _ Hc). by destruct s.
Qed.

(** C10.  A ready resource whose input declaration has size zero never
    gets a runtime: [initControllerRuntime] returns [false] and creates no
    root, and any number of ticks leaves the scene as it was: no call to
    [enter], [update] or [fillPose], no pose, the root still null. *)
Theorem zero_size_decl_never_initialised
    (s : Scene) (cmp : Z) (c : Controller) (p : nat) (res : ControllerResource)
    (time_delta : float) (n : nat) :
  m_controllers s !! cmp = Some c →
  resource c = Some p →
  resources s !! p = Some res →
  isReady res = true →
  decl_size (m_input_decl res) = 0%nat →
  root c = None →
  initControllerRuntime c s = Ok ((false, c), s) ∧
  updateController c time_delta s = Ok (c, s) ∧
  ticks n cmp time_delta s = Ok (tt, s).
Proof.
  intros Hc Hp Hr Hready Hsize Hroot.
  assert (Hinit : initControllerRuntime c s = Ok ((false, c), s)).
  { unfold Animation.initControllerRuntime. unfold mbind at 1, M_bind at 1.
    rewrite (deref_resource_ok _ _ _ _ Hp Hr), Hready. simpl.
    by rewrite decide_True. }
  assert (Hupd : updateController c time_delta s = Ok (c, s)).
  { unfold Animation.updateController. unfold mbind at 1, M_bind at 1.
    rewrite (deref_resource_ok _ _ _ _ Hp Hr), Hready. cbn [negb].
    rewrite Hroot. unfold mbind at 1, M_bind at 1. by rewrite Hinit. }
  split; [done|]. split; [done|].
  induction n as [|n IH]; [done|].
  cbn [Animation.ticks]. unfold mbind at 1, M_bind at 1.
  unfold Animation.updateControllerOf. unfold mbind at 1, M_bind at 1.
  unfold get_controller at 1. rewrite Hc.
  unfold mbind at 1, M_bind at 1. rewrite Hupd.
  by rewrite (put_controller_same _ _ _ Hc).
Qed.

(** On a resource that is not ready [updateController] clears the root
    and nothing else: input, animations and default set stay. *)
Lemma updateController_not_ready
    (s : Scene) (c : Controller) (p : nat) (res : ControllerResource) (time_delta : float) :
  resource c = Some p →
  resources s !! p = Some res →
  isReady res = false →
  updateController c time_delta s = Ok (with_root c None, s).
Proof.
  intros Hp Hr Hready. unfold Animation.updateController. unfold mbind at 1, M_bind at 1.
  by rewrite (deref_resource_ok _ _ _ _ Hp Hr), Hready.
Qed.

(** The callback tears down exactly the controllers of the resource that
    have a root, and only when the new state is not ready. *)
Lemma onControllerResourceChanged_lookup
    (s : @Scene Node) (ready : bool) (p : nat) (cmp : Z) (c : Controller) :
  m_controllers s !! cmp = Some c →
  ∃ s', onControllerResourceChanged ready p s = Ok (tt, s') ∧
        m_controllers s' !! cmp
        = Some (if bool_decide (resource c = Some p) && bool_decide (is_Some (root c))
                   && negb ready
                then teardown c else c).
Proof.
  intros Hc. eexists. split; [reflexivity|].
  cbn [m_controllers set_controllers]. by rewrite lookup_fmap, Hc.
Qed.

(** *** Input setters *)

Lemma array_get_lookup {A} (l : list A) (i : Z) (x : A) :
  0 ≤ i → l !! Z.to_nat i = Some x → array_get l i = Ok x.
Proof. intros Hi Hl. unfold array_get. rewrite decide_True by done. by rewrite Hl. Qed.

(** C5, as the code has it.  A setter called on a controller that has no
    runtime yet logs its warning and changes nothing else, whatever the
    index.  On a controller with a runtime, a setter called on a slot of
    another type logs its warning and changes nothing else, and the float
    setter called with an index outside the declaration returns without a
    warning and without any change. *)
Theorem setters_skip_mismatched_slot
    (s : @Scene Node) (cmp : Z) (c : Controller)
    (input_idx : Z) (vf : float) (vi : Z) (vb : bool) :
  m_controllers s !! cmp = Some c →
  (root c = None →
     setControllerFloatInput cmp input_idx vf s
     = Ok (tt, add_log (WarnInputBeforeReady input_idx) s) ∧
     setControllerIntInput cmp input_idx vi s
     = Ok (tt, add_log (WarnInputBeforeReady input_idx) s) ∧
     setControllerBoolInput cmp input_idx vb s
     = Ok (tt, add_log (WarnInputBeforeReady input_idx) s)) ∧
  (∀ (n : Node) (p : nat) (res : ControllerResource),
     root c = Some n → resource c = Some p → resources s !! p = Some res →
     (∀ slot, 0 ≤ input_idx →
        inputs (m_input_decl res) !! Z.to_nat input_idx = Some slot →
        (in_type slot ≠ FLOAT →
           setControllerFloatInput cmp input_idx vf s
           = Ok (tt, add_log (WarnSetFloatTo (in_name slot)) s)) ∧
        (in_type slot ≠ INT →
           setControllerIntInput cmp input_idx vi s
           = Ok (tt, add_log (WarnSetIntTo (in_name slot)) s)) ∧
        (in_type slot ≠ BOOL →
           setControllerBoolInput cmp input_idx vb s
           = Ok (tt, add_log (WarnSetBoolTo (in_name slot)) s))) ∧
     (input_idx < 0 ∨ Z.of_nat (length (inputs (m_input_decl res))) ≤ input_idx →
        setControllerFloatInput cmp input_idx vf s = Ok (tt, s))).
Proof.
  intros Hc. split.
  - intros Hroot.
    unfold setControllerFloatInput, setControllerIntInput, setControllerBoolInput.
    unfold mbind, M_bind, get_controller. by rewrite Hc, Hroot.
  - intros n p res Hroot Hp Hr. split.
    + intros slot Hi Hslot.
      assert (Hlt : (Z.to_nat input_idx < length (inputs (m_input_decl res)))%nat)
        by (by eapply lookup_lt_Some).
      repeat split; intros Hty.
      * unfold setControllerFloatInput. unfold mbind at 1, M_bind at 1.
        unfold get_controller. rewrite Hc, Hroot.
        unfold mbind at 1, M_bind at 1. rewrite (deref_resource_ok _ _ _ _ Hp Hr).
        rewrite bool_decide_eq_false_2 by lia.
        unfold mbind, M_bind, lift. rewrite (array_get_lookup _ _ _ Hi Hslot).
        by destruct (in_type slot).
      * unfold setControllerIntInput. unfold mbind at 1, M_bind at 1.
        unfold get_controller. rewrite Hc, Hroot.
        unfold mbind at 1, M_bind at 1. rewrite (deref_resource_ok _ _ _ _ Hp Hr).
        unfold mbind, M_bind, lift. rewrite (array_get_lookup _ _ _ Hi Hslot).
        by destruct (in_type slot).
      * unfold setControllerBoolInput. unfold mbind at 1, M_bind at 1.
        unfold get_controller. rewrite Hc, Hroot.
        unfold mbind at 1, M_bind at 1. rewrite (deref_resource_ok _ _ _ _ Hp Hr).
        unfold mbind, M_bind, lift. rewrite (array_get_lookup _ _ _ Hi Hslot).
        by destruct (in_type slot).
    + intros Hout. unfold setControllerFloatInput. unfold mbind at 1, M_bind at 1.
      unfold get_controller. rewrite Hc, Hroot.
      unfold mbind at 1, M_bind at 1. rewrite (deref_resource_ok _ _ _ _ Hp Hr).
      by rewrite bool_decide_eq_true_2.
Qed.


(** *** The drain *)

Context `{EventLayout}.

Lemma encode_record_split (r : EventRecord) (rest : list byte) :
  encode_record r ++ rest
  = encode_u32 (type_hash r) ++ encode_i32 (owner_component r)
      ++ encode_u8 (Z.of_nat (length (payload r))) ++ payload r ++ rest.
Proof. unfold encode_record. by rewrite <- !app_assoc. Qed.

Lemma encode_record_not_nil (r : EventRecord) (rest : list byte) :
  encode_record r ++ rest ≠ [].
Proof.
  intros Hnil. apply (f_equal length) in Hnil.
  rewrite encode_record_split, !length_app in Hnil.
  unfold encode_u32 in Hnil. rewrite length_le_bytes in Hnil. simpl in Hnil. lia.
Qed.

(** One turn of the loop on a framed record is the dispatch of that record,
    and leaves the blob at the start of the next one. *)
Lemma drain_record (fuel : nat) (r : EventRecord) (rest : list byte) (s : @Scene Node) :
  well_formed r →
  drain (S fuel) (encode_record r ++ rest) s
  = (dispatch r;; drain fuel rest) s.
Proof.
  intros (Hty & Hown & Hlen & Hsize).
  pose proof (encode_record_not_nil r rest) as Hne.
  destruct (encode_record r ++ rest) as [|b0 blob0] eqn:Hblob; [done|].
  cbn [drain]. rewrite <- Hblob, encode_record_split.
  unfold mbind at 1, M_bind at 1, lift at 1.
  replace 4%nat with (length (encode_u32 (type_hash r))) at 1
    by apply length_le_bytes.
  rewrite blob_read_app.
  unfold mbind at 1, M_bind at 1, lift at 1.
  replace 4%nat with (length (encode_i32 (owner_component r))) at 1
    by apply length_le_bytes.
  rewrite blob_read_app.
  unfold mbind at 1, M_bind at 1, lift at 1.
  replace 1%nat with (length (encode_u8 (Z.of_nat (length (payload r))))) at 1
    by apply length_le_bytes.
  rewrite blob_read_app.
  rewrite le_value_encode_u32 by done.
  rewrite le_value_encode_u8 by lia.
  rewrite decode_encode_i32 by done.
  unfold dispatch. destruct (decide (type_hash r = set_input_type)) as [Heq|Hneq].
  - unfold mbind at 1, M_bind at 1, lift at 1.
    rewrite <- (Hsize Heq), blob_read_app. done.
  - unfold blob_skip. rewrite Nat2Z.id, drop_app_length. done.
Qed.

Lemma drain_stream (rs : list EventRecord) :
  Forall well_formed rs →
  ∀ (fuel : nat) (s : @Scene Node), (length rs < fuel)%nat →
  drain fuel (encode_stream rs) s = dispatch_all rs s.
Proof.
  induction 1 as [|r rest Hr Hrest IH]; intros fuel s Hfuel.
  - destruct fuel; [simpl in Hfuel; lia | done].
  - destruct fuel as [|fuel]; [simpl in Hfuel; lia|].
    change (encode_stream (r :: rest)) with (encode_record r ++ encode_stream rest).
    rewrite drain_record by done.
    cbn [dispatch_all]. unfold mbind, M_bind.
    destruct (dispatch r s) as [[[] s']|f]; [|done].
    apply IH. simpl in Hfuel. lia.
Qed.

Lemma length_encode_stream (rs : list EventRecord) :
  (length rs ≤ length (encode_stream rs))%nat.
Proof.
  induction rs as [|r rest IH]; [done|].
  change (encode_stream (r :: rest)) with (encode_record r ++ encode_stream rest).
  rewrite encode_record_split, !length_app.
  unfold encode_u32. rewrite length_le_bytes. simpl in *. lia.
Qed.

Lemma dispatch_all_unknown (rs : list EventRecord) (s : @Scene Node) :
  Forall (λ r, type_hash r ≠ set_input_type) rs →
  dispatch_all rs s = Ok (tt, s).
Proof.
  induction 1 as [|r rest Hr Hrest IH]; [done|].
  cbn [dispatch_all]. unfold mbind, M_bind, dispatch.
  by rewrite decide_False.
Qed.

(** Storing at an offset is what [stored_at] describes byte by byte. *)
Lemma stored_at_write_bytes (buf : list byte) (offset : Z) (v buf' : list byte) :
  stored_at buf offset v buf' → write_bytes buf offset v = Ok buf'.
Proof.
  intros (Hoff & Hfit & Hlen & Hbytes). unfold write_bytes.
  rewrite decide_True by done. f_equal. apply list_eq. intros i.
  rewrite Hbytes.
  assert (Htake : length (take (Z.to_nat offset) buf) = Z.to_nat offset)
    by (rewrite length_take; lia).
  case_decide as Hi.
  - rewrite lookup_app_r by lia. rewrite Htake.
    rewrite lookup_app_l by lia. done.
  - destruct (decide (i < Z.to_nat offset)%nat) as [Hlow|Hhigh].
    + rewrite lookup_app_l by lia. by rewrite lookup_take_lt.
    + rewrite lookup_app_r by lia. rewrite Htake.
      rewrite lookup_app_r by lia. rewrite lookup_drop. f_equal. lia.
Qed.

(** The record-by-record dispatch does to the scene what [drains_to]
    says. *)
Lemma dispatch_all_drains (rs : list EventRecord) (s s' : @Scene Node) :
  drains_to rs s s' → dispatch_all rs s = Ok (tt, s').
Proof.
  induction 1 as [s
                 |r rest s s' Hty _ IH
                 |r rest s s' c p res Hty Hc Hp Hres Hready _ IH
                 |r rest s s' c p res slot v buf' Hty Hc Hp Hres Hready Hidx Hslot Hv
                    Hstored _ IH].
  - done.
  - cbn [dispatch_all]. unfold mbind, M_bind, dispatch. by rewrite decide_False.
  - cbn [dispatch_all]. unfold mbind at 1, M_bind at 1, dispatch.
    rewrite decide_True by done. unfold apply_set_input.
    unfold mbind at 1, M_bind at 1, get_controller. rewrite Hc.
    unfold mbind at 1, M_bind at 1. rewrite (deref_resource_ok _ _ _ _ Hp Hres).
    rewrite Hready. exact IH.
  - cbn [dispatch_all]. unfold mbind at 1, M_bind at 1, dispatch.
    rewrite decide_True by done. unfold apply_set_input.
    unfold mbind at 1, M_bind at 1, get_controller. rewrite Hc.
    unfold mbind at 1, M_bind at 1. rewrite (deref_resource_ok _ _ _ _ Hp Hres).
    rewrite Hready.
    unfold mbind at 1, M_bind at 1, lift. rewrite (array_get_lookup _ _ _ Hidx Hslot).
    apply stored_at_write_bytes in Hstored.
    assert (Hstore : store_input (owner_component r) c (in_offset slot) v s
                     = Ok (tt, with_input_of (owner_component r) c buf' s)).
    { unfold store_input, mbind, M_bind, lift. by rewrite Hstored. }
    destruct (in_type slot); cbn [event_value] in Hv; try discriminate Hv;
      injection Hv as <-; rewrite Hstore; exact IH.
Qed.

(** C7.  On a stream made of framed records, [processEventStream] visits
    the records in append order and does to the scene what [drains_to]
    describes: a record whose hash is [set_input] and whose owner's
    resource is ready has the value of the event stored in the owner's
    input, at the offset of the slot the event names and as the bytes of
    that slot's type, with every other byte and every other controller as
    it was; every other record is passed over by its payload size with no
    effect; a stream without [set_input] records is drained to its end
    without a failure and without a change. *)
Theorem processEventStream_dispatches_in_order
    (rs : list EventRecord) (s s' : @Scene Node) :
  Forall well_formed rs →
  m_event_stream s = encode_stream rs →
  (drains_to rs s s' → processEventStream s = Ok (tt, s')) ∧
  (Forall (λ r, type_hash r ≠ set_input_type) rs →
   processEventStream s = Ok (tt, s)).
Proof.
  intros Hwf Hes.
  assert (Hrun : processEventStream s = dispatch_all rs s).
  { unfold processEventStream, mbind, M_bind, gets. rewrite Hes.
    apply drain_stream; [done|]. pose proof (length_encode_stream rs). lia. }
  split.
  - intros Hdrains. rewrite Hrun. by apply dispatch_all_drains.
  - intros Hunknown. rewrite Hrun. by apply dispatch_all_unknown.
Qed.

End Facts.

Import AnimationExamples.

Lemma updateController_fillPose_on_returned_node_witness :
  ∃ s' tail,
    updateController next_node first_node (a_controller (Some 4%nat) zeros) 0
      (a_scene (a_resource true 9) (a_controller (Some 4%nat) zeros) [])
    = Ok (with_root (a_controller (Some 4%nat) zeros) (Some 5%nat), s') ∧
    m_calls s' = [] ++ CallUpdate 4%nat 0 :: tail ∧
    (∀ m, CallFillPose m ∈ tail → m = 5%nat) ∧
    (∀ m dt, CallUpdate m dt ∉ tail) ∧
    (true = true → true = true → ∃ iks, tail = CallFillPose 5%nat :: map CallUpdateIK iks).
Proof.
  apply (updateController_fillPose_on_returned_node next_node first_node
           (a_scene (a_resource true 9) (a_controller (Some 4%nat) zeros) [])
           (a_controller (Some 4%nat) zeros) 0%nat (a_resource true 9) 4%nat 0);
    (reflexivity || discriminate).
Defined.

Lemma zero_size_decl_never_initialised_witness :
  initControllerRuntime first_node (a_controller None [])
    (a_scene (a_resource true 0) (a_controller None []) [])
  = Ok ((false, a_controller None []), a_scene (a_resource true 0) (a_controller None []) []) ∧
  updateController next_node first_node (a_controller None []) 0
    (a_scene (a_resource true 0) (a_controller None []) [])
  = Ok (a_controller None [], a_scene (a_resource true 0) (a_controller None []) []) ∧
  ticks next_node first_node 3 1 0 (a_scene (a_resource true 0) (a_controller None []) [])
  = Ok (tt, a_scene (a_resource true 0) (a_controller None []) []).
Proof.
  apply (zero_size_decl_never_initialised next_node first_node
           (a_scene (a_resource true 0) (a_controller None []) []) 1
           (a_controller None []) 0%nat (a_resource true 0) 0 3);
    reflexivity.
Defined.

Lemma setters_skip_mismatched_slot_witness :
  let s := a_scene (a_resource true 9) (a_controller (Some 4%nat) zeros) [] in
  let s0 := a_scene (a_resource true 9) (a_controller None []) [] in
  setControllerFloatInput 1 1 0 s = Ok (tt, add_log (WarnSetFloatTo 1) s) ∧
  setControllerBoolInput 1 7 true s = Ok (tt, add_log (WarnSetBoolTo empty_name) s) ∧
  setControllerFloatInput 1 32 0 s = Ok (tt, s) ∧
  setControllerIntInput 1 32 0 s0 = Ok (tt, add_log (WarnInputBeforeReady 32) s0).
Proof.
  intros s s0. split; [|split; [|split]].
  - destruct (setters_skip_mismatched_slot s 1 (a_controller (Some 4%nat) zeros)
                1 0 0 false eq_refl) as [_ Hruntime].
    destruct (Hruntime 4%nat 0%nat (a_resource true 9) eq_refl eq_refl eq_refl)
      as [Hmismatch _].
    destruct (Hmismatch (mkInput INT 1 4)) as [Hfloat _]; [lia | reflexivity |].
    apply Hfloat. discriminate.
  - destruct (setters_skip_mismatched_slot s 1 (a_controller (Some 4%nat) zeros)
                7 0 0 true eq_refl) as [_ Hruntime].
    destruct (Hruntime 4%nat 0%nat (a_resource true 9) eq_refl eq_refl eq_refl)
      as [Hmismatch _].
    destruct (Hmismatch empty_slot) as (_ & _ & Hbool); [lia | reflexivity |].
    apply Hbool. discriminate.
  - destruct (setters_skip_mismatched_slot s 1 (a_controller (Some 4%nat) zeros)
                32 0 0 false eq_refl) as [_ Hruntime].
    destruct (Hruntime 4%nat 0%nat (a_resource true 9) eq_refl eq_refl eq_refl)
      as [_ Hrange].
    apply Hrange. right. simpl. lia.
  - destruct (setters_skip_mismatched_slot s0 1 (a_controller None [])
                32 0 0 false eq_refl) as [Hearly _].
    destruct (Hearly eq_refl) as (_ & Hint & _). exact Hint.
Defined.

(** C5 as stated fails.  The declaration has 32 slots.  On a controller
    with a runtime the float setter called with the index 32, or with -1,
    returns without logging anything, and the int and bool setters, which
    have no range check, index the declaration out of bounds. *)
Lemma setters_out_of_range_counterexample :
  let s := a_scene (a_resource true 9) (a_controller (Some 4%nat) zeros) [] in
  length (inputs (m_input_decl (a_resource true 9))) = 32%nat ∧
  setControllerFloatInput 1 32 0 s = Ok (tt, s) ∧
  ¬ logged_noop s (setControllerFloatInput 1 32 0 s) ∧
  ¬ logged_noop s (setControllerFloatInput 1 (-1) 0 s) ∧
  setControllerIntInput 1 32 0 s = Err OutOfBounds ∧
  setControllerBoolInput 1 32 true s = Err OutOfBounds ∧
  ¬ logged_noop s (setControllerIntInput 1 32 0 s).
Proof.
  intros s. split; [reflexivity|]. split; [reflexivity|]. split.
  { intros [w Hw].
    apply (f_equal (λ r, match r with Ok (_, s') => length (m_log s') | Err _ => O end)) in Hw.
    vm_compute in Hw. discriminate Hw. }
  split.
  { intros [w Hw].
    apply (f_equal (λ r, match r with Ok (_, s') => length (m_log s') | Err _ => O end)) in Hw.
    vm_compute in Hw. discriminate Hw. }
  split; [reflexivity|]. split; [reflexivity|].
  intros [w Hw]. vm_compute in Hw. discriminate Hw.
Qed.

(** C6 on the code.  A controller with a root and four bytes of input whose
    resource is found not ready: [updateController] clears the root and
    keeps the input (and the animations and default set) as they were,
    whereas the resource callback clears them. *)
Theorem updateController_not_ready_keeps_input :
  let c := a_controller (Some 4%nat) stale_input in
  let s := a_scene (a_resource false 9) c [] in
  updateController next_node first_node c 0 s = Ok (with_root c None, s) ∧
  input (with_root c None) = stale_input ∧
  ∃ s', onControllerResourceChanged false 0 s = Ok (tt, s') ∧
        m_controllers s' !! 1 = Some (teardown c) ∧
        @input nat (teardown c) = [].
Proof.
  intros c s. split; [reflexivity|]. split; [reflexivity|].
  eexists. split; [reflexivity|]. split; reflexivity.
Qed.

(** The two records drained by the code itself: the first is passed over,
    the second stores 7 in the int slot at offset 4. *)
Example processEventStream_two_records :
  let s := a_scene (a_resource true 9) (a_controller (Some 4%nat) zeros)
                   (encode_stream two_records) in
  ∃ s', processEventStream s = Ok (tt, s') ∧
        (input <$> m_controllers s' !! 1)
        = Some (replicate 4 x00 ++ encode_i32 7 ++ [x00]) ∧
        m_log s' = [].
Proof. intros s. eexists. split; [vm_compute; reflexivity|]. split; reflexivity. Qed.

(** A setter on a slot of its own type writes the value at the slot's
    offset. *)
Example setControllerIntInput_stores :
  let s := a_scene (a_resource true 9) (a_controller (Some 4%nat) zeros) [] in
  ∃ s', setControllerIntInput 1 1 (-2) s = Ok (tt, s') ∧
        (input <$> m_controllers s' !! 1)
        = Some (replicate 4 x00 ++ [xfe; xff; xff; xff] ++ [x00]) ∧
        m_log s' = [].
Proof. intros s. eexists. split; [vm_compute; reflexivity|]. split; reflexivity. Qed.

Lemma processEventStream_dispatches_in_order_witness :
  let c := a_controller (Some 4%nat) zeros in
  let c' := a_controller (Some 4%nat) (replicate 4 x00 ++ encode_i32 7 ++ [x00]) in
  let s := a_scene (a_resource true 9) c (encode_stream two_records) in
  let s' := a_scene (a_resource true 9) c' (encode_stream two_records) in
  drains_to two_records s s' ∧ processEventStream s = Ok (tt, s').
Proof.
  intros c c' s s'.
  assert (Hdrains : drains_to two_records s s').
  { apply drains_unknown; [discriminate|].
    apply (drains_set_input _ [] s s' c 0%nat (a_resource true 9) (mkInput INT 1 4)
             (encode_i32 7) (replicate 4 x00 ++ encode_i32 7 ++ [x00]));
      try reflexivity.
    - vm_compute. discriminate.
    - split; [simpl; lia|]. split; [simpl; lia|]. split; [reflexivity|].
      intros i. do 9 (destruct i as [|i]; [reflexivity|]). reflexivity.
    - assert (with_input_of (owner_component (mkRecord 1289342641 1
                                (encode_i32 1 ++ encode_i32 7)))
                c (replicate 4 x00 ++ encode_i32 7 ++ [x00]) s = s') as ->
        by (vm_compute; reflexivity).
      apply drains_nil. }
  split; [exact Hdrains|].
  destruct (processEventStream_dispatches_in_order two_records s s') as [Hrun _].
  - repeat constructor; simpl; try lia; try discriminate; try reflexivity.
  - reflexivity.
  - exact (Hrun Hdrains).
Defined.

End AnimationFacts.

(** ** The ragdoll tree *)

Module RagdollFacts.
Import Ragdoll RagdollExamples.

Ltac evaluate E :=
  match goal with
  | |- match ?r with _ => _ end =>
      destruct r as [[? s]|?f] eqn:E; vm_compute in E; [|discriminate E];
      injection E as _ E
  end.

(** C2 on the code.  After [createRagdollBone] of a skeleton's root bone
    and [disconnect] of that bone, the ragdoll's [root] is null while the
    bone is still there without a parent: it is on no root list.  After two
    root-level bones are created and the older is [connect]ed under the
    newer, the older keeps a [prev] link to a bone whose [next] is null. *)
Theorem disconnect_leaves_bone_off_root_list :
  match (b ← create spine 0; disconnect_bone b) empty_ragdoll with
  | Ok (_, s) =>
      root s = None ∧
      links s 0 = Some (mkLinks None None None None None) ∧
      ¬ parentless_on_root_list s ∧ ¬ tree_consistent s
  | Err _ => False
  end ∧
  match (a ← create fork 1; b ← create fork 2; connect_bones a b) empty_ragdoll with
  | Ok (_, s) =>
      links s 0 = Some (mkLinks (Some 1%nat) None None (Some 1%nat) (Some (1%nat, 0%nat, eREVOLUTE))) ∧
      links s 1 = Some (mkLinks None (Some 0%nat) None None None) ∧
      ¬ back_links s ∧ ¬ tree_consistent s
  | Err _ => False
  end.
Proof.
  split.
  - evaluate E.
    assert (Hoff : ¬ parentless_on_root_list s).
    { subst s. intros Hall.
      destruct (Hall 0%nat _ eq_refl eq_refl) as (l & Hl & Hin).
      vm_compute in Hl. injection Hl as <-. by apply elem_of_nil in Hin. }
    split; [by subst s|]. split; [by subst s|]. split; [done|].
    by intros (_ & _ & Hp).
  - evaluate E.
    assert (Hback : ¬ back_links s).
    { subst s. intros Hall.
      destruct (Hall 0%nat _ eq_refl) as [Hprev _].
      destruct (Hprev 1%nat eq_refl) as (qb & Hq & Hnext).
      vm_compute in Hq. injection Hq as <-. discriminate Hnext. }
    split; [by subst s|]. split; [by subst s|]. split; [done|].
    by intros (Hb & _).
Qed.

(** C3 on the code.  Bones 0, 1, 2, 3 of a limb (1 under 0; 2 and 3 under
    1) are created in that order and bone 1 is disconnected: its children 2
    and 3 become children of bone 0, each with a new revolute joint against
    bone 0, and bone 1 is left without parent, child and joint; but [root]
    still points at bone 0, whose [prev] is now bone 1, so bone 1 is not on
    the root list.  Disconnecting the root bone 0 of a two-bone chain
    promotes bone 1 to the root list and leaves bone 0 off it as well.
    Disconnecting the only bone of a ragdoll leaves the root list empty and
    the bone linked to nothing. *)
Theorem disconnect_reparents_children_but_loses_bone :
  match (create limb 0;; b ← create limb 1; create limb 2;; create limb 3;;
         disconnect_bone b) empty_ragdoll with
  | Ok (_, s) =>
      links s 2 = Some (mkLinks (Some 0%nat) None (Some 3%nat) None (Some (0%nat, 2%nat, eREVOLUTE))) ∧
      links s 3 = Some (mkLinks (Some 0%nat) None None (Some 2%nat) (Some (0%nat, 3%nat, eREVOLUTE))) ∧
      links s 1 = Some (mkLinks None None (Some 0%nat) None None) ∧
      links s 0 = Some (mkLinks None (Some 2%nat) None (Some 1%nat) None) ∧
      root s = Some 0%nat ∧
      root_list s = Ok [0%nat]
  | Err _ => False
  end ∧
  match (a ← create spine 0; create spine 1;; disconnect_bone a) empty_ragdoll with
  | Ok (_, s) =>
      links s 1 = Some (mkLinks None None None (Some 0%nat) None) ∧
      links s 0 = Some (mkLinks None None (Some 1%nat) None None) ∧
      root s = Some 1%nat ∧
      root_list s = Ok [1%nat]
  | Err _ => False
  end ∧
  match (a ← create spine 0; disconnect_bone a) empty_ragdoll with
  | Ok (_, s) =>
      links s 0 = Some (mkLinks None None None None None) ∧
      root s = None ∧
      root_list s = Ok []
  | Err _ => False
  end.
Proof.
  split; [|split]; evaluate E; subst s; repeat split; reflexivity.
Qed.

(** C4 on the code.  In a chain 0 - 1 - 2 whose bones are created in the
    order 0, 2, 1, bone 2 (at address 1) is a sibling of the new bone 1 (at
    address 2) and its closest ancestor with a body is that new bone, yet it
    stays a child of bone 0.  With two children 1 and 2 of a root 0 created
    before the root, only one of them is moved under the new root bone: the
    other (at address 0) stays on the root list although its closest
    ancestor with a body is the new bone (at address 2). *)
Theorem findCloserChildren_misses_bones :
  match (create spine 0;; create spine 2;; create spine 1;; mret tt) empty_ragdoll with
  | Ok (_, s) =>
      (pose_bone_idx <$> bones s !! 1%nat) = Some 2 ∧
      (pose_bone_idx <$> bones s !! 2%nat) = Some 1 ∧
      phy_parent spine 2 s = Ok (Some 2%nat, s) ∧
      (l_parent <$> links s 1) = Some (Some 0%nat) ∧
      children_list s 0 = Ok [2%nat; 1%nat] ∧
      children_list s 2 = Ok []
  | Err _ => False
  end ∧
  match (create fork 1;; create fork 2;; create fork 0;; mret tt) empty_ragdoll with
  | Ok (_, s) =>
      (pose_bone_idx <$> bones s !! 0%nat) = Some 1 ∧
      (pose_bone_idx <$> bones s !! 2%nat) = Some 0 ∧
      phy_parent fork 1 s = Ok (Some 2%nat, s) ∧
      (l_parent <$> links s 0) = Some None ∧
      root_list s = Ok [2%nat; 0%nat] ∧
      children_list s 2 = Ok [1%nat]
  | Err _ => False
  end.
Proof.
  split; evaluate E; subst s; repeat split; vm_compute; reflexivity.
Qed.

(** C8 on the code.  A two-bone ragdoll whose joint is made spherical
    through [changeRagdollBoneJoint] (a type that function creates) cannot
    be serialized: [serializeRagdollJoint] has no case for it and runs into
    its [ASSERT(false)].  With the revolute joint the bone was connected
    with, the same ragdoll is written and read back with the same links. *)
Theorem serialize_rejects_spherical_joint :
  match (create spine 0;; b ← create spine 1;
         changeRagdollBoneJoint frames fresh_params b (joint_type_code eSPHERICAL))
          empty_ragdoll with
  | Ok (_, s) =>
      links s 0 = Some (mkLinks None (Some 1%nat) None None None) ∧
      links s 1 = Some (mkLinks (Some 0%nat) None None None (Some (0%nat, 1%nat, eSPHERICAL))) ∧
      root_list s = Ok [0%nat] ∧
      serializeRagdoll s = Err AssertFailed
  | Err _ => False
  end ∧
  match (create spine 0;; create spine 1;; mret tt) empty_ragdoll with
  | Ok (_, s) =>
      links s 1 = Some (mkLinks (Some 0%nat) None None None (Some (0%nat, 1%nat, eREVOLUTE))) ∧
      ∃ bs, serializeRagdoll s = Ok bs ∧
            deserializeRagdoll frames fresh_params bs = Ok (s, [])
  | Err _ => False
  end.
Proof.
  split; evaluate E; subst s.
  - repeat split; vm_compute; reflexivity.
  - split; [reflexivity|]. eexists. split; [vm_compute; reflexivity|].
    vm_compute. reflexivity.
Qed.

End RagdollFacts.

(** ** Writing a ragdoll and reading it back *)

Module RagdollRoundTrip.
Import Ragdoll.

Section RoundTrip.

Variable joint_frames : Actor -> Actor -> Transform * Transform.
Variable new_joint_params : JointType -> JointParams.

(** A joint made fixed or revolute is of that type. *)
Hypothesis new_joint_params_type :
  params_type (new_joint_params eFIXED) = eFIXED ∧
  params_type (new_joint_params eREVOLUTE) = eREVOLUTE.

Abbreviation deserializeRagdollBone := (deserializeRagdollBone joint_frames new_joint_params).
Abbreviation deserializeRagdollJoint := (deserializeRagdollJoint joint_frames new_joint_params).
Abbreviation deserializeRagdoll := (deserializeRagdoll joint_frames new_joint_params).

(** *** Writing *)

Lemma serializeRagdollJoint_tree (b : RagdollBone) par a j :
  joint_at (parent_joint b) par a j →
  (∀ hp, joint_supported hp j → serializeRagdollJoint b = Ok (tree_joint_bytes j)).
Proof.
  unfold joint_at, serializeRagdollJoint, tree_joint_bytes, getConcreteType.
  destruct (parent_joint b) as [x|], j as [[[p0 p1] ps]|]; try done.
  intros (_ & _ & <- & <- & <-) hp (_ & _ & _ & Hps).
  destruct (params x); try done; f_equal; by rewrite <- ?app_assoc, ?app_nil_r.
Qed.

Lemma serializeRagdollBone_tree (h : gmap nat RagdollBone) (t : Tree) :
  ∀ p par prv hp fuel,
    tree_at h p par prv t → supported hp t → (depth t ≤ fuel)%nat →
    serializeRagdollBone fuel h p = Ok (tree_bytes t).
Proof.
  induction t as [|idx act bind j c IHc n IHn]; intros p par prv hp fuel Ht Hs Hfuel.
  - simpl in Ht. subst p. by destruct fuel.
  - destruct Ht as (a & b & -> & Hb & <- & <- & <- & Hpar & Hprv & Hj & Hc & Hn).
    destruct Hs as (_ & _ & _ & _ & Hjs & Hsc & Hsn).
    destruct fuel as [|fuel]; [simpl in Hfuel; lia|].
    cbn [serializeRagdollBone]. rewrite Hb. cbn [of_option mbind Res_bind].
    rewrite (IHc _ _ _ _ fuel Hc Hsc) by (simpl in Hfuel; lia).
    rewrite (IHn _ _ _ _ fuel Hn Hsn) by (simpl in Hfuel; lia).
    rewrite (serializeRagdollJoint_tree _ _ _ _ Hj _ Hjs).
    unfold mbind, Res_bind. cbn [tree_bytes]. by rewrite <- !app_assoc.
Qed.


(** *** Reading *)

Lemma read_app (s : State) (bs rest : list byte) (n : nat) :
  length bs = n → read n (s, bs ++ rest) = Ok (bs, (s, rest)).
Proof. intros <-. unfold read. by rewrite blob_read_app. Qed.

Lemma read_int_app (s : State) (z : Z) (rest : list byte) :
  - 2 ^ 31 ≤ z < 2 ^ 31 →
  read_int (s, encode_i32 z ++ rest) = Ok (z, (s, rest)).
Proof.
  intros Hz. unfold read_int, mbind, D_bind.
  rewrite read_app by apply length_le_bytes.
  unfold mret, D_ret. by rewrite decode_encode_i32.
Qed.

Lemma read_u32_app (s : State) (z : Z) (rest : list byte) :
  0 ≤ z < 2 ^ 32 →
  read_u32 (s, encode_u32 z ++ rest) = Ok (z, (s, rest)).
Proof.
  intros Hz. unfold read_u32, mbind, D_bind.
  rewrite read_app by apply length_le_bytes.
  unfold mret, D_ret. by rewrite le_value_encode_u32.
Qed.

Lemma read_bool_app (s : State) (b : bool) (rest : list byte) :
  read_bool (s, write_bool b ++ rest) = Ok (b, (s, rest)).
Proof. by destruct b. Qed.

Lemma read_geometry_app (s : State) (g : Geometry) (rest : list byte) :
  geometry_sized g →
  read_geometry (s, serialize_geometry g ++ rest) = Ok (g, (s, rest)).
Proof.
  intros Hg. unfold read_geometry, serialize_geometry.
  destruct g as [he|hh r]; simpl in Hg.
  - rewrite <- app_assoc. unfold mbind at 1, D_bind at 1.
    rewrite read_int_app by (unfold BOX; lia).
    rewrite decide_False by done. rewrite decide_True by done.
    unfold mbind, D_bind. by rewrite read_app.
  - destruct Hg as [Hhh Hr]. rewrite <- !app_assoc. unfold mbind at 1, D_bind at 1.
    rewrite read_int_app by (unfold CAPSULE; lia).
    rewrite decide_True by done.
    unfold mbind, D_bind. rewrite read_app by done. by rewrite read_app.
Qed.

Lemma get_bone_eq (s : State) (a : nat) (b : RagdollBone) :
  bones s !! a = Some b → get_bone a s = Ok (b, s).
Proof. intros Hb. unfold get_bone. by rewrite Hb. Qed.

Lemma update_bone_eq (s : State) (a : nat) (b : RagdollBone) f :
  bones s !! a = Some b →
  update_bone a f s = Ok (tt, mkState (<[a := f b]> (bones s)) (root s) (next_free s)).
Proof. intros Hb. unfold update_bone. by rewrite Hb. Qed.

Lemma joint_type_of_code_code (t : JointType) :
  joint_type_of_code (joint_type_code t) = Some t.
Proof. by destruct t. Qed.

Lemma params_fixed (ps : JointParams) : params_type ps = eFIXED → ps = FixedParams.
Proof. by destruct ps. Qed.


Lemma with_parent_joint_same (b : RagdollBone) :
  with_parent_joint (parent_joint b) b = b.
Proof. by destruct b. Qed.

Lemma state_eta (s : State) : mkState (bones s) (root s) (next_free s) = s.
Proof. by destruct s. Qed.

Lemma changeRagdollBoneJoint_ok (s : State) (a pa : nat) (b pb : RagdollBone) (t : JointType) :
  bones s !! a = Some b → parent b = Some pa → bones s !! pa = Some pb →
  t = eFIXED ∨ t = eREVOLUTE →
  changeRagdollBoneJoint joint_frames new_joint_params a (joint_type_code t) s
  = Ok (tt, mkState (<[a := with_parent_joint
                             (Some (mkJoint pa a (joint_frames (actor pb) (actor b)).1
                                            (joint_frames (actor pb) (actor b)).2
                                            (new_joint_params t))) b]> (bones s))
                    (root s) (next_free s)).
Proof.
  intros Hb Hpar Hpb Ht. unfold changeRagdollBoneJoint.
  unfold mbind at 1, H_bind at 1. rewrite (get_bone_eq _ _ _ Hb).
  unfold mbind at 1, H_bind at 1. rewrite Hpar. cbn [of_option lift].
  unfold mbind at 1, H_bind at 1. rewrite (get_bone_eq _ _ _ Hpb).
  destruct (joint_frames (actor pb) (actor b)) as [tr0 tr1].
  rewrite joint_type_of_code_code.
  destruct Ht as [-> | ->]; unfold set_parent_joint; by rewrite (update_bone_eq _ _ _ _ Hb).
Qed.

Lemma update_joint_ok (s : State) (a : nat) (b : RagdollBone) (x : Joint) f :
  bones s !! a = Some b → parent_joint b = Some x →
  update_joint a f s
  = Ok (tt, mkState (<[a := with_parent_joint (Some (f x)) b]> (bones s)) (root s) (next_free s)).
Proof.
  intros Hb Hx. unfold update_joint.
  unfold mbind at 1, H_bind at 1. rewrite (get_bone_eq _ _ _ Hb).
  unfold mbind at 1, H_bind at 1. rewrite Hx. cbn [of_option lift].
  unfold set_parent_joint. by rewrite (update_bone_eq _ _ _ _ Hb).
Qed.

Lemma joint_is_ok (s : State) (a : nat) (b : RagdollBone) (x : Joint) (t : JointType) :
  bones s !! a = Some b → parent_joint b = Some x → getConcreteType x = t →
  joint_is a t s = Ok (tt, s).
Proof.
  intros Hb Hx Ht. unfold joint_is.
  unfold mbind at 1, H_bind at 1. rewrite (get_bone_eq _ _ _ Hb).
  unfold mbind at 1, H_bind at 1. rewrite Hx. cbn [of_option lift].
  by rewrite decide_True.
Qed.

Lemma deserializeRagdollJoint_tree (s : State) (a : nat) (b : RagdollBone) (hp : bool)
    (j : option (Transform * Transform * JointParams)) (rest : list byte) :
  bones s !! a = Some b →
  parent_joint b = None →
  joint_supported hp j →
  (hp = true → ∃ pa pb, parent b = Some pa ∧ pa ≠ a ∧ bones s !! pa = Some pb) →
  ∃ pj, deserializeRagdollJoint a (s, tree_joint_bytes j ++ rest)
        = Ok (tt, (mkState (<[a := with_parent_joint pj b]> (bones s)) (root s) (next_free s),
                   rest))
      ∧ joint_at pj (parent b) a j.
Proof.
  intros Hb Hnone Hj Hpar.
  destruct j as [[[p0 p1] ps]|]; cbn [tree_joint_bytes joint_supported] in *.
  - destruct Hj as (-> & Hp0 & Hp1 & Hps).
    destruct (Hpar eq_refl) as (pa & pb & Hpa & Hne & Hpb).
    set (t := params_type ps).
    assert (Ht : t = eFIXED ∨ t = eREVOLUTE) by (subst t; destruct ps; (done || auto)).
    set (x0 := mkJoint pa a (joint_frames (actor pb) (actor b)).1
                       (joint_frames (actor pb) (actor b)).2 (new_joint_params t)).
    set (s1 := mkState (<[a := with_parent_joint (Some x0) b]> (bones s)) (root s) (next_free s)).
    set (x1 := with_local_poses p0 p1 x0).
    set (s2 := mkState (<[a := with_parent_joint (Some x1) b]> (bones s)) (root s) (next_free s)).
    assert (Hs1 : bones s1 !! a = Some (with_parent_joint (Some x0) b))
      by apply lookup_insert_eq.
    assert (Hs2 : bones s2 !! a = Some (with_parent_joint (Some x1) b))
      by apply lookup_insert_eq.
    assert (Hup1 : update_joint a (with_local_poses p0 p1) s1 = Ok (tt, s2)).
    { rewrite (update_joint_ok _ _ _ x0 _ Hs1 eq_refl). subst s1 s2. cbn [bones root next_free].
      by rewrite insert_insert_eq. }
    unfold Ragdoll.deserializeRagdollJoint.
    rewrite <- !app_assoc.
    unfold mbind at 1, D_bind at 1. rewrite read_bool_app. cbn [negb].
    unfold mbind at 1, D_bind at 1.
    rewrite read_int_app by (destruct ps; simpl; lia).
    unfold mbind at 1, D_bind at 1. unfold on_state at 1.
    rewrite (changeRagdollBoneJoint_ok _ _ _ _ _ _ Hb Hpa Hpb Ht). fold x0 s1.
    unfold mbind at 1, D_bind at 1. rewrite read_app by done.
    unfold mbind at 1, D_bind at 1. rewrite read_app by done.
    unfold mbind at 1, D_bind at 1. unfold on_state at 1. rewrite Hup1.
    rewrite joint_type_of_code_code.
    destruct ps as [|limit flags| |]; try done; subst t; cbn [params_type] in *.
    + exists (Some x1). split.
      * rewrite app_nil_l. done.
      * simpl. repeat split; try done.
        apply params_fixed, new_joint_params_type.
    + destruct Hps as [Hlimit Hflags].
      exists (Some (with_params (RevoluteParams limit flags) x1)). split.
      * rewrite <- app_assoc.
        unfold mbind at 1, D_bind at 1. unfold on_state at 1.
        rewrite (joint_is_ok _ _ _ x1 _ Hs2 eq_refl)
          by (unfold getConcreteType; apply new_joint_params_type).
        unfold mbind at 1, D_bind at 1. rewrite read_app by done.
        unfold mbind at 1, D_bind at 1. rewrite read_u32_app by done.
        unfold on_state. rewrite (update_joint_ok _ _ _ x1 _ Hs2 eq_refl).
        subst s2. cbn [bones root next_free]. by rewrite insert_insert_eq.
      * simpl. done.
  - exists None. split; [|done].
    unfold Ragdoll.deserializeRagdollJoint.
    unfold mbind at 1, D_bind at 1. rewrite read_bool_app. cbn [negb].
    replace (with_parent_joint None b) with b
      by (rewrite <- Hnone; symmetry; apply with_parent_joint_same).
    rewrite insert_id by done. by rewrite state_eta.
Qed.


(** *** Trees laid out by the reader *)

Lemma laid_out_frame (h h' : gmap nat RagdollBone) (t : Tree) :
  ∀ lo par prv,
    (∀ a, (lo ≤ a < lo + bone_count t)%nat → h' !! a = h !! a) →
    laid_out h lo par prv t → laid_out h' lo par prv t.
Proof.
  induction t as [|idx act bind j c IHc n IHn]; intros lo par prv Hsame Hl; [done|].
  cbn [laid_out bone_count] in *.
  destruct Hl as (b & Hb & ? & ? & ? & ? & ? & ? & ? & ? & Hc & Hn).
  exists b. rewrite Hsame by lia. repeat split; try done.
  - apply IHc; [|done]. intros a Ha. apply Hsame. lia.
  - apply IHn; [|done]. intros a Ha. apply Hsame. lia.
Qed.

Lemma laid_out_tree_at (h : gmap nat RagdollBone) (t : Tree) :
  ∀ lo par prv, laid_out h lo par prv t → tree_at h (ptr_of lo t) par prv t.
Proof.
  induction t as [|idx act bind j c IHc n IHn]; intros lo par prv Hl; [done|].
  cbn [laid_out tree_at ptr_of] in *.
  destruct Hl as (b & Hb & ? & ? & ? & ? & ? & Hchild & Hnext & ? & Hc & Hn).
  exists lo, b. repeat split; try done.
  - rewrite Hchild. by apply IHc.
  - rewrite Hnext. by apply IHn.
Qed.

(** [if (bone->next) bone->next->prev = bone] on a tree just read. *)
Lemma set_prev_of_laid_out (s : State) (lo : nat) (par v : option nat) (n : Tree) :
  laid_out (bones s) lo par None n →
  ∃ h', set_prev_of (ptr_of lo n) v s = Ok (tt, mkState h' (root s) (next_free s)) ∧
        laid_out h' lo par v n ∧
        (∀ x, x ≠ lo → h' !! x = bones s !! x).
Proof.
  destruct n as [|idx act bind j cn nn]; intros Hl.
  - exists (bones s). cbn [ptr_of set_prev_of]. unfold mret, H_ret.
    by rewrite state_eta.
  - cbn [laid_out] in Hl.
    destruct Hl as (b & Hb & ? & ? & ? & ? & ? & ? & ? & ? & Hc & Hn).
    exists (<[lo := with_prev v b]> (bones s)). cbn [ptr_of set_prev_of].
    unfold set_prev. rewrite (update_bone_eq _ _ _ _ Hb). split; [done|]. split.
    + cbn [laid_out]. exists (with_prev v b). rewrite lookup_insert_eq.
      repeat split; try done.
      * apply (laid_out_frame (bones s)); [|done].
        intros a Ha. apply lookup_insert_ne. lia.
      * apply (laid_out_frame (bones s)); [|done].
        intros a Ha. apply lookup_insert_ne. lia.
    + intros x Hx. by apply lookup_insert_ne.
Qed.

Lemma actor_eta (act : Actor) : mkActor (global_pose act) (geometry act) = act.
Proof. by destruct act. Qed.


Lemma deserializeRagdollBone_tree (t : Tree) :
  ∀ (hp : bool) (par : option nat) (s : State) (rest : list byte) (fuel : nat),
    supported hp t →
    (hp = true → ∃ pa pb, par = Some pa ∧ (pa < next_free s)%nat ∧ bones s !! pa = Some pb) →
    (depth t < fuel)%nat →
    ∃ h', deserializeRagdollBone fuel par (s, tree_bytes t ++ rest)
          = Ok (ptr_of (next_free s) t,
                (mkState h' (root s) (next_free s + bone_count t), rest)) ∧
          laid_out h' (next_free s) par None t ∧
          (∀ a, (a < next_free s)%nat → h' !! a = bones s !! a).
Proof.
  induction t as [|idx act bind j c IHc n IHn]; intros hp par s rest fuel Hs Hpar Hfuel.
  - destruct fuel as [|fuel]; [lia|]. exists (bones s).
    cbn [Ragdoll.deserializeRagdollBone tree_bytes ptr_of bone_count laid_out].
    unfold mbind at 1, D_bind at 1. rewrite read_int_app by lia.
    rewrite decide_True by lia. unfold mret, D_ret.
    rewrite Nat.add_0_r, state_eta. done.
  - destruct fuel as [|fuel]; [lia|].
    destruct Hs as (Hidx & Hpose & Hbind & Hgeom & Hj & Hsc & Hsn).
    cbn [depth] in Hfuel.
    remember (next_free s) as a eqn:Ha.
    set (b0 := mkBone idx act None None None None par bind).
    (* the children *)
    destruct (IHc true (Some a) (mkState (<[a := b0]> (bones s)) (root s) (S a))
                (tree_bytes n ++ tree_joint_bytes j ++ rest) fuel Hsc)
      as (h2 & Hrun2 & Hlaid2 & Hframe2).
    { intros _. exists a, b0. split; [done|]. split; [simpl; lia|]. apply lookup_insert_eq. }
    { lia. }
    cbn [next_free root bones] in Hrun2, Hlaid2, Hframe2.
    assert (Hh2a : h2 !! a = Some b0).
    { rewrite Hframe2 by lia. apply lookup_insert_eq. }
    set (b3 := with_child (ptr_of (S a) c) b0).
    remember (S a + bone_count c)%nat as m eqn:Hm.
    (* the later siblings *)
    destruct (IHn hp par (mkState (<[a := b3]> h2) (root s) m)
                (tree_joint_bytes j ++ rest) fuel Hsn)
      as (h4 & Hrun4 & Hlaid4 & Hframe4).
    { intros Hhp. destruct (Hpar Hhp) as (pa & pb & -> & Hlt & Hpb).
      exists pa, pb. split; [done|]. split; [simpl; lia|].
      cbn [bones]. rewrite lookup_insert_ne by lia.
      rewrite Hframe2 by lia.
      rewrite lookup_insert_ne by lia. done. }
    { lia. }
    cbn [next_free root bones] in Hrun4, Hlaid4, Hframe4.
    assert (Hh4a : h4 !! a = Some b3).
    { rewrite Hframe4 by lia. apply lookup_insert_eq. }
    set (b5 := with_next (ptr_of m n) b3).
    assert (Hlaid5 : laid_out (<[a := b5]> h4) m par None n).
    { apply (laid_out_frame h4); [|done]. intros x Hx. apply lookup_insert_ne. lia. }
    destruct (set_prev_of_laid_out (mkState (<[a := b5]> h4) (root s) (m + bone_count n))
                m par (Some a) n Hlaid5) as (h6 & Hrun6 & Hlaid6 & Hframe6).
    cbn [next_free root bones] in Hrun6, Hframe6.
    assert (Hh6a : h6 !! a = Some b5).
    { rewrite Hframe6 by lia. apply lookup_insert_eq. }
    destruct (deserializeRagdollJoint_tree (mkState h6 (root s) (m + bone_count n))
                a b5 hp j rest Hh6a eq_refl Hj)
      as (pj & Hrun7 & Hjoint).
    { intros Hhp. destruct (Hpar Hhp) as (pa & pb & -> & Hlt & Hpb).
      exists pa, pb. split; [done|]. split; [lia|].
      cbn [bones]. rewrite Hframe6 by lia. rewrite lookup_insert_ne by lia.
      rewrite Hframe4 by lia. rewrite lookup_insert_ne by lia.
      rewrite Hframe2 by lia. rewrite lookup_insert_ne by lia. done. }
    cbn [bones root next_free] in Hrun7.
    exists (<[a := with_parent_joint pj b5]> h6). split; [|split].
    + cbn [Ragdoll.deserializeRagdollBone tree_bytes ptr_of bone_count].
      rewrite <- !app_assoc.
      unfold mbind at 1, D_bind at 1. rewrite read_int_app by lia.
      rewrite decide_False by lia.
      unfold mbind at 1, D_bind at 1. rewrite read_app by done.
      unfold mbind at 1, D_bind at 1. rewrite read_app by done.
      unfold mbind at 1, D_bind at 1. rewrite read_geometry_app by done.
      unfold mbind at 1, D_bind at 1. unfold on_state at 1, new_bone.
      rewrite actor_eta. rewrite <- Ha. fold b0.
      unfold mbind at 1, D_bind at 1. rewrite Hrun2.
      unfold mbind at 1, D_bind at 1. unfold on_state at 1, set_child.
      rewrite (update_bone_eq _ _ b0) by done. cbn [bones root next_free].
      fold b3.
      unfold mbind at 1, D_bind at 1. rewrite Hrun4.
      unfold mbind at 1, D_bind at 1. unfold on_state at 1, set_next.
      rewrite (update_bone_eq _ _ b3) by done. cbn [bones root next_free]. fold b5.
      unfold mbind at 1, D_bind at 1. unfold on_state at 1. rewrite Hrun6.
      unfold mbind at 1, D_bind at 1. rewrite Hrun7.
      unfold mret, D_ret. do 3 f_equal. f_equal. lia.
    + cbn [laid_out]. exists (with_parent_joint pj b5). rewrite lookup_insert_eq.
      rewrite <- Hm.
      repeat split; try done.
      * apply (laid_out_frame h2); [|done]. intros x Hx.
        rewrite lookup_insert_ne by lia. rewrite Hframe6 by lia.
        rewrite lookup_insert_ne by lia. rewrite Hframe4 by lia.
        apply lookup_insert_ne. lia.
      * apply (laid_out_frame h6); [|done]. intros x Hx.
        apply lookup_insert_ne. lia.
    + intros x Hx.
      rewrite lookup_insert_ne by lia. rewrite Hframe6 by lia.
      rewrite lookup_insert_ne by lia. rewrite Hframe4 by lia.
      rewrite lookup_insert_ne by lia. rewrite Hframe2 by lia.
      apply lookup_insert_ne. lia.
Qed.


Lemma depth_le_tree_bytes (t : Tree) : (depth t ≤ length (tree_bytes t))%nat.
Proof.
  induction t as [|idx act bind j c IHc n IHn]; [simpl; lia|].
  cbn [depth tree_bytes]. rewrite !length_app.
  unfold encode_i32 at 1. rewrite length_le_bytes. lia.
Qed.

(** X30.  Writing a ragdoll whose joints are fixed or revolute and reading the
    bytes back into an empty scene consumes all of them and gives a heap
    that holds the same tree: same shape and links, same indices, actors,
    bind transforms, and the same joints with their poses and parameters. *)
Theorem ragdoll_roundtrip (t : Tree) (s : State) (fuel : nat) :
  tree_at (bones s) (root s) None None t →
  supported false t →
  (depth t ≤ fuel)%nat →
  ∃ bs s', serializeRagdollBone fuel (bones s) (root s) = Ok bs ∧
           deserializeRagdoll bs = Ok (s', []) ∧
           tree_at (bones s') (root s') None None t.
Proof.
  intros Ht Hs Hfuel.
  destruct (deserializeRagdollBone_tree t false None empty_ragdoll []
              (S (length (tree_bytes t))) Hs) as (h' & Hrun & Hlaid & _).
  { discriminate. }
  { pose proof (depth_le_tree_bytes t). lia. }
  rewrite app_nil_r in Hrun. cbn [next_free root empty_ragdoll] in Hrun, Hlaid.
  exists (tree_bytes t), (mkState h' (ptr_of 0 t) (0 + bone_count t)).
  split; [by eapply serializeRagdollBone_tree|]. split.
  - unfold Ragdoll.deserializeRagdoll. unfold mbind, Res_bind. by rewrite Hrun.
  - cbn [bones root]. by apply laid_out_tree_at.
Qed.

End RoundTrip.

End RagdollRoundTrip.

Lemma to_int_small (z : Z) : - 2 ^ 31 ≤ z < 2 ^ 31 → to_int z = z.
Proof. intros Hz. unfold to_int. rewrite Z.mod_small by lia. lia. Qed.

(** ** The SDK byte streams *)

Module PhysxStreamFacts.
Import PhysxStream.

Lemma write_bytes_ok (buf : list byte) (off : Z) (bs : list byte) :
  0 ≤ off → off + Z.of_nat (length bs) ≤ Z.of_nat (length buf) →
  ∃ r, write_bytes buf off bs = Ok r ∧ length r = length buf ∧
       take (Z.to_nat off + length bs) r = take (Z.to_nat off) buf ++ bs.
Proof.
  intros Hoff Hfit. unfold write_bytes. rewrite decide_True by done.
  eexists. split; [done|]. split.
  - rewrite !length_app, length_take, length_drop. lia.
  - rewrite app_assoc. rewrite take_app_length'; [done|].
    rewrite length_app, length_take. lia.
Qed.

Section Facts.

Variable allocate : nat -> list byte.
Hypothesis allocate_length : ∀ n, length (allocate n) = n.

Lemma write_ok (s : OutputStream) (src : list byte) :
  stream_ok s →
  size s + Z.of_nat (length src) + 4096 < 2 ^ 31 →
  ∃ s', write allocate s src = Ok (s', Z.of_nat (length src)) ∧
        stream_ok s' ∧ written s' = written s ++ src ∧ capacity s ≤ capacity s' ∧
        size s' = size s + Z.of_nat (length src).
Proof.
  intros (Hsize & Hlen & Hcap) Hroom. unfold write. cbv zeta.
  rewrite (to_int_small (Z.of_nat (length src))) by lia.
  rewrite (to_int_small (size s + Z.of_nat (length src))) by lia.
  destruct (decide (size s + Z.of_nat (length src) > capacity s)) as [Hbig|Hfits].
  1: rewrite (to_int_small (capacity s + 4096)) by lia.
  - cbv zeta. unfold read_bytes. rewrite decide_True by lia.
    unfold mbind, Res_bind. rewrite drop_0.
    destruct (write_bytes_ok
                (allocate (Z.to_nat (Z.max (size s + Z.of_nat (length src)) (capacity s + 4096))))
                0 (take (Z.to_nat (size s)) (data s))) as (r & -> & Hr & Htake).
    { lia. }
    { rewrite allocate_length, length_take. lia. }
    cbn [data capacity size].
    rewrite length_take in Htake. simpl in Htake.
    replace (Z.to_nat (size s) `min` length (data s))%nat with (Z.to_nat (size s)) in Htake by lia.
    rewrite allocate_length in Hr.
    destruct (write_bytes_ok r (size s) src) as (d & -> & Hd & Htake'); [lia|lia|].
    eexists. split; [done|]. unfold stream_ok, written. cbn [data capacity size].
    rewrite !(to_int_small (size s + Z.of_nat (length src))) by lia.
    rewrite Hd, Hr. repeat split; try lia.
    replace (Z.to_nat (size s + Z.of_nat (length src)))
      with (Z.to_nat (size s) + length src)%nat by lia.
    by rewrite Htake', Htake.
  - unfold mbind, Res_bind.
    destruct (write_bytes_ok (data s) (size s) src) as (d & -> & Hd & Htake); [lia|lia|].
    eexists. split; [done|]. unfold stream_ok, written. cbn [data capacity size].
    rewrite !(to_int_small (size s + Z.of_nat (length src))) by lia.
    rewrite Hd. repeat split; try lia.
    replace (Z.to_nat (size s + Z.of_nat (length src)))
      with (Z.to_nat (size s) + length src)%nat by lia.
    done.
Qed.

Lemma write_all_ok (chunks : list (list byte)) :
  ∀ s, stream_ok s →
  size s + Z.of_nat (length (concat chunks)) + 4096 < 2 ^ 31 →
  ∃ s', write_all allocate s chunks = Ok s' ∧ stream_ok s' ∧
        written s' = written s ++ concat chunks ∧ capacity s ≤ capacity s'.
Proof.
  induction chunks as [|c rest IH]; intros s Hs Hroom.
  - exists s. simpl. by rewrite app_nil_r.
  - cbn [concat] in Hroom. rewrite length_app in Hroom.
    destruct (write_ok s c Hs) as (s1 & Hw & Hs1 & Hwr1 & Hcap1 & Hsz1); [lia|].
    destruct (IH s1 Hs1) as (s2 & Hrun & Hs2 & Hwr2 & Hcap2); [lia|].
    exists s2. cbn [write_all]. unfold mbind, Res_bind. rewrite Hw.
    split; [done|]. split; [done|]. split; [|lia].
    rewrite Hwr2, Hwr1. simpl. by rewrite <- app_assoc.
Qed.

Lemma OutputStream_new_ok : stream_ok (OutputStream_new allocate).
Proof. unfold stream_ok, OutputStream_new. simpl. rewrite allocate_length. lia. Qed.

(** X1.  Whatever is written to a new [OutputStream], in any number of
    writes whose sizes stay 4096 below the range of [int] in total, every
    write succeeds and the stream holds exactly the bytes written, in
    order: growing the buffer loses nothing, [size] is their number and
    never exceeds [capacity], which stays the length of the buffer, at
    least 4096 and at most 4096 more than [size]. *)
Theorem OutputStream_holds_what_was_written (chunks : list (list byte)) :
  Z.of_nat (length (concat chunks)) + 4096 < 2 ^ 31 →
  ∃ s, write_all allocate (OutputStream_new allocate) chunks = Ok s ∧
       written s = concat chunks ∧
       size s = Z.of_nat (length (concat chunks)) ∧
       stream_ok s.
Proof.
  intros Hroom.
  destruct (write_all_ok chunks _ OutputStream_new_ok) as (s & Hrun & Hs & Hw & _);
    [simpl; lia|].
  exists s. split; [done|].
  assert (Hw' : written s = concat chunks) by (rewrite Hw; done).
  split; [done|]. split; [|done].
  destruct Hs as (Hsize & Hlen & _). apply (f_equal length) in Hw'.
  unfold written in Hw'. rewrite length_take in Hw'. lia.
Qed.

End Facts.

Lemma read_bytes_ok (buf : list byte) (at_ n : Z) :
  0 ≤ at_ → 0 ≤ n → at_ + n ≤ Z.of_nat (length buf) →
  read_bytes buf at_ n = Ok (take (Z.to_nat n) (drop (Z.to_nat at_) buf)).
Proof. intros. unfold read_bytes. by rewrite decide_True. Qed.

(** X2.  A read from an [InputStream] whose position is within its size,
    with a count that does not carry [pos + count] out of the range of
    [int], returns the next [min(count, size - pos)] bytes and advances by
    that many: it never reads or moves past [size], and at the end it
    returns a short (possibly empty) block. *)
Theorem InputStream_read_bounded (s : InputStream) (count : Z) :
  input_ok s → 0 ≤ count → in_pos s + count < 2 ^ 31 →
  ∃ bs s',
    read s count = Ok (bs, s', Z.min count (in_size s - in_pos s)) ∧
    bs = take (Z.to_nat (Z.min count (in_size s - in_pos s)))
              (drop (Z.to_nat (in_pos s)) (in_data s)) ∧
    Z.of_nat (length bs) = Z.min count (in_size s - in_pos s) ∧
    in_pos s' = in_pos s + Z.min count (in_size s - in_pos s) ∧
    in_data s' = in_data s ∧ in_size s' = in_size s ∧ input_ok s'.
Proof.
  intros ((Hpos0 & Hpos) & Hsize & Hint) Hcount Hsum. unfold read.
  rewrite (to_int_small count) by lia.
  rewrite !(to_int_small (in_pos s + count)) by lia.
  rewrite (to_int_small (in_size s - in_pos s)) by lia. cbv zeta.
  destruct (decide (in_pos s + count ≤ in_size s)) as [Hfit|Hshort].
  - rewrite Z.min_l by lia. rewrite read_bytes_ok by lia.
    eexists _, _. split; [done|]. split; [done|].
    rewrite length_take, length_drop. unfold input_ok. cbn [in_pos in_size in_data].
    repeat split; lia.
  - rewrite Z.min_r by lia. rewrite read_bytes_ok by lia.
    eexists _, _. split; [done|]. split; [done|].
    rewrite length_take, length_drop. unfold input_ok. cbn [in_pos in_size in_data].
    repeat split; lia.
Qed.

Lemma InputStream_read_bounded_witness :
  ∃ bs s',
    read (mkInputStream [x01; x02; x03; x04; x05] 4 3) 2 = Ok (bs, s', Z.min 2 (4 - 3)) ∧
    bs = take (Z.to_nat (Z.min 2 (4 - 3))) (drop (Z.to_nat 3) [x01; x02; x03; x04; x05]) ∧
    Z.of_nat (length bs) = Z.min 2 (4 - 3) ∧
    in_pos s' = 3 + Z.min 2 (4 - 3) ∧
    in_data s' = [x01; x02; x03; x04; x05] ∧ in_size s' = 4 ∧ input_ok s'.
Proof.
  apply (InputStream_read_bounded (mkInputStream [x01; x02; x03; x04; x05] 4 3) 2).
  - unfold input_ok. simpl. lia.
  - lia.
  - simpl. lia.
Defined.

Lemma read_all_concat (chunks : list (list byte)) :
  ∀ (pre post : list byte) (sz : Z),
    Z.of_nat (length pre) + Z.of_nat (length (concat chunks)) ≤ sz →
    sz ≤ Z.of_nat (length (pre ++ concat chunks ++ post)) →
    sz < 2 ^ 31 →
    ∃ s', read_all (mkInputStream (pre ++ concat chunks ++ post) sz (Z.of_nat (length pre)))
                   (map (λ c, Z.of_nat (length c)) chunks) = Ok (chunks, s') ∧
          in_pos s' = Z.of_nat (length pre) + Z.of_nat (length (concat chunks)) ∧
          in_size s' = sz ∧ in_data s' = pre ++ concat chunks ++ post.
Proof.
  induction chunks as [|c rest IH]; intros pre post sz Hfit Hsz Hint.
  - eexists. split; [done|]. simpl. repeat split; lia.
  - assert (Hcat : pre ++ concat (c :: rest) ++ post = pre ++ c ++ concat rest ++ post)
      by (simpl; by rewrite <- !app_assoc).
    rewrite Hcat in *. cbn [concat] in Hfit. rewrite length_app in Hfit. cbn [concat].
    cbn [map read_all]. unfold mbind, Res_bind, read. cbn [in_pos in_size in_data].
    rewrite (to_int_small (Z.of_nat (length c))) by lia.
    rewrite !(to_int_small (Z.of_nat (length pre) + Z.of_nat (length c))) by lia.
    rewrite decide_True by lia.
    rewrite read_bytes_ok by (rewrite ?length_app in *; lia).
    rewrite !Nat2Z.id. rewrite drop_app_length, take_app_length.
    destruct (IH (pre ++ c) post sz) as (s' & Hrun & Hpos & Hsz' & Hdata).
    { rewrite length_app. lia. }
    { by rewrite <- !app_assoc. }
    { done. }
    rewrite <- app_assoc in Hrun, Hdata. rewrite length_app in Hrun, Hpos.
    rewrite Nat2Z.inj_add in Hrun. unfold mbind, Res_bind. rewrite Hrun.
    eexists. split; [done|]. rewrite Hpos, Hsz', Hdata, !length_app.
    repeat split; lia.
Qed.

Section RoundTrip.

Variable allocate : nat -> list byte.
Hypothesis allocate_length : ∀ n, length (allocate n) = n.

(** X3.  What is written to a new [OutputStream] in a run of writes, 4096
    below the range of [int] in total, is read back block by block from an
    [InputStream] over the stream's buffer and size: the reads return the
    blocks written, end at the stream's size, and one more read returns
    nothing. *)
Theorem stream_roundtrip (chunks : list (list byte)) :
  Z.of_nat (length (concat chunks)) + 4096 < 2 ^ 31 →
  ∃ s i,
    write_all allocate (OutputStream_new allocate) chunks = Ok s ∧
    read_all (InputStream_new (data s) (size s)) (map (λ c, Z.of_nat (length c)) chunks)
    = Ok (chunks, i) ∧
    in_pos i = size s ∧
    read i 1 = Ok ([], i, 0).
Proof.
  intros Hroom.
  destruct (write_all_ok allocate allocate_length chunks _
              (OutputStream_new_ok allocate allocate_length))
    as (s & Hrun & (Hsize & Hlen & Hcap) & Hw & _); [simpl; lia|].
  assert (Hw' : written s = concat chunks) by (rewrite Hw; done).
  assert (Hsz : size s = Z.of_nat (length (concat chunks))).
  { apply (f_equal length) in Hw'. unfold written in Hw'. rewrite length_take in Hw'. lia. }
  assert (Hdata : data s = [] ++ concat chunks ++ drop (Z.to_nat (size s)) (data s)).
  { rewrite <- Hw'. unfold written. simpl. by rewrite take_drop. }
  destruct (read_all_concat chunks [] (drop (Z.to_nat (size s)) (data s)) (size s))
    as (i & Hread & Hpos & Hisz & Hidata).
  { simpl. lia. }
  { rewrite <- Hdata. lia. }
  { lia. }
  exists s, i. split; [done|]. unfold InputStream_new. rewrite Hdata at 1.
  split; [done|]. simpl in Hpos. split; [lia|].
  unfold read. rewrite (to_int_small 1) by lia.
  rewrite (to_int_small (in_pos i + 1)) by lia.
  rewrite (to_int_small (in_size i - in_pos i)) by lia. cbv zeta.
  rewrite decide_False by lia.
  rewrite read_bytes_ok by (rewrite ?Hidata, <- ?Hdata; lia).
  replace (in_size i - in_pos i) with 0 by lia.
  assert (Hend : in_size i = in_pos i) by lia.
  destruct i as [d sz p]. cbn [in_data in_size in_pos] in *. by rewrite Hend.
Qed.

End RoundTrip.

Lemma OutputStream_holds_what_was_written_witness :
  ∃ s, write_all allocate_cd (OutputStream_new allocate_cd) three_chunks = Ok s ∧
       written s = concat three_chunks ∧
       size s = Z.of_nat (length (concat three_chunks)) ∧
       stream_ok s.
Proof.
  apply (OutputStream_holds_what_was_written allocate_cd).
  - intros n. apply length_replicate.
  - vm_compute. reflexivity.
Defined.

Lemma stream_roundtrip_witness :
  ∃ s i,
    write_all allocate_cd (OutputStream_new allocate_cd) three_chunks = Ok s ∧
    read_all (InputStream_new (data s) (size s)) (map (λ c, Z.of_nat (length c)) three_chunks)
    = Ok (three_chunks, i) ∧
    in_pos i = size s ∧
    read i 1 = Ok ([], i, 0).
Proof.
  apply (stream_roundtrip allocate_cd).
  - intros n. apply length_replicate.
  - vm_compute. reflexivity.
Defined.

End PhysxStreamFacts.

(** * Collision layers, controllers and queued forces *)

Module PhysicsFacts.
Import Physics.

(** ** Bits of the filter words *)

Lemma testbit_bit (l i : Z) :
  0 ≤ l → 0 ≤ i → Z.testbit (Z.shiftl 1 l) i = bool_decide (i = l).
Proof.
  intros Hl Hi. rewrite Z.shiftl_1_l.
  case_bool_decide as E.
  - subst i. by apply Z.pow2_bits_true.
  - apply Z.pow2_bits_false. congruence.
Qed.

Lemma land_bit (f l : Z) :
  0 ≤ l → (Z.land f (Z.shiftl 1 l) =? 0) = negb (Z.testbit f l).
Proof.
  intros Hl. destruct (Z.testbit f l) eqn:Hf; simpl.
  - apply Z.eqb_neq. intros H0.
    assert (Z.testbit (Z.land f (Z.shiftl 1 l)) l = true) as Hb.
    { rewrite Z.land_spec, Hf, testbit_bit by lia. by rewrite bool_decide_eq_true_2. }
    rewrite H0, Z.bits_0 in Hb. discriminate.
  - apply Z.eqb_eq. apply Z.bits_inj'. intros i Hi.
    rewrite Z.land_spec, Z.bits_0, testbit_bit by lia.
    case_bool_decide; [subst; by rewrite Hf|by rewrite andb_false_r].
Qed.

Lemma testbit_u32_not (x i : Z) :
  0 ≤ i < 32 → Z.testbit (u32_not x) i = negb (Z.testbit x i).
Proof.
  intros Hi. unfold u32_not.
  rewrite Z.mod_pow2_bits_low by lia. apply Z.lnot_spec. lia.
Qed.

Lemma bit_ok (l : Z) : layer_ok l → bit l = Ok (Z.shiftl 1 l).
Proof. intros Hl. unfold bit. unfold layer_ok, layers_capacity in Hl. by rewrite decide_True. Qed.

Lemma bit_inv (l b : Z) : bit l = Ok b → layer_ok l ∧ b = Z.shiftl 1 l.
Proof.
  unfold bit. case_decide; [|done]. intros [= <-]. by unfold layer_ok, layers_capacity.
Qed.

(** ** Arrays *)

Lemma array_get_ok {A} (l : list A) (i : Z) :
  0 ≤ i < Z.of_nat (length l) → ∃ x, array_get l i = Ok x ∧ l !! Z.to_nat i = Some x.
Proof.
  intros Hi. unfold array_get. rewrite decide_True by lia.
  destruct (lookup_lt_is_Some_2 l (Z.to_nat i)) as [x Hx]; [lia|].
  exists x. by rewrite Hx.
Qed.

Lemma array_get_inv {A} (l : list A) (i : Z) (x : A) :
  array_get l i = Ok x → 0 ≤ i < Z.of_nat (length l) ∧ l !! Z.to_nat i = Some x.
Proof.
  unfold array_get. case_decide; [|done].
  destruct (l !! Z.to_nat i) eqn:E; [|done]. intros [= <-].
  apply lookup_lt_Some in E. split; [lia|done].
Qed.

Lemma array_set_ok {A} (l : list A) (i : Z) (v : A) :
  0 ≤ i < Z.of_nat (length l) → array_set l i v = Ok (<[Z.to_nat i := v]> l).
Proof. intros Hi. unfold array_set. by rewrite decide_True. Qed.

Lemma array_set_inv {A} (l l' : list A) (i : Z) (v : A) :
  array_set l i v = Ok l' → 0 ≤ i < Z.of_nat (length l) ∧ l' = <[Z.to_nat i := v]> l.
Proof. unfold array_set. case_decide; [|done]. by intros [= <-]. Qed.

Lemma canLayersCollide_collide (s : Scene) (a b : Z) :
  0 ≤ a < Z.of_nat (length (m_collision_filter s)) → layer_ok b →
  canLayersCollide a b s = Ok (collide (m_collision_filter s) a b).
Proof.
  intros Ha Hb. unfold canLayersCollide, collide.
  destruct (array_get_ok (m_collision_filter s) a Ha) as (f & -> & ->). simpl.
  rewrite (bit_ok _ Hb). simpl. unfold layer_ok in Hb.
  rewrite land_bit by lia. by rewrite negb_involutive.
Qed.

Lemma canLayersCollide_length (s s' : Scene) (a b : Z) :
  length (m_collision_filter s') = length (m_collision_filter s) →
  layer_ok a → layer_ok b →
  collide (m_collision_filter s') a b = collide (m_collision_filter s) a b →
  canLayersCollide a b s' = canLayersCollide a b s.
Proof.
  intros Hlen Ha Hb Hc.
  destruct (decide (a < Z.of_nat (length (m_collision_filter s)))) as [Hlt|Hge].
  - rewrite !canLayersCollide_collide; unfold layer_ok in *; try lia. by rewrite Hc.
  - unfold canLayersCollide, array_get. unfold layer_ok in Ha.
    rewrite !decide_True by lia.
    rewrite (lookup_ge_None_2 (m_collision_filter s')) by lia.
    by rewrite (lookup_ge_None_2 (m_collision_filter s)) by lia.
Qed.

(** ** Traversals *)

Lemma traverse_inv {A B} (f : A → Res B) (l : list A) (ys : list B) :
  traverse f l = Ok ys → Forall2 (λ x y, f x = Ok y) l ys.
Proof.
  revert ys. induction l as [|x l IH]; intros ys; simpl.
  - intros [= <-]. constructor.
  - destruct (f x) as [y|] eqn:Hy; [|done]. simpl.
    destruct (traverse f l) as [ys'|] eqn:Hys; [|done]. simpl.
    intros [= <-]. constructor; [done|by apply IH].
Qed.

Lemma traverse_ok {A B} (f : A → Res B) (l : list A) :
  Forall (λ x, ∃ y, f x = Ok y) l → ∃ ys, traverse f l = Ok ys.
Proof.
  induction 1 as [|x l [y Hy] _ [ys Hys]]; simpl; [by eexists|].
  rewrite Hy. simpl. rewrite Hys. simpl. by eexists.
Qed.

Lemma traverse_err {A B} (f : A → Res B) (l : list A) (e : Fault) :
  Forall (λ x, (∃ y, f x = Ok y) ∨ f x = Err e) l →
  Exists (λ x, f x = Err e) l →
  traverse f l = Err e.
Proof.
  induction 1 as [|x l Hx Hl IH]; intros Hex; [by apply Exists_nil in Hex|].
  simpl. destruct Hx as [[y Hy]|Hx]; [|by rewrite Hx].
  rewrite Hy. simpl. apply Exists_cons in Hex as [Hex|Hex]; [congruence|].
  by rewrite (IH Hex).
Qed.

Lemma Forall_Exists_both {A} (P Q : A → Prop) (l : list A) :
  Forall P l → Exists Q l → Exists (λ x, P x ∧ Q x) l.
Proof.
  induction 1 as [|x l HP Hl IH]; intros HQ; [by apply Exists_nil in HQ|].
  apply Exists_cons in HQ as [HQ|HQ]; [by left|right; by apply IH].
Qed.

Lemma Forall2_right {A B} (R : A → B → Prop) (Q : B → Prop) (l : list A) (k : list B) :
  Forall2 R l k → (∀ x y, R x y → Q y) → Forall Q k.
Proof. induction 1; intros HQ; constructor; eauto. Qed.

(** ** [updateFilterData] *)

Lemma filter_data_ok (filter : list Z) (l : Z) :
  length filter = 32%nat → layer_ok l → ∃ data, filter_data filter l = Ok data.
Proof.
  intros Hlen Hl. unfold filter_data. rewrite (bit_ok _ Hl). simpl.
  destruct (array_get_ok filter l) as (w & -> & _).
  { unfold layer_ok, layers_capacity in Hl. lia. }
  by eexists.
Qed.

Lemma filter_data_inv (filter : list Z) (l : Z) (data : FilterData) :
  filter_data filter l = Ok data →
  layer_ok l ∧ word0 data = Z.shiftl 1 l ∧ filter !! Z.to_nat l = Some (word1 data).
Proof.
  unfold filter_data. destruct (bit l) as [b|] eqn:Hb; [|done]. simpl.
  destruct (array_get filter l) as [w|] eqn:Hw; [|done]. simpl.
  intros [= <-]. simpl. apply bit_inv in Hb as [? ->]. by apply array_get_inv in Hw as [_ ?].
Qed.

Lemma take_set_shapes (data : FilterData) (a : PxActor) :
  Forall (λ d, d = data) (take 8 (set_shapes data a)).
Proof.
  unfold set_shapes.
  destruct (decide (8 ≤ length a)%nat) as [Hle|Hlt].
  - rewrite take_app_le by (rewrite length_fmap, length_take; lia).
    apply Forall_take, Forall_fmap, Forall_true. done.
  - rewrite (drop_ge a) by lia. rewrite app_nil_r.
    apply Forall_take, Forall_fmap, Forall_true. done.
Qed.

Lemma drop_set_shapes (data : FilterData) (a : PxActor) :
  drop 8 (set_shapes data a) = drop 8 a.
Proof.
  unfold set_shapes.
  destruct (decide (8 ≤ length a)%nat) as [Hle|Hlt].
  - rewrite drop_app_length'; [done|]. rewrite length_fmap, length_take. lia.
  - rewrite (drop_ge a) by lia. rewrite app_nil_r.
    apply drop_ge. rewrite length_fmap, length_take. lia.
Qed.

Lemma length_set_shapes (data : FilterData) (a : PxActor) :
  length (set_shapes data a) = length a.
Proof.
  unfold set_shapes. rewrite length_app, length_fmap, length_take, length_drop. lia.
Qed.

Lemma sync_actor_inv (filter : list Z) (ka ka' : Z * RigidActor) :
  sync_actor filter ka = Ok ka' →
  actor_in_sync filter ka' ∧ ka'.1 = ka.1 ∧ layer ka'.2 = layer ka.2 ∧
  is_dynamic ka'.2 = is_dynamic ka.2 ∧ entity ka'.2 = entity ka.2 ∧
  ∃ a a', physx_actor ka.2 = Some a ∧ physx_actor ka'.2 = Some a' ∧
          length a' = length a ∧ drop 8 a' = drop 8 a.
Proof.
  unfold sync_actor. destruct (filter_data filter (layer ka.2)) as [data|] eqn:Hd; [|done].
  simpl. destruct (physx_actor ka.2) as [a|] eqn:Ha; [|done]. simpl.
  intros [= <-]. simpl. split; [|repeat split; try done].
  - exists (set_shapes data a). split; [done|]. exists data. split; [done|].
    apply take_set_shapes.
  - exists a, (set_shapes data a). repeat split; [apply length_set_shapes|apply drop_set_shapes].
Qed.

Lemma sync_controller_inv (filter : list Z) (c c' : Controller) :
  sync_controller filter c = Ok c' →
  controller_in_sync filter c' ∧ m_entity c' = m_entity c ∧ m_layer c' = m_layer c ∧
  m_is_free c' = m_is_free c.
Proof.
  unfold sync_controller. destruct (m_is_free c) eqn:Hfree.
  - intros [= <-]. repeat split; try done. intros ?. congruence.
  - destruct (filter_data filter (m_layer c)) as [data|] eqn:Hd; [|done]. simpl.
    intros [= <-]. repeat split; try done. intros _. exists data. split; [done|].
    apply take_set_shapes.
Qed.

Lemma sync_terrain_inv (filter : list Z) (t t' : option Heightfield.t) :
  sync_terrain filter t = Ok t' → terrain_in_sync filter t'.
Proof.
  unfold sync_terrain. destruct t as [t|]; [|by intros [= <-] ? ? ?].
  destruct (Heightfield.m_actor t) as [a|] eqn:Ha.
  - destruct (filter_data filter (Heightfield.m_layer t)) as [data|] eqn:Hd; [|done]. simpl.
    intros [= <-] u a' [= <-]. simpl. intros [= <-]. exists data. split; [done|].
    apply take_set_shapes.
  - intros [= <-] u a' [= <-]. congruence.
Qed.

Lemma updateFilterData_inv (s s' : Scene) :
  updateFilterData s = Ok s' →
  in_sync s' ∧ m_collision_filter s' = m_collision_filter s ∧
  m_layers_count s' = m_layers_count s ∧
  Forall2 (λ ka ka', sync_actor (m_collision_filter s) ka = Ok ka') (m_actors s) (m_actors s') ∧
  Forall2 (λ c c', sync_controller (m_collision_filter s) c = Ok c')
          (m_controllers s) (m_controllers s').
Proof.
  unfold updateFilterData.
  destruct (traverse (sync_actor _) _) as [actors|] eqn:Ha; [|done]. simpl.
  destruct (traverse (sync_controller _) _) as [controllers|] eqn:Hc; [|done]. simpl.
  destruct (traverse (sync_terrain _) _) as [terrains|] eqn:Ht; [|done]. simpl.
  intros [= <-]. simpl.
  apply traverse_inv in Ha, Hc, Ht.
  repeat split; try done; unfold in_sync; simpl.
  - apply (Forall2_right _ _ _ _ Ha). intros ka ka' H.
    by apply sync_actor_inv in H as [? _].
  - apply (Forall2_right _ _ _ _ Hc). intros c c' H.
    by apply sync_controller_inv in H as [? _].
  - apply (Forall2_right _ _ _ _ Ht). intros t t' H.
    by apply sync_terrain_inv in H.
Qed.

Lemma updateFilterData_ok (s : Scene) :
  scene_ok s → ∃ s', updateFilterData s = Ok s'.
Proof.
  intros (Hlen & Ha & Hc & Ht). unfold updateFilterData.
  destruct (traverse_ok (sync_actor (m_collision_filter s)) (m_actors s)) as [actors ->].
  { apply Forall_impl with (1:=Ha). intros ka [Hl [a Hpa]]. unfold sync_actor.
    destruct (filter_data_ok _ _ Hlen Hl) as [data ->]. simpl. rewrite Hpa. simpl. by eexists. }
  simpl.
  destruct (traverse_ok (sync_controller (m_collision_filter s)) (m_controllers s))
    as [controllers ->].
  { apply Forall_impl with (1:=Hc). intros c Hok. unfold sync_controller.
    destruct (m_is_free c) eqn:Hfree; [by eexists|].
    destruct (filter_data_ok _ _ Hlen (Hok Hfree)) as [data ->]. simpl. by eexists. }
  simpl.
  destruct (traverse_ok (sync_terrain (m_collision_filter s)) (m_terrains s)) as [terrains ->].
  { apply Forall_impl with (1:=Ht). intros t Hok. unfold sync_terrain.
    destruct t as [t|]; [|by eexists].
    destruct (Heightfield.m_actor t) as [a|] eqn:Hact; [|by eexists].
    destruct (filter_data_ok _ _ Hlen (Hok t eq_refl (ltac:(by rewrite Hact)))) as [data ->].
    simpl. by eexists. }
  simpl. by eexists.
Qed.

(** ** [setLayersCanCollide] *)

(** The filter words [setLayersCanCollide] leaves behind. *)
Lemma setLayersCanCollide_filter (s s' : Scene) (l1 l2 : Z) (b : bool) :
  setLayersCanCollide l1 l2 b s = Ok s' →
  layer_ok l1 ∧ layer_ok l2 ∧
  length (m_collision_filter s') = length (m_collision_filter s) ∧
  l1 < Z.of_nat (length (m_collision_filter s)) ∧
  l2 < Z.of_nat (length (m_collision_filter s)) ∧
  in_sync s' ∧
  ∀ a c, layer_ok a → layer_ok c →
    collide (m_collision_filter s') a c =
    if bool_decide ((a = l1 ∧ c = l2) ∨ (a = l2 ∧ c = l1)) then b
    else collide (m_collision_filter s) a c.
Proof.
  unfold setLayersCanCollide.
  destruct (array_get _ l1) as [f1|] eqn:Hf1; [|done]. simpl.
  destruct (bit l2) as [b2|] eqn:Hb2; [|done]. simpl.
  destruct (array_set _ l1 _) as [filter1|] eqn:Hs1; [|done]. simpl.
  destruct (array_get filter1 l2) as [f2|] eqn:Hf2; [|done]. simpl.
  destruct (bit l1) as [b1|] eqn:Hb1; [|done]. simpl.
  destruct (array_set filter1 l2 _) as [filter2|] eqn:Hs2; [|done]. simpl.
  intros Hupd. apply updateFilterData_inv in Hupd as (Hsync & Hfilter & _). simpl in Hfilter.
  apply bit_inv in Hb1 as [Hl1 ->]. apply bit_inv in Hb2 as [Hl2 ->].
  apply array_get_inv in Hf1 as [Hr1 Hf1]. apply array_get_inv in Hf2 as [Hr2 Hf2].
  apply array_set_inv in Hs1 as [_ ->]. apply array_set_inv in Hs2 as [_ ->].
  rewrite length_insert in Hr2.
  split; [done|]. split; [done|].
  split; [by rewrite Hfilter, !length_insert|].
  split; [lia|]. split; [lia|]. split; [done|].
  intros a c Ha Hc. rewrite Hfilter. unfold collide.
  unfold layer_ok, layers_capacity in *.
  assert (∀ f l, 0 ≤ l < 32 →
    Z.testbit (if b then Z.lor f (Z.shiftl 1 l) else Z.land f (u32_not (Z.shiftl 1 l))) c
    = if bool_decide (c = l) then b else Z.testbit f c) as Hop.
  { intros f l Hl. destruct b.
    - rewrite Z.lor_spec, testbit_bit by lia. case_bool_decide; [apply orb_true_r|apply orb_false_r].
    - rewrite Z.land_spec, testbit_u32_not, testbit_bit by lia.
      case_bool_decide; [apply andb_false_r|apply andb_true_r]. }
  destruct (decide (a = l2)) as [->|Hne2].
  - rewrite list_lookup_insert_eq by (rewrite length_insert; lia). simpl.
    rewrite Hop by lia.
    destruct (decide (c = l1)) as [->|Hne1].
    + rewrite !bool_decide_eq_true_2; [done|by right|done].
    + rewrite (bool_decide_eq_false_2 (c = l1)) by done.
      destruct (decide (l2 = l1)) as [->|Hne].
      * rewrite list_lookup_insert_eq in Hf2 by lia. injection Hf2 as <-.
        rewrite Hop by lia. rewrite (bool_decide_eq_false_2 (c = l1)) by done.
        rewrite bool_decide_eq_false_2 by (intros [[? ?]|[? ?]]; congruence). by rewrite Hf1.
      * rewrite list_lookup_insert_ne in Hf2 by lia.
        rewrite bool_decide_eq_false_2 by (intros [[? ?]|[? ?]]; congruence). by rewrite Hf2.
  - rewrite list_lookup_insert_ne by lia.
    destruct (decide (a = l1)) as [->|Hne1].
    + rewrite list_lookup_insert_eq by lia. simpl. rewrite Hop by lia.
      case_bool_decide as E1.
      * subst c. rewrite bool_decide_eq_true_2; [done|by left].
      * rewrite bool_decide_eq_false_2 by (intros [[? ?]|[? ?]]; congruence). by rewrite Hf1.
    + rewrite list_lookup_insert_ne by lia.
      by rewrite bool_decide_eq_false_2 by (intros [[? ?]|[? ?]]; congruence).
Qed.

Lemma setLayersCanCollide_ok (s : Scene) (l1 l2 : Z) (b : bool) :
  scene_ok s → layer_ok l1 → layer_ok l2 → ∃ s', setLayersCanCollide l1 l2 b s = Ok s'.
Proof.
  intros Hok Hl1 Hl2. pose proof Hok as (Hlen & Ha & Hc & Ht).
  unfold setLayersCanCollide.
  assert (0 ≤ l1 < Z.of_nat (length (m_collision_filter s))) as Hr1
    by (unfold layer_ok, layers_capacity in Hl1; lia).
  assert (0 ≤ l2 < Z.of_nat (length (m_collision_filter s))) as Hr2
    by (unfold layer_ok, layers_capacity in Hl2; lia).
  destruct (array_get_ok _ _ Hr1) as (f1 & -> & _). simpl.
  rewrite (bit_ok _ Hl2). simpl.
  rewrite array_set_ok by done. simpl.
  destruct (array_get_ok (<[Z.to_nat l1 := if b then Z.lor f1 (Z.shiftl 1 l2)
                            else Z.land f1 (u32_not (Z.shiftl 1 l2))]> (m_collision_filter s)) l2)
    as (f2 & -> & _); [by rewrite length_insert|]. simpl.
  rewrite (bit_ok _ Hl1). simpl.
  rewrite array_set_ok by (by rewrite length_insert). simpl.
  apply updateFilterData_ok. repeat split; simpl; try done.
  by rewrite !length_insert.
Qed.

(** X4.  After [setLayersCanCollide(layer1, layer2, can_collide)] on a scene
    whose actors all have a PhysX actor and a layer in range,
    [canLayersCollide] answers [can_collide] for the pair, in either
    order. *)
Theorem setLayersCanCollide_then_canLayersCollide (s : Scene) (l1 l2 : Z) (b : bool) :
  scene_ok s → layer_ok l1 → layer_ok l2 →
  ∃ s', setLayersCanCollide l1 l2 b s = Ok s' ∧
        canLayersCollide l1 l2 s' = Ok b ∧ canLayersCollide l2 l1 s' = Ok b.
Proof.
  intros Hok Hl1 Hl2. destruct (setLayersCanCollide_ok s l1 l2 b Hok Hl1 Hl2) as [s' Hs'].
  exists s'. split; [done|].
  destruct (setLayersCanCollide_filter _ _ _ _ _ Hs') as (_ & _ & Hlen & Hr1 & Hr2 & _ & Hbits).
  unfold layer_ok in Hl1, Hl2.
  rewrite !canLayersCollide_collide by (done || lia).
  rewrite !Hbits by done. rewrite !bool_decide_eq_true_2; [done|by right|by left].
Qed.

(** X5.  [setLayersCanCollide] changes the answer of [canLayersCollide] for
    no other pair of layers. *)
Theorem setLayersCanCollide_other_pairs (s s' : Scene) (l1 l2 a c : Z) (b : bool) :
  setLayersCanCollide l1 l2 b s = Ok s' →
  layer_ok a → layer_ok c →
  ¬ (a = l1 ∧ c = l2) → ¬ (a = l2 ∧ c = l1) →
  canLayersCollide a c s' = canLayersCollide a c s.
Proof.
  intros Hs' Ha Hc H1 H2.
  destruct (setLayersCanCollide_filter _ _ _ _ _ Hs') as (_ & _ & Hlen & _ & _ & _ & Hbits).
  apply canLayersCollide_length; try done.
  rewrite Hbits by done. by rewrite bool_decide_eq_false_2 by tauto.
Qed.

(** X6.  A filter that is symmetric stays symmetric under
    [setLayersCanCollide]. *)
Theorem setLayersCanCollide_keeps_symmetry (s s' : Scene) (l1 l2 : Z) (b : bool) :
  symmetric s → setLayersCanCollide l1 l2 b s = Ok s' → symmetric s'.
Proof.
  intros Hsym Hs' a c Ha Hc.
  destruct (setLayersCanCollide_filter _ _ _ _ _ Hs') as (Hl1 & Hl2 & Hlen & Hr1 & Hr2 & _ & Hbits).
  destruct (decide ((a = l1 ∧ c = l2) ∨ (a = l2 ∧ c = l1))) as [Hpair|Hother].
  - unfold layer_ok in *.
    rewrite !canLayersCollide_collide by (done || destruct Hpair as [[-> ->]|[-> ->]]; lia).
    rewrite !Hbits by done.
    rewrite !bool_decide_eq_true_2; [done|tauto|tauto].
  - transitivity (canLayersCollide a c s).
    + apply canLayersCollide_length; try done.
      rewrite Hbits by done. by rewrite bool_decide_eq_false_2.
    + rewrite (Hsym a c Ha Hc). symmetry. apply canLayersCollide_length; try done.
      rewrite Hbits by done. by rewrite bool_decide_eq_false_2 by tauto.
Qed.

(** X7.  [updateFilterData] leaves the first eight shapes of every actor,
    live controller and terrain with the filter data of its layer, and
    changes neither an actor's layer nor any shape after the eighth. *)
Theorem updateFilterData_first_eight_shapes (s s' : Scene) :
  updateFilterData s = Ok s' →
  in_sync s' ∧
  Forall2 (λ ka ka', ka'.1 = ka.1 ∧ layer ka'.2 = layer ka.2 ∧
             ∃ a a', physx_actor ka.2 = Some a ∧ physx_actor ka'.2 = Some a' ∧
                     length a' = length a ∧ drop 8 a' = drop 8 a)
          (m_actors s) (m_actors s').
Proof.
  intros H. apply updateFilterData_inv in H as (Hsync & _ & _ & Ha & _).
  split; [done|]. apply Forall2_impl with (1:=Ha).
  intros ka ka' Hka. apply sync_actor_inv in Hka as (_ & Hk & Hl & _ & _ & Hshapes).
  by repeat split.
Qed.

(** X8.  For two shapes that are not triggers and carry the filter data of
    their layers, [filterShader] kills the pair exactly when
    [canLayersCollide] denies it in one of the two orders. *)
Theorem filterShader_kills_iff_layers_do_not_collide
    (s : Scene) (la lb : Z) (da db : FilterData) (flags : PairFlags) :
  filter_data (m_collision_filter s) la = Ok da →
  filter_data (m_collision_filter s) lb = Ok db →
  (filterShader false da false db flags).1 = eKILL ↔
  canLayersCollide lb la s = Ok false ∨ canLayersCollide la lb s = Ok false.
Proof.
  intros Ha Hb.
  apply filter_data_inv in Ha as (Hla & Ha0 & Ha1).
  apply filter_data_inv in Hb as (Hlb & Hb0 & Hb1).
  pose proof (lookup_lt_Some _ _ _ Ha1) as Hra. pose proof (lookup_lt_Some _ _ _ Hb1) as Hrb.
  unfold layer_ok in Hla, Hlb.
  rewrite !canLayersCollide_collide by (done || lia).
  unfold collide. rewrite Ha1, Hb1. simpl.
  unfold filterShader. simpl. rewrite Ha0, Hb0.
  rewrite (Z.land_comm (Z.shiftl 1 la)), (Z.land_comm (Z.shiftl 1 lb)).
  rewrite !land_bit by lia.
  destruct (Z.testbit (word1 db) la), (Z.testbit (word1 da) lb); simpl;
    (split; [try done; by auto|intros [?|?]; congruence]).
Qed.

(** X9.  [removeCollisionLayer] with at most one layer left and an actor in
    the scene clamps the actor's layer to -1 and then shifts and indexes
    with it. *)
Theorem removeCollisionLayer_last_layer_faults (s : Scene) :
  0 ≤ m_layers_count s ≤ 1 → m_actors s ≠ [] → removeCollisionLayer s = Err OutOfBounds.
Proof.
  intros Hcount Hactors. unfold removeCollisionLayer, updateFilterData.
  cbn [m_actors with_terrains with_controllers with_actors with_layers_count
       m_collision_filter].
  destruct (m_actors s) as [|[k a] rest]; [done|]. cbn [fmap list_fmap traverse].
  match goal with |- context [sync_actor ?f (?k', ?a')] =>
    assert (sync_actor f (k', a') = Err OutOfBounds) as ->; [|done] end.
  unfold sync_actor, filter_data, bit. simpl. by rewrite decide_False by lia.
Qed.

(** X10.  With two layers or more, [removeCollisionLayer] on a well-formed
    scene succeeds, lowers the count by one and leaves every actor on a
    layer below the new count and in step with the filter. *)
Theorem removeCollisionLayer_clamps (s : Scene) :
  scene_ok s → 2 ≤ m_layers_count s →
  ∃ s', removeCollisionLayer s = Ok s' ∧
        m_layers_count s' = m_layers_count s - 1 ∧
        in_sync s' ∧
        Forall2 (λ ka ka', ka'.1 = ka.1 ∧
                   layer ka'.2 = Z.min (m_layers_count s - 2) (layer ka.2))
                (m_actors s) (m_actors s').
Proof.
  intros (Hlen & Ha & Hc & Ht) Hcount. unfold removeCollisionLayer.
  replace (Z.max 0 (m_layers_count s - 1)) with (m_layers_count s - 1) by lia.
  match goal with |- ∃ s', updateFilterData ?s1 = _ ∧ _ => set (s1' := s1) end.
  destruct (updateFilterData_ok s1') as [s' Hs'].
  { repeat split; simpl; try done.
    - apply Forall_fmap. apply Forall_impl with (1:=Ha).
      intros [k a] [Hl Hp]. split; simpl in *; [|done].
      unfold layer_ok, layers_capacity in *. lia.
    - apply Forall_fmap. apply Forall_impl with (1:=Hc).
      intros c Hok. unfold controller_ok in *. simpl.
      destruct (m_is_free c) eqn:Hfree; [by rewrite Hfree|]. simpl. intros _.
      specialize (Hok eq_refl). unfold layer_ok, layers_capacity in *. lia.
    - apply Forall_fmap. apply Forall_impl with (1:=Ht).
      intros t Hok t' Heq Hact. simpl in Heq. destruct t as [t|]; [|done].
      destruct (Heightfield.m_actor t) as [a|] eqn:Hact'.
      + injection Heq as <-. simpl in *.
        specialize (Hok t eq_refl (ltac:(by rewrite Hact'))).
        unfold layer_ok, layers_capacity in *. lia.
      + injection Heq as <-. rewrite Hact' in Hact. by destruct Hact. }
  exists s'. split; [done|].
  apply updateFilterData_inv in Hs' as (Hsync & _ & Hn & Hact & _).
  split; [by rewrite Hn|]. split; [done|].
  simpl in Hact. apply Forall2_fmap_l in Hact.
  apply Forall2_impl with (1:=Hact). intros ka ka' Hka.
  apply sync_actor_inv in Hka as (_ & Hk & Hl & _). simpl in *.
  split; [done|]. rewrite Hl. f_equal. lia.
Qed.

(** X11.  While some actor has no PhysX actor, as a mesh actor has until its
    geometry is loaded, [setLayersCanCollide] dereferences the null
    pointer, whatever the layers. *)
Theorem setLayersCanCollide_null_physx_actor (s : Scene) (l1 l2 : Z) (b : bool) :
  length (m_collision_filter s) = 32%nat →
  Forall (λ ka : Z * RigidActor, layer_ok (layer ka.2)) (m_actors s) →
  Exists (λ ka : Z * RigidActor, physx_actor ka.2 = None) (m_actors s) →
  layer_ok l1 → layer_ok l2 →
  setLayersCanCollide l1 l2 b s = Err NullDeref.
Proof.
  intros Hlen Hlayers Hnull Hl1 Hl2. unfold setLayersCanCollide.
  assert (0 ≤ l1 < Z.of_nat (length (m_collision_filter s))) as Hr1
    by (unfold layer_ok, layers_capacity in Hl1; lia).
  assert (0 ≤ l2 < Z.of_nat (length (m_collision_filter s))) as Hr2
    by (unfold layer_ok, layers_capacity in Hl2; lia).
  destruct (array_get_ok _ _ Hr1) as (f1 & -> & _). simpl.
  rewrite (bit_ok _ Hl2). simpl.
  rewrite array_set_ok by done. simpl.
  match goal with |- context [array_get ?f l2] =>
    destruct (array_get_ok f l2) as (f2 & -> & _); [by rewrite length_insert|] end.
  simpl. rewrite (bit_ok _ Hl1). simpl.
  rewrite array_set_ok by (by rewrite length_insert). simpl.
  unfold updateFilterData. simpl.
  match goal with |- context [traverse (sync_actor ?f) _] => set (filter := f) end.
  assert (length filter = 32%nat) as Hlen' by (unfold filter; by rewrite !length_insert).
  rewrite (traverse_err (sync_actor filter) (m_actors s) NullDeref); [done| |].
  - apply Forall_impl with (1:=Hlayers). intros ka Hl. unfold sync_actor.
    destruct (filter_data_ok filter _ Hlen' Hl) as [data ->]. simpl.
    destruct (physx_actor ka.2); [left; by eexists|by right].
  - apply Exists_impl with (1:=Forall_Exists_both _ _ _ Hlayers Hnull).
    intros ka [Hl Hp]. unfold sync_actor.
    destruct (filter_data_ok filter (layer ka.2) Hlen' Hl) as [data ->].
    simpl. by rewrite Hp.
Qed.

(** ** [setActorLayer] *)

Lemma find_store_eq (key : Z) (a b : RigidActor) (l : list (Z * RigidActor)) :
  find_actor key l = Ok b → find_actor key (store_actor key a l) = Ok a.
Proof.
  induction l as [|[k c] l IH]; simpl; [done|].
  case_decide as E; simpl.
  - intros _. by rewrite decide_True.
  - intros H. rewrite decide_False by done. by apply IH.
Qed.

Lemma find_store_ne (key other : Z) (a : RigidActor) (l : list (Z * RigidActor)) :
  other ≠ key → find_actor other (store_actor key a l) = find_actor other l.
Proof.
  intros Hne. induction l as [|[k c] l IH]; simpl; [done|].
  case_decide as E; simpl.
  - subst k. by rewrite !decide_False by done.
  - case_decide; [done|apply IH].
Qed.

(** X12.  [setActorLayer] with a layer in range, on an actor that has a
    PhysX actor, is read back by [getActorLayer], leaves the actor's first
    eight shapes with the filter data of the new layer and changes no other
    actor. *)
Theorem setActorLayer_then_getActorLayer (s : Scene) (c l : Z) (a : RigidActor) :
  length (m_collision_filter s) = 32%nat →
  find_actor c (m_actors s) = Ok a → is_Some (physx_actor a) → layer_ok l →
  ∃ s' a', setActorLayer c l s = Ok s' ∧
    getActorLayer c s' = Ok l ∧
    find_actor c (m_actors s') = Ok a' ∧
    actor_in_sync (m_collision_filter s') (c, a') ∧
    ∀ other, other ≠ c → find_actor other (m_actors s') = find_actor other (m_actors s).
Proof.
  intros Hlen Hfind [shapes Hshapes] Hl. unfold setActorLayer, getActorLayer.
  pose proof Hl as Hl'. unfold layer_ok in Hl'.
  rewrite bool_decide_eq_true_2 by lia. simpl. rewrite Hfind. simpl.
  unfold updateFilterData_actor.
  destruct (filter_data_ok _ _ Hlen Hl) as [data Hdata]. rewrite Hdata. simpl.
  rewrite Hshapes. simpl. eexists _, _. split; [done|]. simpl.
  rewrite (find_store_eq _ _ _ _ Hfind). simpl.
  split; [done|]. split; [done|]. split.
  - eexists. split; [done|]. exists data. split; [done|]. apply take_set_shapes.
  - intros other Hne. by apply find_store_ne.
Qed.

(** X13.  The [ASSERT] of [setActorLayer] guards the upper bound only: a
    negative layer passes it and is then used as a shift count and an
    index. *)
Theorem setActorLayer_negative_layer (s : Scene) (c l : Z) (a : RigidActor) :
  find_actor c (m_actors s) = Ok a → l < 0 → setActorLayer c l s = Err OutOfBounds.
Proof.
  intros Hfind Hl. unfold setActorLayer, layers_capacity.
  rewrite bool_decide_eq_true_2 by lia. simpl. rewrite Hfind. simpl.
  unfold updateFilterData_actor, filter_data, bit. by rewrite decide_False by lia.
Qed.

Lemma length_store_actor (key : Z) (a : RigidActor) (l : list (Z * RigidActor)) :
  length (store_actor key a l) = length l.
Proof.
  induction l as [|[k c] l IH]; simpl; [done|]. case_decide; simpl; by rewrite ?IH.
Qed.

Section ActorFacts.

Variable insert : Z → RigidActor → list (Z * RigidActor) → list (Z * RigidActor).
Variable new_static_actor : Z → option PxActor.

(** What the scene relies on of [AssociativeArray::insert] for a key that
    is not in the array. *)
Hypothesis insert_fresh : ∀ k a l,
  find_actor k l = Err NoSuchComponent →
  find_actor k (insert k a l) = Ok a ∧
  length (insert k a l) = S (length l) ∧
  ∀ k', k' ≠ k → find_actor k' (insert k a l) = find_actor k' l.

(** X14.  [createBoxRigidActor] stores the new actor under its entity, on
    layer 0 and with the filter data of that layer, but returns the number
    of actors there were before as the handle: unless that number is the
    entity's index, the handle finds whatever it found before the call. *)
Theorem createBoxRigidActor_handle_is_the_count (s : Scene) (e : Z) (px : PxActor) :
  find_actor e (m_actors s) = Err NoSuchComponent →
  new_static_actor e = Some px →
  m_collision_filter s ≠ [] →
  ∃ s' a, createBoxRigidActor insert new_static_actor e s
            = Ok (Z.of_nat (length (m_actors s)), s') ∧
    find_actor e (m_actors s') = Ok a ∧
    entity a = e ∧ layer a = 0 ∧ actor_in_sync (m_collision_filter s') (e, a) ∧
    ∀ k, k ≠ e → find_actor k (m_actors s') = find_actor k (m_actors s).
Proof.
  intros Hfresh Hpx Hfilter.
  unfold createBoxRigidActor, setPhysxActor. cbv zeta. rewrite Hpx.
  unfold updateFilterData_actor. cbn [layer set_entity].
  destruct (m_collision_filter s) as [|w filter] eqn:Hf; [done|].
  assert (filter_data (w :: filter) 0 = Ok (mkFilterData 1 w 0 0)) as Hdata by done.
  rewrite Hdata. cbn [mbind Res_bind of_option m_actors with_actors].
  match goal with
  | |- context [insert e ?a (m_actors s)] =>
      destruct (insert_fresh e a (m_actors s) Hfresh) as (Hfind & Hlen & Hother);
      exists (with_actors (insert e a (m_actors s)) s), a
  end.
  split.
  { repeat f_equal. rewrite Hlen. lia. }
  cbn [m_actors with_actors m_collision_filter].
  split; [done|]. split; [done|]. split; [done|]. split.
  - eexists. split; [done|]. exists (mkFilterData 1 w 0 0). rewrite Hf. split; [done|].
    apply take_set_shapes.
  - intros k Hk. by apply Hother.
Qed.

End ActorFacts.

(** ** Character controllers *)

Lemma getController_from_entities (i e : Z) (l l' : list Controller) :
  m_entity <$> l = m_entity <$> l' → getController_from i e l = getController_from i e l'.
Proof.
  revert i l'. induction l as [|c l IH]; intros i [|c' l']; simpl; try done.
  intros [= Hc Hl]. rewrite Hc. case_bool_decide; [done|by apply IH].
Qed.

Lemma getComponent_controller_from_spec (i e : Z) (l : list Controller) :
  getComponent_controller_from i e l = INVALID_COMPONENT ∨
  ∃ (n : nat) (c : Controller),
    getComponent_controller_from i e l = i + Z.of_nat n ∧
    l !! n = Some c ∧ m_is_free c = false ∧ m_entity c = e.
Proof.
  revert i. induction l as [|c l IH]; intros i; simpl; [by left|].
  destruct (m_is_free c) eqn:Hfree; simpl.
  - destruct (IH (i + 1)) as [H|(n & c' & H & Hn & Hc)]; [by left|right].
    exists (S n), c'. split; [lia|done].
  - case_bool_decide as He.
    + right. exists 0%nat, c. split; [simpl; lia|done].
    + destruct (IH (i + 1)) as [H|(n & c' & H & Hn & Hc)]; [by left|right].
      exists (S n), c'. split; [lia|done].
Qed.


Section ControllerFacts.

Variable new_controller : Z → PxActor.


End ControllerFacts.

(** X16.  [destroyComponent] of a controller only marks its slot free.
    [getComponent] no longer answers that handle, but [getController],
    which does not look at [m_is_free], still does. *)
Theorem destroyController_still_found_by_getController (s : Scene) (c : Z) (ctrl : Controller) :
  array_get (m_controllers s) c = Ok ctrl →
  getController (m_entity ctrl) s = c →
  ∃ s', destroyController c s = Ok s' ∧
        getController (m_entity ctrl) s' = c ∧
        getComponent_controller (m_entity ctrl) s' ≠ c.
Proof.
  intros Hget Hfound. unfold destroyController. rewrite Hget. simpl.
  apply array_get_inv in Hget as [Hr Hlookup].
  rewrite array_set_ok by done. simpl. eexists. split; [done|]. split.
  - rewrite <- Hfound at 2. unfold getController. simpl.
    apply getController_from_entities.
    rewrite list_fmap_insert. simpl. apply list_insert_id.
    by rewrite list_lookup_fmap, Hlookup.
  - unfold getComponent_controller. simpl.
    destruct (getComponent_controller_from_spec 0 (m_entity ctrl)
                (<[Z.to_nat c := set_m_is_free true ctrl]> (m_controllers s)))
      as [->|(n & c' & -> & Hn & Hfree & _)]; [unfold INVALID_COMPONENT; lia|].
    intros Heq. assert (n = Z.to_nat c) as -> by lia.
    rewrite list_lookup_insert_eq in Hn by lia. injection Hn as <-. done.
Qed.

(** ** Queued forces *)

Lemma add_forces_nil (s : Scene) : add_forces [] s = s.
Proof. destruct s. unfold add_forces. simpl. by rewrite app_nil_r. Qed.

Lemma applyQueuedForces_loop_dynamic (s : Scene) (pre rest : list QueuedForce) (es : list Z) :
  Forall2 (dynamic_target s) pre es →
  applyQueuedForces_loop (pre ++ rest) s =
  applyQueuedForces_loop rest (add_forces (zip es (force <$> pre)) s).
Proof.
  intros H. revert s H. revert es.
  induction pre as [|q pre IH]; intros es s H.
  - apply Forall2_nil_inv_l in H as ->. simpl. by rewrite add_forces_nil.
  - apply Forall2_cons_inv_l in H as (e & es' & (a & Hfind & Hdyn & [p Hp] & He) & H & ->).
    simpl. rewrite Hfind. simpl. rewrite Hdyn, Hp. simpl.
    rewrite (IH es').
    + f_equal. unfold add_forces, addForce. simpl. rewrite He. by rewrite <- app_assoc.
    + apply Forall2_impl with (1:=H). intros q' e' (a' & ? & ? & ? & ?). by exists a'.
Qed.

(** X17.  When every queued force addresses a dynamic actor that has a PhysX
    actor, [applyQueuedForces] hands the forces to PhysX in queue order and
    empties the queue. *)
Theorem applyQueuedForces_all_dynamic (s : Scene) (es : list Z) :
  Forall2 (dynamic_target s) (m_queued_forces s) es →
  ∃ s', applyQueuedForces s = Ok s' ∧
        m_queued_forces s' = [] ∧
        px_forces s' = px_forces s ++ zip es (force <$> m_queued_forces s) ∧
        m_log s' = m_log s.
Proof.
  intros H. unfold applyQueuedForces.
  pose proof (applyQueuedForces_loop_dynamic s _ [] _ H) as Hrun.
  rewrite app_nil_r in Hrun. rewrite Hrun. simpl.
  eexists. split; [done|]. done.
Qed.

(** X18.  When a queued force addresses a static actor, [applyQueuedForces]
    logs the warning and returns out of the loop: the forces queued before
    it have been handed to PhysX, the ones after it have not, and the queue
    is left as it was, so the next call hands the earlier forces over
    again. *)
Theorem applyQueuedForces_static_keeps_queue
    (s : Scene) (pre post : list QueuedForce) (q : QueuedForce) (a : RigidActor)
    (es : list Z) :
  m_queued_forces s = pre ++ q :: post →
  Forall2 (dynamic_target s) pre es →
  find_actor (cmp q) (m_actors s) = Ok a → is_dynamic a = false →
  ∃ s', applyQueuedForces s = Ok s' ∧
        m_queued_forces s' = m_queued_forces s ∧
        px_forces s' = px_forces s ++ zip es (force <$> pre) ∧
        m_log s' = m_log s ++ [ForceOnStatic] ∧
        ∃ s'', applyQueuedForces s' = Ok s'' ∧
               m_queued_forces s'' = m_queued_forces s ∧
               px_forces s'' = px_forces s ++ zip es (force <$> pre) ++ zip es (force <$> pre).
Proof.
  intros Hq Hpre Hfind Hstatic.
  assert (∀ s0, m_actors s0 = m_actors s → m_queued_forces s0 = m_queued_forces s →
    applyQueuedForces s0 =
    Ok (log_message ForceOnStatic (add_forces (zip es (force <$> pre)) s0))) as Hrun.
  { intros s0 Hactors Hqueue. unfold applyQueuedForces. rewrite Hqueue, Hq.
    rewrite (applyQueuedForces_loop_dynamic s0 pre (q :: post) es).
    2:{ apply Forall2_impl with (1:=Hpre). intros q' e' (a' & ? & ?).
        exists a'. by rewrite Hactors. }
    simpl. rewrite Hactors, Hfind. simpl. by rewrite Hstatic. }
  eexists. split; [by apply Hrun|]. simpl.
  split; [done|]. split; [done|]. split; [done|].
  eexists. split; [by apply Hrun|]. simpl.
  split; [done|]. by rewrite <- app_assoc.
Qed.

(** X19.  A queued force on a dynamic actor that has no PhysX actor makes
    [applyQueuedForces] return without a warning, again with the queue left
    as it was. *)
Theorem applyQueuedForces_null_actor_keeps_queue
    (s : Scene) (pre post : list QueuedForce) (q : QueuedForce) (a : RigidActor)
    (es : list Z) :
  m_queued_forces s = pre ++ q :: post →
  Forall2 (dynamic_target s) pre es →
  find_actor (cmp q) (m_actors s) = Ok a → is_dynamic a = true → physx_actor a = None →
  ∃ s', applyQueuedForces s = Ok s' ∧
        m_queued_forces s' = m_queued_forces s ∧
        px_forces s' = px_forces s ++ zip es (force <$> pre) ∧
        m_log s' = m_log s.
Proof.
  intros Hq Hpre Hfind Hdyn Hnull. unfold applyQueuedForces. rewrite Hq.
  rewrite (applyQueuedForces_loop_dynamic s pre (q :: post) es Hpre).
  simpl. rewrite Hfind. simpl. rewrite Hdyn, Hnull. simpl.
  eexists. split; [done|]. done.
Qed.

End PhysicsFacts.

Module PhysicsWitnesses.
Import Physics PhysicsExamples PhysicsFacts.

Lemma layer_ok_dec (l : Z) : 0 ≤ l < 32 → layer_ok l.
Proof. done. Qed.

Lemma a_scene_ok : scene_ok a_scene.
Proof.
  split; [reflexivity|]. split; [|split].
  - constructor; [|constructor; [|constructor]];
      (split; [apply layer_ok_dec; simpl; lia|by eexists]).
  - constructor; [|constructor]. intros _. apply layer_ok_dec. simpl. lia.
  - constructor; [|constructor; [|constructor]].
    + intros t [= <-] _. apply layer_ok_dec. simpl. lia.
    + intros t [=].
Qed.

Lemma setLayersCanCollide_then_canLayersCollide_witness :
  ∃ s', setLayersCanCollide 0 1 false a_scene = Ok s' ∧
        canLayersCollide 0 1 s' = Ok false ∧ canLayersCollide 1 0 s' = Ok false.
Proof.
  apply (setLayersCanCollide_then_canLayersCollide a_scene 0 1 false);
    [apply a_scene_ok|apply layer_ok_dec; lia|apply layer_ok_dec; lia].
Defined.

Lemma setLayersCanCollide_other_pairs_witness :
  canLayersCollide 1 1 apart = canLayersCollide 1 1 a_scene.
Proof.
  apply (setLayersCanCollide_other_pairs a_scene apart 0 1 1 1 false);
    [vm_compute; reflexivity|apply layer_ok_dec; lia|apply layer_ok_dec; lia
    |intros [? ?]; lia|intros [? ?]; lia].
Defined.

Lemma new_filter_symmetric (s : Scene) :
  m_collision_filter s = replicate 32 (2 ^ 32 - 1) → symmetric s.
Proof.
  intros Hf a b Ha Hb. unfold layer_ok, layers_capacity in *.
  rewrite !canLayersCollide_collide by (rewrite ?Hf, ?length_replicate; done || lia).
  unfold collide. rewrite Hf, !lookup_replicate_2 by lia. simpl.
  change (2 ^ 32 - 1) with (Z.ones 32).
  by rewrite !Z.ones_spec_low by lia.
Qed.

Lemma setLayersCanCollide_keeps_symmetry_witness :
  symmetric a_scene ∧ setLayersCanCollide 0 1 false a_scene = Ok apart ∧ symmetric apart.
Proof.
  split; [by apply new_filter_symmetric|]. split; [vm_compute; reflexivity|].
  apply (setLayersCanCollide_keeps_symmetry a_scene apart 0 1 false);
    [by apply new_filter_symmetric|vm_compute; reflexivity].
Defined.

Lemma updateFilterData_first_eight_shapes_witness :
  in_sync refreshed ∧
  Forall2 (λ ka ka', ka'.1 = ka.1 ∧ layer ka'.2 = layer ka.2 ∧
             ∃ a a', physx_actor ka.2 = Some a ∧ physx_actor ka'.2 = Some a' ∧
                     length a' = length a ∧ drop 8 a' = drop 8 a)
          (m_actors a_scene) (m_actors refreshed).
Proof.
  apply (updateFilterData_first_eight_shapes a_scene refreshed). vm_compute. reflexivity.
Defined.

Lemma filterShader_kills_iff_layers_do_not_collide_witness :
  (filterShader false (mkFilterData 1 4294967293 0 0) false (mkFilterData 2 4294967294 0 0)
     eTRIGGER_DEFAULT).1 = eKILL ↔
  canLayersCollide 1 0 apart = Ok false ∨ canLayersCollide 0 1 apart = Ok false.
Proof.
  apply (filterShader_kills_iff_layers_do_not_collide apart 0 1); vm_compute; reflexivity.
Defined.

Lemma removeCollisionLayer_last_layer_faults_witness :
  removeCollisionLayer one_layer = Err OutOfBounds.
Proof.
  apply (removeCollisionLayer_last_layer_faults one_layer); [simpl; lia|discriminate].
Defined.

Lemma removeCollisionLayer_clamps_witness :
  ∃ s', removeCollisionLayer a_scene = Ok s' ∧
        m_layers_count s' = m_layers_count a_scene - 1 ∧
        in_sync s' ∧
        Forall2 (λ ka ka', ka'.1 = ka.1 ∧
                   layer ka'.2 = Z.min (m_layers_count a_scene - 2) (layer ka.2))
                (m_actors a_scene) (m_actors s').
Proof.
  apply (removeCollisionLayer_clamps a_scene); [apply a_scene_ok|simpl; lia].
Defined.

Lemma setLayersCanCollide_null_physx_actor_witness :
  setLayersCanCollide 0 1 true with_mesh = Err NullDeref.
Proof.
  apply (setLayersCanCollide_null_physx_actor with_mesh 0 1 true);
    [reflexivity
    |repeat constructor; simpl; lia
    |right; left; reflexivity
    |apply layer_ok_dec; lia|apply layer_ok_dec; lia].
Defined.

Lemma insert_last_fresh (k : Z) (a : RigidActor) (l : list (Z * RigidActor)) :
  find_actor k l = Err NoSuchComponent →
  find_actor k (insert_last k a l) = Ok a ∧
  length (insert_last k a l) = S (length l) ∧
  ∀ k', k' ≠ k → find_actor k' (insert_last k a l) = find_actor k' l.
Proof.
  intros Hfresh. unfold insert_last. split; [|split].
  - induction l as [|[k0 c] l IH]; simpl in *; [by rewrite decide_True|].
    case_decide; [done|by apply IH].
  - rewrite length_app. simpl. lia.
  - intros k' Hne. clear Hfresh.
    induction l as [|[k0 c] l IH]; simpl; [by rewrite decide_False|].
    case_decide; [done|apply IH].
Qed.

Lemma createBoxRigidActor_handle_is_the_count_witness :
  ∃ s' a, createBoxRigidActor insert_last unit_box 15 a_scene
            = Ok (Z.of_nat (length (m_actors a_scene)), s') ∧
    find_actor 15 (m_actors s') = Ok a ∧
    entity a = 15 ∧ layer a = 0 ∧ actor_in_sync (m_collision_filter s') (15, a) ∧
    ∀ k, k ≠ 15 → find_actor k (m_actors s') = find_actor k (m_actors a_scene).
Proof.
  apply (createBoxRigidActor_handle_is_the_count insert_last unit_box insert_last_fresh
           a_scene 15 one_shape); [reflexivity|reflexivity|discriminate].
Defined.

Lemma setActorLayer_then_getActorLayer_witness :
  ∃ s' a', setActorLayer 10 1 a_scene = Ok s' ∧
    getActorLayer 10 s' = Ok 1 ∧
    find_actor 10 (m_actors s') = Ok a' ∧
    actor_in_sync (m_collision_filter s') (10, a') ∧
    ∀ other, other ≠ 10 → find_actor other (m_actors s') = find_actor other (m_actors a_scene).
Proof.
  apply (setActorLayer_then_getActorLayer a_scene 10 1 box0);
    [reflexivity|reflexivity|by eexists|apply layer_ok_dec; lia].
Defined.

Lemma setActorLayer_negative_layer_witness :
  setActorLayer 10 (-1) a_scene = Err OutOfBounds.
Proof.
  apply (setActorLayer_negative_layer a_scene 10 (-1) box0); [reflexivity|lia].
Defined.


Lemma destroyController_still_found_by_getController_witness :
  ∃ s', destroyController 0 a_scene = Ok s' ∧
        getController 20 s' = 0 ∧ getComponent_controller 20 s' ≠ 0.
Proof.
  apply (destroyController_still_found_by_getController a_scene 0
           (mkController one_shape 20 (0, 0, 0) default_radius default_height false 1));
    reflexivity.
Defined.

Lemma box1_dynamic_target (s : Scene) (q : QueuedForce) :
  find_actor (cmp q) (m_actors s) = Ok box1 → dynamic_target s q 11.
Proof. intros H. exists box1. split; [done|]. split; [done|]. split; [by eexists|done]. Qed.

Lemma applyQueuedForces_all_dynamic_witness :
  ∃ s', applyQueuedForces queued_dynamic = Ok s' ∧
        m_queued_forces s' = [] ∧
        px_forces s' = px_forces queued_dynamic
                       ++ zip [11; 11] (force <$> m_queued_forces queued_dynamic) ∧
        m_log s' = m_log queued_dynamic.
Proof.
  apply (applyQueuedForces_all_dynamic queued_dynamic [11; 11]).
  repeat constructor; by apply box1_dynamic_target.
Defined.

Lemma applyQueuedForces_static_keeps_queue_witness :
  ∃ s', applyQueuedForces queued = Ok s' ∧
        m_queued_forces s' = m_queued_forces queued ∧
        px_forces s' = px_forces queued ++ zip [11] (force <$> [mkQueuedForce 11 up]) ∧
        m_log s' = m_log queued ++ [ForceOnStatic] ∧
        ∃ s'', applyQueuedForces s' = Ok s'' ∧
               m_queued_forces s'' = m_queued_forces queued ∧
               px_forces s'' = px_forces queued ++ zip [11] (force <$> [mkQueuedForce 11 up])
                                 ++ zip [11] (force <$> [mkQueuedForce 11 up]).
Proof.
  apply (applyQueuedForces_static_keeps_queue queued [mkQueuedForce 11 up] []
           (mkQueuedForce 10 down) box0 [11]);
    [reflexivity|repeat constructor; by apply box1_dynamic_target|reflexivity|reflexivity].
Defined.

Lemma applyQueuedForces_null_actor_keeps_queue_witness :
  ∃ s', applyQueuedForces queued_loading = Ok s' ∧
        m_queued_forces s' = m_queued_forces queued_loading ∧
        px_forces s' = px_forces queued_loading
                       ++ zip [11] (force <$> [mkQueuedForce 11 up]) ∧
        m_log s' = m_log queued_loading.
Proof.
  apply (applyQueuedForces_null_actor_keeps_queue queued_loading [mkQueuedForce 11 up] []
           (mkQueuedForce 12 down) (mkRigidActor 12 0 true None) [11]);
    [reflexivity|repeat constructor; by apply box1_dynamic_target
    |reflexivity|reflexivity|reflexivity].
Defined.

End PhysicsWitnesses.


(** * The animable jobs *)

Module AnimablesFacts.
Import Animables.

Section Facts.

Context {Animable : Type}.
Variable updateAnimable : Animable → Animable.

Lemma update_at_inv (l l' : list Animable) (idx : Z) :
  update_at updateAnimable l idx = Ok l' → length l' = length l.
Proof.
  unfold update_at. destruct (array_get l idx) as [a|]; [|done]. simpl.
  intros [= <-]. apply length_insert.
Qed.

Lemma update_at_faults (l : list Animable) (idx : Z) (f : Fault) :
  update_at updateAnimable l idx = Err f → f = OutOfBounds.
Proof.
  unfold update_at, array_get. case_decide; [|by intros [= <-]].
  destruct (l !! Z.to_nat idx); simpl; [done|by intros [= <-]].
Qed.

Lemma run_job_app (j1 j2 : list Z) (l : list Animable) :
  run_job updateAnimable (j1 ++ j2) l =
  l' ← run_job updateAnimable j1 l; run_job updateAnimable j2 l'.
Proof.
  revert l. induction j1 as [|idx j1 IH]; intros l; simpl; [done|].
  destruct (update_at updateAnimable l idx) as [l1|]; simpl; [apply IH|done].
Qed.

Lemma run_jobs_concat (jobs : list (list Z)) (l : list Animable) :
  run_jobs updateAnimable jobs l = run_job updateAnimable (concat jobs) l.
Proof.
  revert l. induction jobs as [|j jobs IH]; intros l; simpl; [done|].
  rewrite run_job_app. destruct (run_job updateAnimable j l); simpl; [apply IH|done].
Qed.

(** Visiting the indices [0 .. n-1] in turn updates that prefix. *)
Lemma run_job_seqZ (n : nat) (l : list Animable) :
  (n ≤ length l)%nat →
  run_job updateAnimable (seqZ 0 (Z.of_nat n)) l
  = Ok ((updateAnimable <$> take n l) ++ drop n l).
Proof.
  induction n as [|n IH]; intros Hn.
  - done.
  - replace (Z.of_nat (S n)) with (Z.of_nat n + 1) by lia.
    rewrite seqZ_app by lia. rewrite run_job_app, IH by lia. simpl.
    change (seqZ (0 + Z.of_nat n) 1) with ([0 + Z.of_nat n] ++ seqZ (0 + Z.of_nat n + 1) 0).
    simpl. unfold update_at, array_get. rewrite decide_True by lia.
    replace (Z.to_nat (Z.of_nat 0 + (0 + Z.of_nat n))) with n by lia.
    destruct (lookup_lt_is_Some_2 l n) as [a Ha]; [lia|].
    assert (length (updateAnimable <$> take n l) = n) as Hlen
      by (rewrite length_fmap, length_take; lia).
    rewrite lookup_app_r by lia. rewrite Hlen, Nat.sub_diag.
    rewrite (drop_S _ _ _ Ha). simpl.
    rewrite insert_app_r_alt by lia. rewrite Hlen, Nat.sub_diag. simpl.
    rewrite (take_S_r _ _ _ Ha), fmap_app. simpl. by rewrite <- app_assoc.
Qed.

(** A job list with an index past the end stops with [OutOfBounds]. *)
Lemma run_job_out_of_bounds (job : list Z) (l : list Animable) :
  Exists (λ idx, Z.of_nat (length l) ≤ idx) job →
  run_job updateAnimable job l = Err OutOfBounds.
Proof.
  intros H. revert l H. induction job as [|idx job IH]; intros l H.
  - by apply Exists_nil in H.
  - simpl. destruct (update_at updateAnimable l idx) as [l'|f] eqn:Hup; simpl.
    + apply IH. rewrite (update_at_inv _ _ _ Hup).
      apply Exists_cons in H as [H|H]; [|done].
      unfold update_at, array_get in Hup. case_decide; [|done].
      rewrite lookup_ge_None_2 in Hup by lia. done.
    + by rewrite (update_at_faults _ _ _ Hup).
Qed.

(** Below 2^27 animables no product or sum of the job's arithmetic leaves
    the range of [int]. *)
Lemma job_indices_no_overflow (n jc i : Z) :
  0 < jc ≤ 16 → 0 ≤ i < jc → 0 ≤ n < 2 ^ 27 →
  job_indices n jc i =
  (λ j, j + (i * n) ÷ jc) <$>
    seqZ 0 (if decide (i = jc - 1) then n - (jc - 1) * (n ÷ jc) else n ÷ jc).
Proof.
  intros Hjc Hi Hn. unfold job_indices. cbv zeta.
  assert (0 ≤ n ÷ jc ∧ jc * (n ÷ jc) ≤ n) as [Hq0 Hq].
  { rewrite Z.quot_div_nonneg by lia. split; [apply Z.div_pos; lia|].
    apply Z.mul_div_le. lia. }
  assert (0 ≤ (i * n) ÷ jc ≤ n) as Hstart.
  { rewrite Z.quot_div_nonneg by nia. split; [apply Z.div_pos; nia|].
    apply Z.div_le_upper_bound; nia. }
  rewrite (to_int_small ((jc - 1) * (n ÷ jc))) by nia.
  rewrite (to_int_small (n - (jc - 1) * (n ÷ jc))) by nia.
  rewrite (to_int_small (i * n)) by nia.
  apply list_fmap_ext. intros k j Hj. apply lookup_seqZ in Hj as [-> Hk].
  apply to_int_small.
  assert (Z.of_nat k < n + 1); [case_decide; nia|lia].
Qed.

Lemma job_indices_small (n i : Z) :
  0 ≤ i < n → n ≤ 16 → job_indices n n i = [i].
Proof.
  intros Hi Hn. rewrite job_indices_no_overflow by lia.
  rewrite Z.quot_same by lia.
  replace (if decide (i = n - 1) then n - (n - 1) * 1 else 1) with 1
    by (case_decide; lia).
  change (seqZ 0 1) with [0]. simpl.
  rewrite Z.quot_mul by lia. done.
Qed.

Lemma concat_singletons (l : list Z) : concat ((λ i, [i]) <$> l) = l.
Proof. induction l as [|i l IH]; [done|]. rewrite fmap_cons. simpl. by f_equal. Qed.

Lemma job_indices_quot (n q r i : Z) :
  n = 16 * q + r → 0 ≤ q → 0 ≤ r → 0 ≤ i → i * r < 16 → (i * n) ÷ 16 = i * q.
Proof.
  intros -> Hq Hr Hi Hir.
  rewrite Z.quot_div_nonneg by nia.
  symmetry. apply Z.div_unique with (r := i * r); nia.
Qed.

Lemma seqZ_join (a b n1 n2 : Z) :
  0 ≤ n1 → 0 ≤ n2 → b = a + n1 → seqZ a n1 ++ seqZ b n2 = seqZ a (n1 + n2).
Proof. intros H1 H2 ->. by rewrite seqZ_app. Qed.

Lemma all_indices_exact (n : Z) :
  16 < n < 2 ^ 27 → n `mod` 16 ≤ 1 →
  concat (job_indices n 16 <$> seqZ 0 16) = seqZ 0 n.
Proof.
  intros Hn Hr.
  pose proof (Z.div_mod n 16 ltac:(lia)) as Hdm.
  pose proof (Z.mod_pos_bound n 16 ltac:(lia)) as Hrb.
  set (q := n `div` 16) in *. set (r := n `mod` 16) in *.
  assert (∀ i, 0 ≤ i < 15 → job_indices n 16 i = seqZ (i * q) q) as Hjob.
  { intros i Hi. rewrite job_indices_no_overflow by lia. rewrite decide_False by lia.
    rewrite (job_indices_quot n q r i) by nia.
    rewrite (Z.quot_div_nonneg n 16) by lia. fold q.
    transitivity (Z.add (i * q) <$> seqZ 0 q); [apply list_fmap_ext; intros; lia|].
    rewrite fmap_add_seqZ. f_equal. lia. }
  assert (job_indices n 16 15 = seqZ (15 * q) (q + r)) as Hlast.
  { rewrite job_indices_no_overflow by lia. rewrite decide_True by lia.
    rewrite (job_indices_quot n q r 15) by nia.
    rewrite (Z.quot_div_nonneg n 16) by lia. fold q.
    replace (n - (16 - 1) * q) with (q + r) by lia.
    transitivity (Z.add (15 * q) <$> seqZ 0 (q + r)); [apply list_fmap_ext; intros; lia|].
    rewrite fmap_add_seqZ. f_equal. lia. }
  change (seqZ 0 16) with [0;1;2;3;4;5;6;7;8;9;10;11;12;13;14;15].
  cbn [fmap list_fmap concat].
  rewrite !Hjob by lia. rewrite Hlast. rewrite app_nil_r.
  assert (0 ≤ q) as Hq by (unfold q; apply Z.div_pos; lia).
  repeat (rewrite seqZ_join by lia). f_equal; lia.
Qed.

(** X20.  With at most sixteen animables, or a count below 2^27 that
    leaves a remainder of at most one when divided by sixteen,
    [updateAnimables] updates every animable exactly once. *)
Theorem updateAnimables_updates_each_once (animables : list Animable) :
  (length animables ≤ 16)%nat ∨
  (Z.of_nat (length animables) < 2 ^ 27 ∧ Z.of_nat (length animables) `mod` 16 ≤ 1) →
  updateAnimables updateAnimable animables = Ok (updateAnimable <$> animables).
Proof.
  intros Hcount. unfold updateAnimables, jobs_capacity.
  rewrite to_int_small by lia.
  set (n := Z.of_nat (length animables)) in *.
  pose proof (eq_refl : n = Z.of_nat (length animables)) as Hn.
  case_decide as Hzero.
  { destruct animables; [done|]. simpl in n. lia. }
  rewrite decide_True by lia. rewrite run_jobs_concat.
  assert (concat (job_indices n (16 `min` n) <$> seqZ 0 (16 `min` n)) = seqZ 0 n) as ->.
  { destruct (decide (n ≤ 16)) as [Hle|Hgt].
    - rewrite Z.min_r by lia.
      rewrite (list_fmap_ext (job_indices n n) (λ i, [i])); [apply concat_singletons|].
      intros k i Hi. apply job_indices_small; [|lia].
      apply lookup_seqZ in Hi. lia.
    - rewrite Z.min_l by lia. apply all_indices_exact; lia. }
  unfold n. rewrite run_job_seqZ by done.
  by rewrite firstn_all, drop_all, app_nil_r.
Qed.

(** X21.  With more than sixteen animables, a count below 2^27 and a
    remainder of two or more, the last job runs past the end of
    [m_animables]. *)
Theorem updateAnimables_runs_past_the_end (animables : list Animable) :
  (16 < length animables)%nat → Z.of_nat (length animables) < 2 ^ 27 →
  2 ≤ Z.of_nat (length animables) `mod` 16 →
  updateAnimables updateAnimable animables = Err OutOfBounds.
Proof.
  intros Hmany Hsmall Hrem. unfold updateAnimables, jobs_capacity.
  rewrite to_int_small by lia.
  set (n := Z.of_nat (length animables)) in *.
  rewrite decide_False by lia. rewrite decide_True by lia.
  rewrite Z.min_l by lia. rewrite run_jobs_concat.
  apply run_job_out_of_bounds. fold n.
  pose proof (Z.div_mod n 16 ltac:(lia)) as Hdm.
  pose proof (Z.mod_pos_bound n 16 ltac:(lia)) as Hrb.
  set (q := n `div` 16) in *. set (r := n `mod` 16) in *.
  assert (1 ≤ q) as Hq by (unfold q; apply Z.div_le_lower_bound; lia).
  apply Exists_exists. exists ((q + r - 1) + (15 * n) ÷ 16). split.
  - apply list_elem_of_In, in_concat. exists (job_indices n 16 15). split.
    + apply list_elem_of_In, list_elem_of_fmap. exists 15. split; [done|].
      apply elem_of_seqZ. lia.
    + apply list_elem_of_In. rewrite job_indices_no_overflow by lia.
      rewrite decide_True by lia.
      rewrite (Z.quot_div_nonneg n 16) by lia. fold q.
      apply list_elem_of_fmap. exists (q + r - 1). split; [done|].
      apply elem_of_seqZ. lia.
  - rewrite Z.quot_div_nonneg by lia.
    assert (15 * q + 1 ≤ (15 * n) `div` 16); [|lia].
    apply Z.div_le_lower_bound; lia.
Qed.

End Facts.

Import AnimationApiExamples.

Lemma updateAnimables_updates_each_once_witness :
  updateAnimables tick (replicate 17 0) = Ok (tick <$> replicate 17 0).
Proof.
  apply (updateAnimables_updates_each_once tick (replicate 17 0)). right.
  split; [simpl; lia|vm_compute; discriminate].
Defined.

Lemma updateAnimables_runs_past_the_end_witness :
  updateAnimables tick (replicate 18 0) = Err OutOfBounds.
Proof.
  apply (updateAnimables_runs_past_the_end tick (replicate 18 0));
    [simpl; lia|simpl; lia|vm_compute; discriminate].
Defined.

End AnimablesFacts.

(** * The script-facing controller API *)

Module AnimationApiFacts.
Import Animation AnimationApi.

Section Facts.

Context {Node : Type}.

Lemma get_controller_ok (s : @Scene Node) (cmp : Z) (c : Controller) :
  m_controllers s !! cmp = Some c → get_controller cmp s = Ok (c, s).
Proof. intros Hc. unfold get_controller. by rewrite Hc. Qed.

Lemma input_index_from_spec (i : Z) (name : nat) (slots : list Input) :
  (input_index_from i name slots = -1 ∧
   Forall (λ slot, in_type slot = EMPTY ∨ in_name slot ≠ name) slots) ∨
  ∃ (n : nat) (slot : Input),
    input_index_from i name slots = i + Z.of_nat n ∧
    slots !! n = Some slot ∧ in_type slot ≠ EMPTY ∧ in_name slot = name ∧
    Forall (λ slot, in_type slot = EMPTY ∨ in_name slot ≠ name) (take n slots).
Proof.
  revert i. induction slots as [|slot rest IH]; intros i; simpl.
  - left. split; [done|constructor].
  - case_bool_decide as Ht; simpl.
    + case_bool_decide as Hn; simpl.
      * right. exists 0%nat, slot. split; [simpl; lia|]. by repeat split.
      * destruct (IH (i + 1)) as [[-> Hall]|(n & sl & -> & Hl & Hty & Hnm & Hall)].
        -- left. split; [done|]. constructor; [by right|done].
        -- right. exists (S n), sl. split; [lia|]. repeat split; try done.
           simpl. constructor; [by right|done].
    + assert (in_type slot = EMPTY) as Hempty by (by destruct (in_type slot)).
      destruct (IH (i + 1)) as [[-> Hall]|(n & sl & -> & Hl & Hty & Hnm & Hall)].
      * left. split; [done|]. constructor; [by left|done].
      * right. exists (S n), sl. split; [lia|]. repeat split; try done.
        simpl. constructor; [by left|done].
Qed.

(** X22.  [getControllerInputIndex] answers the first slot that is not
    [EMPTY] and has the name asked for, and -1 when the declaration has no
    such slot. *)
Theorem getControllerInputIndex_first_named_slot
    (s : @Scene Node) (cmp : Z) (c : Controller) (p : nat) (res : ControllerResource)
    (name : nat) :
  m_controllers s !! cmp = Some c →
  resource c = Some p → resources s !! p = Some res →
  ∃ r, getControllerInputIndex cmp name s = Ok (r, s) ∧
    ((r = -1 ∧
      Forall (λ slot, in_type slot = EMPTY ∨ in_name slot ≠ name) (inputs (m_input_decl res))) ∨
     (0 ≤ r ∧ ∃ slot, inputs (m_input_decl res) !! Z.to_nat r = Some slot ∧
        in_type slot ≠ EMPTY ∧ in_name slot = name ∧
        Forall (λ slot, in_type slot = EMPTY ∨ in_name slot ≠ name)
               (take (Z.to_nat r) (inputs (m_input_decl res))))).
Proof.
  intros Hc Hp Hres. unfold getControllerInputIndex, mbind, M_bind.
  rewrite (get_controller_ok _ _ _ Hc).
  rewrite (AnimationFacts.deref_resource_ok _ _ _ _ Hp Hres).
  eexists. split; [done|].
  destruct (input_index_from_spec 0 name (inputs (m_input_decl res)))
    as [[-> Hall]|(n & slot & -> & Hl & Hty & Hnm & Hall)].
  - by left.
  - right. split; [lia|]. exists slot. replace (Z.to_nat (0 + Z.of_nat n)) with n by lia. done.
Qed.

(** X23.  The [setControllerInput] overloads check the index against the
    upper bound only: with a negative index, on a controller that has a
    runtime, each of them indexes the declaration out of bounds. *)
Theorem setControllerInput_negative_index
    (s : @Scene Node) (cmp : Z) (c : Controller) (n : Node) (p : nat)
    (res : ControllerResource) (input_idx : Z) (vf : float) (vb : bool) (vi : Z) :
  m_controllers s !! cmp = Some c →
  root c = Some n →
  resource c = Some p → resources s !! p = Some res →
  input_idx < 0 →
  setControllerInput_float cmp input_idx vf s = Err OutOfBounds ∧
  setControllerInput_bool cmp input_idx vb s = Err OutOfBounds ∧
  setControllerInput_int cmp input_idx vi s = Err OutOfBounds.
Proof.
  intros Hc Hroot Hp Hres Hneg.
  unfold setControllerInput_float, setControllerInput_bool, setControllerInput_int,
    mbind, M_bind.
  rewrite (get_controller_ok _ _ _ Hc), Hroot.
  rewrite (AnimationFacts.deref_resource_ok _ _ _ _ Hp Hres).
  rewrite bool_decide_eq_false_2 by lia.
  unfold lift, array_get. by rewrite decide_False by lia.
Qed.

(** X24.  On a slot of another type the float overload of
    [setControllerInput] returns without a warning and without a change,
    where [setControllerFloatInput] logs one; on a float slot the two
    do the same. *)
Theorem setControllerInput_float_against_setter
    (s : @Scene Node) (cmp : Z) (c : Controller) (n : Node) (p : nat)
    (res : ControllerResource) (input_idx : Z) (slot : Input) (v : float) :
  m_controllers s !! cmp = Some c →
  root c = Some n →
  resource c = Some p → resources s !! p = Some res →
  0 ≤ input_idx →
  inputs (m_input_decl res) !! Z.to_nat input_idx = Some slot →
  (in_type slot ≠ FLOAT →
     setControllerInput_float cmp input_idx v s = Ok (tt, s) ∧
     setControllerFloatInput cmp input_idx v s = Ok (tt, add_log (WarnSetFloatTo (in_name slot)) s)) ∧
  (in_type slot = FLOAT →
     setControllerInput_float cmp input_idx v s = setControllerFloatInput cmp input_idx v s).
Proof.
  intros Hc Hroot Hp Hres Hidx Hslot.
  pose proof (lookup_lt_Some _ _ _ Hslot) as Hlt.
  unfold setControllerInput_float, setControllerFloatInput, mbind, M_bind.
  rewrite (get_controller_ok _ _ _ Hc), Hroot.
  rewrite (AnimationFacts.deref_resource_ok _ _ _ _ Hp Hres).
  rewrite !bool_decide_eq_false_2 by lia.
  rewrite (AnimationFacts.array_get_lookup _ _ _ Hidx Hslot). unfold lift.
  split; intros Hty.
  - rewrite bool_decide_eq_true_2 by done. split; [done|].
    by destruct (in_type slot).
  - rewrite bool_decide_eq_false_2 by (by intros ?). by rewrite Hty.
Qed.

Lemma find_set_from_spec (i hash : Z) (names : list Z) :
  (find_set_from i hash names = -1 ∧ hash ∉ names) ∨
  ∃ n : nat, find_set_from i hash names = i + Z.of_nat n ∧
             names !! n = Some hash ∧ hash ∉ take n names.
Proof.
  revert i. induction names as [|h rest IH]; intros i; simpl.
  - left. split; [done|apply not_elem_of_nil].
  - case_decide as Hh.
    + right. exists 0%nat. subst h. split; [simpl; lia|]. split; [done|apply not_elem_of_nil].
    + destruct (IH (i + 1)) as [[-> Hno]|(n & -> & Hl & Hno)].
      * left. split; [done|]. apply not_elem_of_cons. split; [congruence|done].
      * right. exists (S n). split; [lia|]. split; [done|]. simpl.
        apply not_elem_of_cons. split; [congruence|done].
Qed.

Lemma find_default_set_find_set_from (names : list Z) (hash i : Z) :
  0 ≤ i →
  find_default_set names hash i =
  (if find_set_from i hash names <? 0 then 0 else find_set_from i hash names).
Proof.
  revert i. induction names as [|h rest IH]; intros i Hi; simpl; [done|].
  destruct (decide (hash = h)) as [->|Hne].
  - rewrite decide_True by done. destruct (i <? 0) eqn:E; [lia|done].
  - rewrite decide_False by congruence. apply IH. lia.
Qed.

Lemma getControllerDefaultSet_is_the_runtime_set_aux
    (s : @Scene Node) (cmp : Z) (c : Controller) (p : nat) (res : ControllerResource) :
  m_controllers s !! cmp = Some c →
  resource c = Some p → resources s !! p = Some res →
  getControllerDefaultSet cmp s
  = Ok (find_default_set (m_sets_names res) (default_set c) 0, s).
Proof.
  intros Hc Hp Hres. unfold getControllerDefaultSet, mbind, M_bind.
  rewrite (get_controller_ok _ _ _ Hc), Hp.
  rewrite (AnimationFacts.deref_resource_ok _ _ _ _ Hp Hres).
  unfold mret, M_ret. by rewrite find_default_set_find_set_from.
Qed.

(** X25.  [getControllerDefaultSet] answers the animation set
    [initControllerRuntime] starts the controller in: the first set whose
    name hashes to [default_set], set 0 when there is none. *)
Theorem getControllerDefaultSet_is_the_runtime_set
    (s : @Scene Node) (cmp : Z) (c : Controller) (p : nat) (res : ControllerResource) :
  m_controllers s !! cmp = Some c →
  resource c = Some p → resources s !! p = Some res →
  getControllerDefaultSet cmp s
  = Ok (find_default_set (m_sets_names res) (default_set c) 0, s).
Proof.
  apply getControllerDefaultSet_is_the_runtime_set_aux.
Qed.

(** X26.  [getControllerDefaultSet] after [setControllerDefaultSet(set)]
    answers the first set whose name has the same hash as the one asked
    for: [set] itself when the hashes of the names are distinct. *)
Theorem setControllerDefaultSet_then_get
    (s : @Scene Node) (cmp : Z) (c : Controller) (p : nat) (res : ControllerResource)
    (set : Z) :
  m_controllers s !! cmp = Some c →
  resource c = Some p → resources s !! p = Some res →
  0 ≤ set < Z.of_nat (length (m_sets_names res)) →
  ∃ r s', (setControllerDefaultSet cmp set;; getControllerDefaultSet cmp) s = Ok (r, s') ∧
          0 ≤ r ≤ set ∧
          m_sets_names res !! Z.to_nat r = m_sets_names res !! Z.to_nat set ∧
          (NoDup (m_sets_names res) → r = set).
Proof.
  intros Hc Hp Hres Hset.
  destruct (lookup_lt_is_Some_2 (m_sets_names res) (Z.to_nat set)) as [h Hh]; [lia|].
  unfold setControllerDefaultSet, mbind at 1, M_bind at 1.
  unfold mbind at 1, M_bind at 1.
  rewrite (get_controller_ok _ _ _ Hc), Hp.
  unfold mbind at 1, M_bind at 1.
  rewrite (AnimationFacts.deref_resource_ok _ _ _ _ Hp Hres).
  unfold mbind at 1, M_bind at 1.
  assert (0 ≤ set) as Hset0 by lia.
  rewrite (AnimationFacts.array_get_lookup _ _ _ Hset0 Hh). unfold lift.
  unfold put_controller, modify.
  match goal with |- context [getControllerDefaultSet cmp ?s1] => set (s' := s1) end.
  rewrite (getControllerDefaultSet_is_the_runtime_set_aux s' cmp (with_default_set c h) p res);
    [|by (unfold s'; simpl; rewrite lookup_insert_eq)|done|done].
  eexists _, _. split; [done|]. simpl.
  destruct (find_set_from_spec 0 h (m_sets_names res)) as [[_ Hno]|(n & Hfind & Hl & Hno)].
  { exfalso. apply Hno. by eapply list_elem_of_lookup_2. }
  rewrite find_default_set_find_set_from by lia. rewrite Hfind.
  destruct (0 + Z.of_nat n <? 0) eqn:E; [lia|].
  replace (Z.to_nat (0 + Z.of_nat n)) with n by lia.
  assert (n ≤ Z.to_nat set)%nat as Hle.
  { destruct (decide (n ≤ Z.to_nat set)%nat) as [|Hgt]; [done|]. exfalso. apply Hno.
    apply list_elem_of_lookup. exists (Z.to_nat set). rewrite lookup_take_lt by lia. done. }
  split; [lia|]. split; [by rewrite Hl, Hh|].
  intros Hnd. assert (n = Z.to_nat set) by (by eapply NoDup_lookup). lia.
Qed.

End Facts.

Import AnimationExamples AnimationApiExamples.

Lemma getControllerInputIndex_first_named_slot_witness :
  ∃ r, getControllerInputIndex 1 2%nat a_set_scene = Ok (r, a_set_scene) ∧
    ((r = -1 ∧
      Forall (λ slot, in_type slot = EMPTY ∨ in_name slot ≠ 2%nat)
             (inputs (m_input_decl three_sets))) ∨
     (0 ≤ r ∧ ∃ slot, inputs (m_input_decl three_sets) !! Z.to_nat r = Some slot ∧
        in_type slot ≠ EMPTY ∧ in_name slot = 2%nat ∧
        Forall (λ slot, in_type slot = EMPTY ∨ in_name slot ≠ 2%nat)
               (take (Z.to_nat r) (inputs (m_input_decl three_sets))))).
Proof.
  apply (getControllerInputIndex_first_named_slot a_set_scene 1
           (a_controller (Some 4%nat) zeros) 0%nat three_sets 2%nat); reflexivity.
Defined.

Lemma setControllerInput_negative_index_witness :
  setControllerInput_float 1 (-1) 7 a_set_scene = Err OutOfBounds ∧
  setControllerInput_bool 1 (-1) true a_set_scene = Err OutOfBounds ∧
  setControllerInput_int 1 (-1) 7 a_set_scene = Err OutOfBounds.
Proof.
  apply (setControllerInput_negative_index a_set_scene 1
           (a_controller (Some 4%nat) zeros) 4%nat 0%nat three_sets (-1) 7 true 7);
    (reflexivity || lia).
Defined.

Lemma setControllerInput_float_against_setter_witness :
  (in_type (mkInput INT 1 4) ≠ FLOAT →
     setControllerInput_float 1 1 7 a_set_scene = Ok (tt, a_set_scene) ∧
     setControllerFloatInput 1 1 7 a_set_scene
     = Ok (tt, add_log (WarnSetFloatTo (in_name (mkInput INT 1 4))) a_set_scene)) ∧
  (in_type (mkInput INT 1 4) = FLOAT →
     setControllerInput_float 1 1 7 a_set_scene = setControllerFloatInput 1 1 7 a_set_scene).
Proof.
  apply (setControllerInput_float_against_setter a_set_scene 1
           (a_controller (Some 4%nat) zeros) 4%nat 0%nat three_sets 1 (mkInput INT 1 4) 7);
    (reflexivity || lia).
Defined.

Lemma getControllerDefaultSet_is_the_runtime_set_witness :
  getControllerDefaultSet 1 a_set_scene
  = Ok (find_default_set (m_sets_names three_sets)
          (default_set (a_controller (Some 4%nat) zeros)) 0, a_set_scene).
Proof.
  apply (getControllerDefaultSet_is_the_runtime_set a_set_scene 1
           (a_controller (Some 4%nat) zeros) 0%nat three_sets); reflexivity.
Defined.

Lemma setControllerDefaultSet_then_get_witness :
  ∃ r s', (setControllerDefaultSet 1 2;; getControllerDefaultSet 1) a_set_scene = Ok (r, s') ∧
          0 ≤ r ≤ 2 ∧
          m_sets_names three_sets !! Z.to_nat r = m_sets_names three_sets !! Z.to_nat 2 ∧
          (NoDup (m_sets_names three_sets) → r = 2).
Proof.
  apply (setControllerDefaultSet_then_get a_set_scene 1
           (a_controller (Some 4%nat) zeros) 0%nat three_sets 2);
    (reflexivity || (simpl; lia)).
Defined.

End AnimationApiFacts.

(** * Ragdoll trees *)

Module RagdollTreeFacts.
Import Ragdoll RagdollTrees.

(** Whatever the heap, a bone [getBone] returns carries the index asked
    for. *)
Lemma getBone_sound (fuel : nat) (h : gmap nat RagdollBone) (p : option nat) (idx : Z) (a : nat) :
  getBone fuel h p idx = Ok (Some a) → ∃ b, h !! a = Some b ∧ pose_bone_idx b = idx.
Proof.
  revert p. induction fuel as [|fuel IH]; intros p; simpl; [done|].
  destruct p as [q|]; [|done].
  destruct (h !! q) as [b|] eqn:Hq; simpl; [|done].
  case_decide as Hidx.
  - intros [= <-]. by exists b.
  - destruct (getBone fuel h (child b) idx) as [[c|]|] eqn:Hc; simpl.
    + intros [= <-]. by apply (IH _ Hc).
    + apply IH.
    + done.
Qed.

(** X27.  On a heap that holds a tree, [getBone] with fuel above the
    tree's depth returns a bone carrying the index asked for, and returns
    null only when no bone of the tree carries it. *)
Theorem getBone_on_tree (h : gmap nat RagdollBone) (t : Tree) (p par prv : option nat)
    (fuel : nat) (idx : Z) :
  tree_at h p par prv t → (depth t < fuel)%nat →
  ∃ r, getBone fuel h p idx = Ok r ∧
       (r = None ↔ idx ∉ tree_indices t) ∧
       (∀ a, r = Some a → ∃ b, h !! a = Some b ∧ pose_bone_idx b = idx).
Proof.
  revert p par prv fuel.
  induction t as [|i act bind j c IHc n IHn]; intros p par prv fuel Ht Hfuel.
  - simpl in Ht. subst p. destruct fuel as [|fuel]; [lia|]. simpl.
    exists None. split; [done|]. split; [|done]. split; [intros _; apply not_elem_of_nil|done].
  - destruct Ht as (a & b & -> & Hb & Hi & _ & _ & _ & _ & _ & Hc & Hn).
    destruct fuel as [|fuel]; [lia|]. simpl in Hfuel.
    cbn [getBone]. rewrite Hb. cbn [of_option mbind Res_bind].
    case_decide as Hidx.
    + exists (Some a). split; [done|]. split.
      * split; [done|]. intros Hnot. exfalso. apply Hnot. simpl. rewrite <- Hi, Hidx. left.
      * intros a' [= <-]. by exists b.
    + destruct (IHc _ _ _ fuel Hc ltac:(lia)) as (rc & -> & Hcnone & Hcsome).
      destruct rc as [ac|]; cbn [mbind Res_bind].
      * exists (Some ac). split; [done|]. split.
        -- split; [done|]. intros Hnot. exfalso.
           assert (idx ∈ tree_indices c) as Hin.
           { destruct (decide (idx ∈ tree_indices c)) as [|Hno]; [done|].
             apply Hcnone in Hno. done. }
           apply Hnot. simpl. right. apply elem_of_app. by left.
        -- intros a' [= <-]. by apply Hcsome.
      * destruct (IHn _ _ _ fuel Hn ltac:(lia)) as (rn & -> & Hnnone & Hnsome).
        exists rn. split; [done|]. split; [|done].
        rewrite Hnnone. simpl. rewrite not_elem_of_cons, not_elem_of_app.
        assert (idx ∉ tree_indices c) as Hcno by (by apply Hcnone).
        rewrite Hi in Hidx. split; [intros ?; split; [congruence|done]|by intros (_ & _ & ?)].
Qed.

Lemma serializeRagdollJoint_any (b : RagdollBone) par a j :
  joint_at (parent_joint b) par a j →
  serializeRagdollJoint b = if spherical j then Err AssertFailed else Ok (tree_joint_bytes j).
Proof.
  unfold joint_at, serializeRagdollJoint, tree_joint_bytes, getConcreteType, spherical.
  destruct (parent_joint b) as [x|], j as [[[p0 p1] ps]|]; try done.
  intros (_ & _ & <- & <- & <-).
  destruct (params x); try done; f_equal; by rewrite <- ?app_assoc, ?app_nil_r.
Qed.

(** X28.  On a heap that holds a tree, [serializeRagdollBone] writes the
    bytes of the tree when no bone has a spherical joint, and stops at the
    [ASSERT] of the joint writer as soon as one has. *)
Theorem serializeRagdollBone_succeeds_iff_no_spherical_joint
    (h : gmap nat RagdollBone) (t : Tree) (p par prv : option nat) (fuel : nat) :
  tree_at h p par prv t → (depth t ≤ fuel)%nat →
  serializeRagdollBone fuel h p =
  if has_spherical t then Err AssertFailed else Ok (tree_bytes t).
Proof.
  revert p par prv fuel.
  induction t as [|idx act bind j c IHc n IHn]; intros p par prv fuel Ht Hfuel.
  - simpl in Ht. subst p. by destruct fuel.
  - destruct Ht as (a & b & -> & Hb & <- & <- & <- & Hpar & Hprv & Hj & Hc & Hn).
    destruct fuel as [|fuel]; [simpl in Hfuel; lia|].
    cbn [serializeRagdollBone]. rewrite Hb. cbn [of_option mbind Res_bind].
    rewrite (IHc _ _ _ fuel Hc) by (simpl in Hfuel; lia).
    cbn [has_spherical].
    destruct (has_spherical c); [by rewrite orb_true_r|]. rewrite orb_false_r.
    rewrite (IHn _ _ _ fuel Hn) by (simpl in Hfuel; lia).
    destruct (has_spherical n); [by rewrite orb_true_r|]. rewrite orb_false_r.
    rewrite (serializeRagdollJoint_any _ _ _ _ Hj).
    destruct (spherical j); [done|].
    unfold mbind, Res_bind. cbn [tree_bytes]. by rewrite <- !app_assoc.
Qed.

Section PhyParent.

Variable model : list Z.

Lemma getRagdollBoneByName_inv (idx : Z) (s s' : State) (r : option nat) :
  getRagdollBoneByName model idx s = Ok (r, s') →
  s' = s ∧ (∃ p, array_get model idx = Ok p) ∧
  ∀ a, r = Some a → ∃ b, bones s !! a = Some b ∧ pose_bone_idx b = idx.
Proof.
  unfold getRagdollBoneByName.
  destruct (array_get model idx) as [p|] eqn:Hp; [|done]. cbn [mbind Res_bind].
  destruct (getBone _ _ _ _) as [r'|] eqn:Hr; [|done]. cbn [mbind Res_bind].
  intros [= <- <-]. split; [done|]. split; [by eexists|].
  intros a ->. by apply getBone_sound in Hr.
Qed.

Lemma getPhyParent_loop_inv (fuel : nat) (j : Z) (s s' : State) (a : nat) :
  getPhyParent_loop model fuel j s = Ok (Some a, s') →
  s' = s ∧ ∃ b, bones s !! a = Some b ∧ ancestor model j (pose_bone_idx b).
Proof.
  revert j. induction fuel as [|fuel IH]; intros j; simpl; [done|].
  unfold mbind, H_bind, lift.
  destruct (array_get model j) as [parent_idx|] eqn:Hj; [|done].
  destruct (getRagdollBoneByName model parent_idx s) as [[phy s1]|] eqn:Hphy; [|done].
  apply getRagdollBoneByName_inv in Hphy as (-> & [g Hg] & Hsound).
  rewrite Hg.
  destruct phy as [q|].
  - intros [= <- <-]. split; [done|].
    destruct (Hsound q eq_refl) as (b & Hb & Hidx). exists b. split; [done|].
    rewrite Hidx. apply ancestor_parent; [done|].
    unfold array_get in Hg. by case_decide.
  - case_decide as Hgrand; [|done].
    intros Hrec. apply IH in Hrec as (-> & b & Hb & Hanc). split; [done|].
    exists b. split; [done|]. apply ancestor_step with parent_idx; [done| |done].
    unfold array_get in Hg. by case_decide.
Qed.

(** X29.  A bone [getPhyParent] returns for a skeleton bone is a ragdoll
    bone of one of its proper ancestors in the skeleton, and the call leaves
    the ragdoll as it was. *)
Theorem getPhyParent_returns_ancestor (bone_index : Z) (s s' : State) (a : nat) :
  getPhyParent model bone_index s = Ok (Some a, s') →
  s' = s ∧ ∃ b, bones s !! a = Some b ∧ ancestor model bone_index (pose_bone_idx b).
Proof.
  unfold getPhyParent, mbind, H_bind, lift.
  destruct (array_get model bone_index) as [parent_idx|]; [|done].
  case_decide; [done|]. apply getPhyParent_loop_inv.
Qed.

End PhyParent.

End RagdollTreeFacts.

Module RagdollTreeWitnesses.
Import Ragdoll RagdollExamples RagdollTrees RagdollTreeExamples RagdollTreeFacts.

Lemma chain_tree_at : tree_at (bones chain_state) (root chain_state) None None chain_tree.
Proof.
  cbn [tree_at chain_tree].
  eexists 0%nat, _. split; [reflexivity|]. split; [reflexivity|].
  repeat split.
  eexists 1%nat, _. split; [reflexivity|]. split; [reflexivity|].
  repeat split.
Qed.

Lemma getBone_on_tree_witness :
  ∃ r, getBone 3 (bones chain_state) (root chain_state) 1 = Ok r ∧
       (r = None ↔ 1 ∉ tree_indices chain_tree) ∧
       (∀ a, r = Some a → ∃ b, bones chain_state !! a = Some b ∧ pose_bone_idx b = 1).
Proof.
  apply (getBone_on_tree (bones chain_state) chain_tree (root chain_state) None None 3 1);
    [apply chain_tree_at|simpl; lia].
Defined.

Lemma serializeRagdollBone_succeeds_iff_no_spherical_joint_witness :
  serializeRagdollBone 2 (bones chain_state) (root chain_state) =
  if has_spherical chain_tree then Err AssertFailed else Ok (tree_bytes chain_tree).
Proof.
  apply (serializeRagdollBone_succeeds_iff_no_spherical_joint
           (bones chain_state) chain_tree (root chain_state) None None 2);
    [apply chain_tree_at|simpl; lia].
Defined.

Lemma getPhyParent_returns_ancestor_witness :
  chain_state = chain_state ∧
  ∃ b, bones chain_state !! 0%nat = Some b ∧ ancestor spine 1 (pose_bone_idx b).
Proof.
  apply (getPhyParent_returns_ancestor spine 1 chain_state chain_state 0).
  vm_compute. reflexivity.
Defined.

(** [chain_state] is the ragdoll [createRagdollBone] builds for the first
    two bones of [spine]. *)
Example chain_state_created :
  (create spine 0;; create spine 1;; mret tt) empty_ragdoll = Ok (tt, chain_state).
Proof. vm_compute. reflexivity. Qed.

Lemma ragdoll_roundtrip_witness :
  ∃ bs s', serializeRagdollBone 2 (bones chain_state) (root chain_state) = Ok bs ∧
           deserializeRagdoll frames fresh_params bs = Ok (s', []) ∧
           tree_at (bones s') (root s') None None chain_tree.
Proof.
  apply (RagdollRoundTrip.ragdoll_roundtrip frames fresh_params (conj eq_refl eq_refl)
           chain_tree chain_state 2 chain_tree_at).
  - cbn [chain_tree supported joint_supported geometry_sized an_actor global_pose geometry
         a_bind_transform fresh_params].
    repeat split; try lia; reflexivity.
  - simpl. lia.
Defined.

End RagdollTreeWitnesses.
